(** * Branch and Bound for Integer Linear Programming: a shallow embedding

    This development embeds [Branch_Bound.cpp] (the Big-M simplex tableau
    solver [SimplexSolver] and the best-first search [BranchAndBound]) and
    proves properties of the embedded code.

    Modelling conventions.
    - [double] is IEEE-754 binary64, i.e. Rocq's primitive [float]; every
      arithmetic operation and comparison of the source is the primitive one
      (round to nearest even, no fused multiply-add).
    - [int] and [size_t] are [Z]; overflow of [int] counters is not modelled.
    - [vector<T>] is [list T].  An access out of range is undefined behaviour
      in C++: the model reads a default value and ignores the write.
    - [map<int, TreeNode>] is [gmap Z TreeNode]; [operator[]] on a missing key
      yields the default-constructed node, as in C++.
    - Console output is not modelled, except that [displayFinalSolution]
      returns the figures it prints.
    - [std::sort] is modelled as a stable insertion sort (what the usual
      implementations do on ranges this short); the standard leaves the
      order of equal keys open. *)

From Stdlib Require Import ZArith List Bool Ascii String Floats Lia.
From stdpp Require Import base gmap list strings pretty.

Set Warnings "-inexact-float".
Local Open Scope Z_scope.

(** ** Numbers *)

Abbreviation double := PrimFloat.float.

Definition EPSILON : double := 1e-10%float.
Definition BIG_M : double := 10000%float.

Definition fadd (a b : double) : double := PrimFloat.add a b.
Definition fsub (a b : double) : double := PrimFloat.sub a b.
Definition fmul (a b : double) : double := PrimFloat.mul a b.
Definition fdiv (a b : double) : double := PrimFloat.div a b.
Definition fneg (a : double) : double := PrimFloat.opp a.
Definition fabs (a : double) : double := PrimFloat.abs a.
Definition flt (a b : double) : bool := PrimFloat.ltb a b.
Definition fle (a b : double) : bool := PrimFloat.leb a b.
Definition fgt (a b : double) : bool := PrimFloat.ltb b a.
Definition fge (a b : double) : bool := PrimFloat.leb b a.
Definition feq (a b : double) : bool := PrimFloat.eqb a b.

(** [(double)n] for an [int] n. *)
Definition Z2double (z : Z) : double :=
  if z <? 0 then PrimFloat.opp (PrimFloat.of_uint63 (Uint63.of_Z (- z)))
  else PrimFloat.of_uint63 (Uint63.of_Z z).

(** [(int)floor(x)]: the largest integer not above a finite [x].  A finite
    binary64 number is [(-1)^s * m * 2^e]; [Z.div] rounds down. *)
Definition floorZ (x : double) : Z :=
  match Prim2SF x with
  | S754_finite s m e =>
      let n := if s then Z.neg m else Z.pos m in
      if 0 <=? e then n * 2 ^ e else n / 2 ^ (- e)
  | _ => 0
  end.

(** [(int)ceil(x)]. *)
Definition ceilZ (x : double) : Z := - floorZ (fneg x).

(** [floor(x)] of <cmath>: zeros, infinities, NaN and numbers without a
    fractional part are returned unchanged. *)
Definition floor (x : double) : double :=
  match Prim2SF x with
  | S754_finite _ _ e => if 0 <=? e then x else Z2double (floorZ x)
  | _ => x
  end.

(** The test for a fractional value, [fabs(val - floor(val + 0.5)) > 1e-6] *)
Definition fractional (val : double) : bool :=
  fgt (fabs (fsub val (floor (fadd val 0.5%float)))) 1e-6%float.

(** ** Vectors and loops *)

Definition getZ {A} (d : A) (l : list A) (i : Z) : A :=
  if i <? 0 then d else nth (Z.to_nat i) l d.

Definition setZ {A} (l : list A) (i : Z) (x : A) : list A :=
  if i <? 0 then l else <[Z.to_nat i := x]> l.

Definition sizeZ {A} (l : list A) : Z := Z.of_nat (length l).

(** [for (int i = lo; i < hi; i++) body] as a left fold over [lo .. hi-1]. *)
Definition for_loop {S} (lo hi : Z) (body : Z -> S -> S) (s : S) : S :=
  foldl (fun s i => body i s) s (seqZ lo (hi - lo)).

(** [m[i][j]] and [m[i][j] = x]. *)
Definition get2 (m : list (list double)) (i j : Z) : double :=
  getZ 0%float (getZ [] m i) j.

Definition set2 (m : list (list double)) (i j : Z) (x : double)
  : list (list double) :=
  setZ m i (setZ (getZ [] m i) j x).

(** [v.back()]. *)
Definition back {A} (d : A) (l : list A) : A := List.last l d.

(** [to_string(n)]. *)
Definition to_string (n : Z) : string := pretty n.

(** ** SimplexSolver *)

Module SimplexSolver.

Record t := mk {
  numVariables : Z;
  numConstraints : Z;
  objective : list double;
  constraints : list (list double);
  rhs : list double;
  constraintTypes : list Z;
  isMaximization : bool;
  tableau : list (list double);
  varNames : list string;
  basicVars : list Z;
  isFeasible : bool;
  isUnbounded : bool
}.

(** The constructor. *)
Definition new (obj : list double) (cons : list (list double))
    (r : list double) (types : list Z) (isMax : bool) : t :=
  {| numVariables := sizeZ obj; numConstraints := sizeZ cons;
     objective := obj; constraints := cons; rhs := r;
     constraintTypes := types; isMaximization := isMax;
     tableau := []; varNames := []; basicVars := [];
     isFeasible := true; isUnbounded := false |}.

Definition with_tableau (s : t) (tb : list (list double)) (vn : list string)
    (bv : list Z) : t :=
  {| numVariables := numVariables s; numConstraints := numConstraints s;
     objective := objective s; constraints := constraints s; rhs := rhs s;
     constraintTypes := constraintTypes s;
     isMaximization := isMaximization s;
     tableau := tb; varNames := vn; basicVars := bv;
     isFeasible := isFeasible s; isUnbounded := isUnbounded s |}.

Definition with_flags (s : t) (feas unb : bool) : t :=
  {| numVariables := numVariables s; numConstraints := numConstraints s;
     objective := objective s; constraints := constraints s; rhs := rhs s;
     constraintTypes := constraintTypes s;
     isMaximization := isMaximization s;
     tableau := tableau s; varNames := varNames s; basicVars := basicVars s;
     isFeasible := feas; isUnbounded := unb |}.

(** The three counters of the first loop of [createInitialTableau]. *)
Definition countVars (types : list Z) : Z * Z * Z :=
  foldl (fun '(sl, su, ar) ty =>
           if ty =? 1 then (sl + 1, su, ar)
           else if ty =? 2 then (sl, su + 1, ar + 1)
           else (sl, su, ar + 1))
        (0, 0, 0) types.

(** State of the row-filling loop. *)
Record fill := mkFill {
  f_tab : list (list double);
  f_names : list string;
  f_basic : list Z;
  f_slack : Z;
  f_surplus : Z;
  f_art : Z
}.

Definition fillRow (s : t) (numCols : Z) (i : Z) (f : fill) : fill :=
  let tb0 := for_loop 0 (numVariables s)
               (fun j tb => set2 tb i j (get2 (constraints s) i j)) (f_tab f) in
  let ty := getZ 0 (constraintTypes s) i in
  let f1 :=
    if ty =? 1 then
      {| f_tab := set2 tb0 i (f_slack f) 1%float;
         f_names := f_names f ++ ["s" +:+ to_string (i + 1)];
         f_basic := f_basic f ++ [f_slack f];
         f_slack := f_slack f + 1;
         f_surplus := f_surplus f; f_art := f_art f |}
    else if ty =? 2 then
      {| f_tab := set2 (set2 tb0 i (f_surplus f) (-1)%float) i (f_art f) 1%float;
         f_names := (f_names f ++ ["e" +:+ to_string (i + 1)])
                      ++ ["a" +:+ to_string (i + 1)];
         f_basic := f_basic f ++ [f_art f];
         f_slack := f_slack f;
         f_surplus := f_surplus f + 1; f_art := f_art f + 1 |}
    else
      {| f_tab := set2 tb0 i (f_art f) 1%float;
         f_names := f_names f ++ ["a" +:+ to_string (i + 1)];
         f_basic := f_basic f ++ [f_art f];
         f_slack := f_slack f;
         f_surplus := f_surplus f; f_art := f_art f + 1 |} in
  {| f_tab := set2 (f_tab f1) i (numCols - 1) (getZ 0%float (rhs s) i);
     f_names := f_names f1; f_basic := f_basic f1;
     f_slack := f_slack f1; f_surplus := f_surplus f1; f_art := f_art f1 |}.

(** The Big-M elimination for row [i]: the first artificial column holding
    1 in that row gets its penalty, then the row is folded into the
    objective row. *)
Definition bigMRow (s : t) (numRows numCols artStart totalVars : Z) (i : Z)
    (tb : list (list double)) : list (list double) :=
  let ty := getZ 0 (constraintTypes s) i in
  if (ty =? 2) || (ty =? 3) then
    match List.find (fun j => feq (get2 tb i j) 1%float)
                    (seqZ artStart (totalVars - artStart)) with
    | Some j =>
        let tb1 := set2 tb (numRows - 1) j
                     (if isMaximization s then BIG_M else fneg BIG_M) in
        for_loop 0 numCols
          (fun k tb =>
             set2 tb (numRows - 1) k
               (if isMaximization s
                then fsub (get2 tb (numRows - 1) k) (fmul BIG_M (get2 tb i k))
                else fadd (get2 tb (numRows - 1) k) (fmul BIG_M (get2 tb i k))))
          tb1
    | None => tb
    end
  else tb.

Definition createInitialTableau (s : t) : t :=
  let '(numSlack, numSurplus, numArtificial) := countVars (constraintTypes s) in
  let totalVars := numVariables s + numSlack + numSurplus + numArtificial in
  let numRows := numConstraints s + 1 in
  let numCols := totalVars + 1 in
  let tb0 := replicate (Z.to_nat numRows) (replicate (Z.to_nat numCols) 0%float) in
  let names0 := for_loop 0 (numVariables s)
                  (fun i vn => vn ++ ["x" +:+ to_string (i + 1)]) [] in
  let f0 := {| f_tab := tb0; f_names := names0; f_basic := [];
               f_slack := numVariables s;
               f_surplus := numVariables s + numSlack;
               f_art := numVariables s + numSlack + numSurplus |} in
  let f1 := for_loop 0 (numConstraints s) (fillRow s numCols) f0 in
  let tb1 := for_loop 0 (numVariables s)
               (fun j tb =>
                  set2 tb (numRows - 1) j
                    (if isMaximization s then fneg (getZ 0%float (objective s) j)
                     else getZ 0%float (objective s) j))
               (f_tab f1) in
  let tb2 := for_loop 0 (numConstraints s)
               (bigMRow s numRows numCols
                  (numVariables s + numSlack + numSurplus) totalVars) tb1 in
  with_tableau s tb2 (f_names f1) (f_basic f1).

Definition findPivotColumn (s : t) : Z :=
  let numCols := sizeZ (getZ [] (tableau s) 0) in
  let lastRow := back [] (tableau s) in
  if isMaximization s then
    snd (for_loop 0 (numCols - 1)
           (fun j '(minVal, minIdx) =>
              if flt (getZ 0%float lastRow j) (fsub minVal EPSILON)
              then (getZ 0%float lastRow j, j) else (minVal, minIdx))
           (0%float, -1))
  else
    snd (for_loop 0 (numCols - 1)
           (fun j '(maxVal, maxIdx) =>
              if fgt (getZ 0%float lastRow j) (fadd maxVal EPSILON)
              then (getZ 0%float lastRow j, j) else (maxVal, maxIdx))
           (0%float, -1)).

Definition findPivotRow (s : t) (pivotCol : Z) : Z :=
  let numRows := sizeZ (tableau s) in
  snd (for_loop 0 (numRows - 1)
         (fun i '(minRatio, minRow) =>
            if fgt (get2 (tableau s) i pivotCol) EPSILON then
              let ratio := fdiv (back 0%float (getZ [] (tableau s) i))
                                (get2 (tableau s) i pivotCol) in
              if flt ratio minRatio then (ratio, i) else (minRatio, minRow)
            else (minRatio, minRow))
         (1e30%float, -1)).

Definition performPivot (s : t) (pivotRow pivotCol : Z) : t :=
  let bv := setZ (basicVars s) pivotRow pivotCol in
  let pivotElement := get2 (tableau s) pivotRow pivotCol in
  let numCols := sizeZ (getZ [] (tableau s) pivotRow) in
  let tb1 := for_loop 0 numCols
               (fun j tb => set2 tb pivotRow j (fdiv (get2 tb pivotRow j) pivotElement))
               (tableau s) in
  let numRows := sizeZ tb1 in
  let tb2 := for_loop 0 numRows
               (fun i tb =>
                  if i =? pivotRow then tb
                  else
                    let factor := get2 tb i pivotCol in
                    for_loop 0 numCols
                      (fun j tb =>
                         set2 tb i j
                           (fsub (get2 tb i j) (fmul factor (get2 tb pivotRow j))))
                      tb)
               tb1 in
  with_tableau s tb2 (varNames s) bv.

(** How the pivoting loop of [solve] is left. *)
Inductive loop_exit :=
  | Optimal (s : t)      (* [findPivotColumn] returned -1: [break] *)
  | NoPivotRow (s : t)   (* [findPivotRow] returned -1: the early [return] *)
  | Exhausted (s : t).   (* [iter] reached [maxIterations] *)

Fixpoint pivotLoop (iters : nat) (s : t) : loop_exit :=
  match iters with
  | O => Exhausted s
  | S n =>
      let pivotCol := findPivotColumn s in
      if pivotCol =? -1 then Optimal s
      else
        let pivotRow := findPivotRow s pivotCol in
        if pivotRow =? -1 then NoPivotRow s
        else pivotLoop n (performPivot s pivotRow pivotCol)
  end.

Definition maxIterations : nat := 100.

(** [varNames[bv][0] == 'a'] *)
Definition startsWith_a (name : string) : bool :=
  match name with
  | String c _ => bool_decide (c = "a"%char)
  | EmptyString => false
  end.

(** The check of the second loop of [solve] for row [i]. *)
Definition artificialPositive (s : t) (i : Z) : bool :=
  let bv := getZ 0 (basicVars s) i in
  (bv <? sizeZ (varNames s))
  && startsWith_a (getZ EmptyString (varNames s) bv)
  && fgt (back 0%float (getZ [] (tableau s) i)) 1e-6%float.

Definition extractSolution (s : t) : list double :=
  for_loop 0 (sizeZ (basicVars s))
    (fun i sol =>
       let bv := getZ 0 (basicVars s) i in
       if bv <? numVariables s
       then setZ sol bv (back 0%float (getZ [] (tableau s) i))
       else sol)
    (replicate (Z.to_nat (numVariables s)) 0%float).

Definition objectiveValue (s : t) (sol : list double) : double :=
  for_loop 0 (numVariables s)
    (fun i acc => fadd acc (fmul (getZ 0%float (objective s) i)
                                 (getZ 0%float sol i)))
    0%float.

(** The loop "Check for artificial variables": some row fires the check. *)
Definition artificialRemains (s : t) : bool :=
  existsb (artificialPositive s) (seqZ 0 (sizeZ (basicVars s))).

(** What follows the pivoting loop. *)
Definition afterLoop (s : t) : t * list double * double :=
  if artificialRemains s then
    (with_flags s false (isUnbounded s), [], 0%float)
  else
    let sol := extractSolution s in
    (s, sol, objectiveValue s sol).

(** [solve(outSolution, outObjValue)]: both arguments are references, so
    their incoming contents are inputs of the model. *)
Definition solve (s : t) (outSolution : list double) (outObjValue : double)
  : t * list double * double :=
  match pivotLoop maxIterations (createInitialTableau s) with
  | NoPivotRow s' => (with_flags s' (isFeasible s') true, [], 0%float)
  | Optimal s' => afterLoop s'
  | Exhausted s' => afterLoop s'
  end.

End SimplexSolver.

(** ** Tree nodes and queue items *)

Record TreeNode := mkTreeNode {
  nodeId : Z;
  n_parentId : Z;
  branchConstraint : string;
  n_depth : Z;
  solution : list double;
  objValue : double;
  status : string;
  leftChild : Z;
  rightChild : Z;
  isOptimal : bool
}.

(** [TreeNode()] *)
Definition TreeNode_default : TreeNode :=
  mkTreeNode (-1) (-1) EmptyString 0 [] 0%float EmptyString (-1) (-1) false.

(** [TreeNode(id, parent, constraint, d)] *)
Definition TreeNode_new (id parent : Z) (constraint : string) (d : Z) : TreeNode :=
  mkTreeNode id parent constraint d [] 0%float EmptyString (-1) (-1) false.

Definition set_result (n : TreeNode) (sol : list double) (obj : double) : TreeNode :=
  mkTreeNode (nodeId n) (n_parentId n) (branchConstraint n) (n_depth n)
    sol obj (status n) (leftChild n) (rightChild n) (isOptimal n).

Definition set_status (n : TreeNode) (st : string) : TreeNode :=
  mkTreeNode (nodeId n) (n_parentId n) (branchConstraint n) (n_depth n)
    (solution n) (objValue n) st (leftChild n) (rightChild n) (isOptimal n).

Definition set_leftChild (n : TreeNode) (c : Z) : TreeNode :=
  mkTreeNode (nodeId n) (n_parentId n) (branchConstraint n) (n_depth n)
    (solution n) (objValue n) (status n) c (rightChild n) (isOptimal n).

Definition set_rightChild (n : TreeNode) (c : Z) : TreeNode :=
  mkTreeNode (nodeId n) (n_parentId n) (branchConstraint n) (n_depth n)
    (solution n) (objValue n) (status n) (leftChild n) c (isOptimal n).

Definition set_isOptimal (n : TreeNode) (o : bool) : TreeNode :=
  mkTreeNode (nodeId n) (n_parentId n) (branchConstraint n) (n_depth n)
    (solution n) (objValue n) (status n) (leftChild n) (rightChild n) o.

Record QueueItem := mkQueueItem {
  extraCons : list (list double);
  extraRhs : list double;
  extraTypes : list Z;
  bound : double;
  q_parentId : Z;
  branchInfo : string;
  q_depth : Z
}.

(** [std::sort(first, last, comp)] on a short range: insertion sort, which
    keeps the order of elements that [comp] does not separate. *)
Fixpoint sort_insert {A} (comp : A -> A -> bool) (x : A) (l : list A) : list A :=
  match l with
  | [] => [x]
  | y :: l' => if comp y x then y :: sort_insert comp x l' else x :: l
  end.

Definition sort {A} (comp : A -> A -> bool) (l : list A) : list A :=
  foldr (sort_insert comp) [] l.

(** ** BranchAndBound *)

Module BranchAndBound.

Record t := mk {
  objective : list double;
  constraints : list (list double);
  rhs : list double;
  constraintTypes : list Z;
  isMaximization : bool;
  numVariables : Z;
  numConstraints : Z;
  integerVars : list Z;
  bestSolution : list double;
  bestObjValue : double;
  iteration : Z;
  treeNodes : gmap Z TreeNode;
  optimalPath : list Z;
  (** Ghost field, absent from the class: every assignment
      [treeNodes[id].status = st] appends [(id, st)], oldest first. *)
  statusLog : list (Z * string)
}.

(** The object as [getUserInput] leaves it: the constructor's values for
    the search fields, the problem as read. *)
Definition new (obj : list double) (cons : list (list double))
    (r : list double) (types : list Z) (isMax : bool) (intVars : list Z) : t :=
  {| objective := obj; constraints := cons; rhs := r; constraintTypes := types;
     isMaximization := isMax; numVariables := sizeZ obj;
     numConstraints := sizeZ cons; integerVars := intVars;
     bestSolution := []; bestObjValue := 0%float; iteration := 0;
     treeNodes := ∅; optimalPath := []; statusLog := [] |}.


Definition integerVars_selected (numVariables : Z) (parsed : list Z) : list Z :=
  foldl (fun acc var =>
           if (1 <=? var) && (var <=? numVariables) then acc ++ [var - 1]
           else acc)
        [] parsed.

Definition with_best (b : t) (sol : list double) (obj : double) : t :=
  {| objective := objective b; constraints := constraints b; rhs := rhs b;
     constraintTypes := constraintTypes b; isMaximization := isMaximization b;
     numVariables := numVariables b; numConstraints := numConstraints b;
     integerVars := integerVars b;
     bestSolution := sol; bestObjValue := obj; iteration := iteration b;
     treeNodes := treeNodes b; optimalPath := optimalPath b;
     statusLog := statusLog b |}.

Definition with_iteration (b : t) (it : Z) : t :=
  {| objective := objective b; constraints := constraints b; rhs := rhs b;
     constraintTypes := constraintTypes b; isMaximization := isMaximization b;
     numVariables := numVariables b; numConstraints := numConstraints b;
     integerVars := integerVars b;
     bestSolution := bestSolution b; bestObjValue := bestObjValue b;
     iteration := it;
     treeNodes := treeNodes b; optimalPath := optimalPath b;
     statusLog := statusLog b |}.

Definition with_treeNodes (b : t) (tn : gmap Z TreeNode) : t :=
  {| objective := objective b; constraints := constraints b; rhs := rhs b;
     constraintTypes := constraintTypes b; isMaximization := isMaximization b;
     numVariables := numVariables b; numConstraints := numConstraints b;
     integerVars := integerVars b;
     bestSolution := bestSolution b; bestObjValue := bestObjValue b;
     iteration := iteration b;
     treeNodes := tn; optimalPath := optimalPath b;
     statusLog := statusLog b |}.

Definition with_optimalPath (b : t) (p : list Z) : t :=
  {| objective := objective b; constraints := constraints b; rhs := rhs b;
     constraintTypes := constraintTypes b; isMaximization := isMaximization b;
     numVariables := numVariables b; numConstraints := numConstraints b;
     integerVars := integerVars b;
     bestSolution := bestSolution b; bestObjValue := bestObjValue b;
     iteration := iteration b;
     treeNodes := treeNodes b; optimalPath := p;
     statusLog := statusLog b |}.

Definition with_statusLog (b : t) (l : list (Z * string)) : t :=
  {| objective := objective b; constraints := constraints b; rhs := rhs b;
     constraintTypes := constraintTypes b; isMaximization := isMaximization b;
     numVariables := numVariables b; numConstraints := numConstraints b;
     integerVars := integerVars b;
     bestSolution := bestSolution b; bestObjValue := bestObjValue b;
     iteration := iteration b;
     treeNodes := treeNodes b; optimalPath := optimalPath b;
     statusLog := l |}.

(** [treeNodes[id]] *)
Definition node (b : t) (id : Z) : TreeNode :=
  default TreeNode_default (treeNodes b !! id).

(** [treeNodes[id] = n] *)
Definition put_node (b : t) (id : Z) (n : TreeNode) : t :=
  with_treeNodes b (<[id := n]> (treeNodes b)).

(** [treeNodes[id].status = st] *)
Definition assign_status (b : t) (id : Z) (st : string) : t :=
  with_statusLog (put_node b id (set_status (node b id) st))
                 (statusLog b ++ [(id, st)]).

Definition isIntegerSolution (b : t) (sol : list double) : bool :=
  match sol with
  | [] => false
  | _ => forallb (fun idx => negb (fractional (getZ 0%float sol idx)))
                 (integerVars b)
  end.

(** Returns [(varIdx, fracVal)]. *)
Definition findBranchingVariable (b : t) (sol : list double) : Z * double :=
  match List.find (fun idx => fractional (getZ 0%float sol idx)) (integerVars b) with
  | Some idx => (idx, getZ 0%float sol idx)
  | None => (-1, 0%float)
  end.

(** The solver object that [solveSubproblem] constructs. *)
Definition subproblemSolver (b : t) (extraCons : list (list double))
    (extraRhs : list double) (extraTypes : list Z) : SimplexSolver.t :=
  let n := sizeZ extraCons in
  let allCons := for_loop 0 n (fun i acc => acc ++ [getZ [] extraCons i])
                   (constraints b) in
  let allRhs := for_loop 0 n (fun i acc => acc ++ [getZ 0%float extraRhs i])
                  (rhs b) in
  let allTypes := for_loop 0 n (fun i acc => acc ++ [getZ 0 extraTypes i])
                    (constraintTypes b) in
  SimplexSolver.new (objective b) allCons allRhs allTypes (isMaximization b).

Definition solveSubproblem (b : t) (extraCons : list (list double))
    (extraRhs : list double) (extraTypes : list Z)
    (outSolution : list double) (outObjValue : double)
  : list double * double :=
  let '(_, sol, obj) :=
    SimplexSolver.solve (subproblemSolver b extraCons extraRhs extraTypes)
      outSolution outObjValue in
  (sol, obj).

(** The [while (traceId != -1)] loop that rebuilds [optimalPath]; parents
    have smaller ids, so [fuel] above the starting id is enough. *)
Fixpoint tracePath (fuel : nat) (b : t) (traceId : Z) (path : list Z) : list Z :=
  match fuel with
  | O => path
  | S k =>
      if traceId =? -1 then path
      else tracePath k b (n_parentId (node b traceId)) (traceId :: path)
  end.

(** The loop over [treeNodes] that recomputes every [isOptimal]. *)
Definition markOptimal (b : t) : t :=
  with_treeNodes b
    (map_imap (fun k n =>
                 Some (set_isOptimal n (bool_decide (k ∈ optimalPath b))))
              (treeNodes b)).

(** The figures printed by [displayFinalSolution]: nodes explored,
    iterations, each variable (rounded with [(int)(val + 0.5)] when it is
    an integer variable) and the recomputed objective. *)
Record report := mkReport {
  r_nodes : Z;
  r_iterations : Z;
  r_vars : list (Z + double);
  r_Z : double
}.

(** [(int)x] for a finite [x]: truncation toward zero. *)
Definition truncZ (x : double) : Z :=
  if flt x 0%float then ceilZ x else floorZ x.

Definition displayFinalSolution (b : t) : option report :=
  match bestSolution b with
  | [] => None
  | _ =>
      Some {|
        r_nodes := Z.of_nat (size (treeNodes b));
        r_iterations := iteration b;
        r_vars :=
          for_loop 0 (numVariables b)
            (fun i acc =>
               let val := getZ 0%float (bestSolution b) i in
               if existsb (Z.eqb i) (integerVars b)
               then acc ++ [inl (truncZ (fadd val 0.5%float))]
               else acc ++ [inr val])
            [];
        r_Z :=
          for_loop 0 (numVariables b)
            (fun i acc => fadd acc (fmul (getZ 0%float (objective b) i)
                                         (getZ 0%float (bestSolution b) i)))
            0%float |}
  end.

(** State of the main loop: the object, the queue and [nodeCounter]. *)
Record loop_state := mkLoop {
  l_obj : t;
  l_queue : list QueueItem;
  l_counter : Z
}.

Definition bound_gt (a c : QueueItem) : bool := fgt (bound a) (bound c).
Definition bound_lt (a c : QueueItem) : bool := flt (bound a) (bound c).

(** The two children pushed by the branching step. *)
Definition children (b : t) (current : QueueItem) (currentNodeId : Z)
    (sol : list double) (obj : double) : list QueueItem :=
  let '(varIdx, fracVal) := findBranchingVariable b sol in
  let floorVal := floorZ fracVal in
  let ceilVal := ceilZ fracVal in
  let coef := setZ (replicate (Z.to_nat (numVariables b)) 0%float) varIdx 1%float in
  [ {| extraCons := extraCons current ++ [coef];
       extraRhs := extraRhs current ++ [Z2double floorVal];
       extraTypes := extraTypes current ++ [1];
       bound := obj; q_parentId := currentNodeId;
       branchInfo := "x" +:+ to_string (varIdx + 1) +:+ " <= " +:+ to_string floorVal;
       q_depth := q_depth current + 1 |};
    {| extraCons := extraCons current ++ [coef];
       extraRhs := extraRhs current ++ [Z2double ceilVal];
       extraTypes := extraTypes current ++ [2];
       bound := obj; q_parentId := currentNodeId;
       branchInfo := "x" +:+ to_string (varIdx + 1) +:+ " >= " +:+ to_string ceilVal;
       q_depth := q_depth current + 1 |} ].

(** Registering the node of a queue item of positive depth. *)
Definition registerNode (b : t) (current : QueueItem) (currentNodeId : Z)
    (sol : list double) (obj : double) : t :=
  let nd := set_result (TreeNode_new currentNodeId (q_parentId current)
                          (branchInfo current) (q_depth current)) sol obj in
  let b1 := put_node b currentNodeId nd in
  let parent := node b1 (q_parentId current) in
  if leftChild parent =? -1
  then put_node b1 (q_parentId current) (set_leftChild parent currentNodeId)
  else put_node b1 (q_parentId current) (set_rightChild parent currentNodeId).

(** Recording a new incumbent. *)
Definition updateBest (b : t) (currentNodeId : Z) (sol : list double)
    (obj : double) : t :=
  let b1 := with_best b sol obj in
  let b2 := with_optimalPath b1
              (tracePath (S (Z.to_nat currentNodeId)) b1 currentNodeId []) in
  markOptimal b2.

(** What one pass of the main loop does with the item it selected, once
    the relaxation is solved and the node registered. *)
Definition processNode (b : t) (queue : list QueueItem) (counter : Z)
    (current : QueueItem) (currentNodeId : Z)
    (sol : list double) (obj : double) : loop_state :=
  match sol with
  | [] => mkLoop (assign_status b currentNodeId "INFEASIBLE") queue counter
  | _ =>
      let prune :=
        if isMaximization b && fle obj (bestObjValue b) then true
        else if negb (isMaximization b) && fge obj (bestObjValue b) then true
        else false in
      if prune then mkLoop (assign_status b currentNodeId "PRUNED") queue counter
      else if isIntegerSolution b sol then
        let b1 := assign_status b currentNodeId "INTEGER" in
        let updateBestFlag :=
          if isMaximization b1 && fgt obj (bestObjValue b1) then true
          else if negb (isMaximization b1) && flt obj (bestObjValue b1) then true
          else false in
        mkLoop (if updateBestFlag then updateBest b1 currentNodeId sol obj else b1)
               queue counter
      else
        let b1 := assign_status b currentNodeId "BRANCHED" in
        mkLoop b1 (queue ++ children b current currentNodeId sol obj) counter
  end.

(** One pass of [while (!queue.empty())]; the queue is non-empty. *)
Definition iterate (st : loop_state) : loop_state :=
  let b := with_iteration (l_obj st) (iteration (l_obj st) + 1) in
  let sorted := if isMaximization b then sort bound_gt (l_queue st)
                else sort bound_lt (l_queue st) in
  match sorted with
  | [] => mkLoop b [] (l_counter st)
  | current :: queue =>
      if (q_depth current =? 0) && (1 <? iteration b)
      then mkLoop b queue (l_counter st)
      else
        let '(sol, obj) :=
          solveSubproblem b (extraCons current) (extraRhs current)
            (extraTypes current) [] 0%float in
        if 0 <? q_depth current then
          let counter := l_counter st + 1 in
          processNode (registerNode b current counter sol obj)
            queue counter current counter sol obj
        else
          processNode b queue (l_counter st) current 0 sol obj
  end.

(** The main loop, at most [fuel] passes; [None] when the queue is still
    non-empty after them. *)
Fixpoint mainLoop (fuel : nat) (st : loop_state) : option loop_state :=
  match l_queue st with
  | [] => Some st
  | _ =>
      match fuel with
      | O => None
      | S k => mainLoop k (iterate st)
      end
  end.

(** The part of [solve] before the main loop: either the call returns
    ([inl]) or the loop starts from the state given ([inr]). *)
Definition solveRoot (b : t) : t + loop_state :=
  let '(rootSol, rootObj) := solveSubproblem b [] [] [] [] 0%float in
  let root := set_result (TreeNode_new 0 (-1) "ROOT" 0) rootSol rootObj in
  let b1 := put_node b 0 root in
  match rootSol with
  | [] => inl (assign_status b1 0 "INFEASIBLE")
  | _ =>
      if isIntegerSolution b1 rootSol then
        let b2 := assign_status b1 0 "INTEGER" in
        let b3 := put_node b2 0 (set_isOptimal (node b2 0) true) in
        let b4 := with_best b3 rootSol rootObj in
        inl (with_optimalPath b4 (optimalPath b4 ++ [0]))
      else
        let b2 := assign_status b1 0 "BRANCHED" in
        let b3 := with_best b2 (bestSolution b2)
                    (if isMaximization b2 then (-1e30)%float else 1e30%float) in
        let initial := {| extraCons := []; extraRhs := []; extraTypes := [];
                          bound := rootObj; q_parentId := 0;
                          branchInfo := EmptyString; q_depth := 0 |} in
        inr (mkLoop b3 [initial] 0)
  end.

(** [solve()]: [None] when the main loop needs more than [fuel] passes. *)
Definition solve (fuel : nat) (b : t) : option t :=
  match solveRoot b with
  | inl b' => Some b'
  | inr st => l_obj <$> mainLoop fuel st
  end.

(** One node as [drawNodeRecursive] prints it: the text in front of the
    marker ([prefix] and connector), the marker, the id, the label, the
    relaxation when the node stores one, the status, and the prefix of the
    lines that follow the first. *)
Record drawn := mkDrawn {
  d_front : string;
  d_marker : string;
  d_id : Z;
  d_info : string;
  d_solution : option (list double * double);
  d_status : string;
  d_newPrefix : string
}.

Definition marker (nd : TreeNode) : string :=
  if isOptimal nd then "[*]"
  else if String.eqb (status nd) "INTEGER" then "[I]"
  else if String.eqb (status nd) "PRUNED" then "[P]"
  else if String.eqb (status nd) "INFEASIBLE" then "[X]"
  else if String.eqb (status nd) "BRANCHED" then "[B]"
  else "[ ]".

(** The block printed for one node. *)
Definition drawNode (b : t) (nodeId : Z) (nd : TreeNode) (prefix : string)
    (isLast : bool) : drawn :=
  let connector :=
    if n_depth nd =? 0 then EmptyString
    else if isLast then "`-- " else "|-- " in
  let newPrefix :=
    if n_depth nd =? 0 then EmptyString
    else prefix +:+ (if isLast then "    " else "|   ") in
  let info :=
    if n_depth nd =? 0 then "ROOT NODE (LP Relaxation)" else branchConstraint nd in
  {| d_front := prefix +:+ connector;
     d_marker := marker nd;
     d_id := nodeId;
     d_info := info;
     d_solution :=
       match solution nd with
       | [] => None
       | _ =>
           Some (for_loop 0 (numVariables b)
                   (fun i acc => acc ++ [getZ 0%float (solution nd) i]) [],
                 objValue nd)
       end;
     d_status := status nd;
     d_newPrefix := newPrefix |}.

(** The children [drawNodeRecursive] descends into, in order. *)
Definition childrenOf (nd : TreeNode) : list Z :=
  (if leftChild nd =? -1 then [] else [leftChild nd])
  ++ (if rightChild nd =? -1 then [] else [rightChild nd]).

(** [drawNodeRecursive(nodeId, prefix, isLast)]: the blocks printed, in
    order; [None] when the recursion is deeper than [fuel]. *)
Fixpoint drawNodeRecursive (fuel : nat) (b : t) (nodeId : Z) (prefix : string)
    (isLast : bool) : option (list drawn) :=
  match fuel with
  | O => None
  | S k =>
      match treeNodes b !! nodeId with
      | None => Some []
      | Some nd =>
          let line := drawNode b nodeId nd prefix isLast in
          let fix each (cs : list Z) : option (list drawn) :=
            match cs with
            | [] => Some []
            | c :: cs' =>
                match drawNodeRecursive k b c (d_newPrefix line)
                        (match cs' with [] => true | _ => false end) with
                | None => None
                | Some out =>
                    match each cs' with
                    | None => None
                    | Some out' => Some (out ++ out')
                    end
                end
            end in
          match each (childrenOf nd) with
          | None => None
          | Some out => Some (line :: out)
          end
      end
  end.

(** [drawTree()], after the legend. *)
Definition drawTree (fuel : nat) (b : t) : option (list drawn) :=
  if bool_decide (treeNodes b = ∅) then Some []
  else drawNodeRecursive fuel b 0 EmptyString true.

(** [isdigit(c)] and [c - '0']. *)
Definition isdigit (c : ascii) : bool :=
  (48 <=? Z.of_N (N_of_ascii c)) && (Z.of_N (N_of_ascii c) <=? 57).

Definition digitValue (c : ascii) : Z := Z.of_N (N_of_ascii c) - 48.

(** Arithmetic of [int]: 32 bits, two's complement. *)
Definition wrap_int (x : Z) : Z := (x + 2 ^ 31) mod 2 ^ 32 - 2 ^ 31.

(** [while (pos < line.size() && !isdigit(line[pos])) pos++], on the part
    of the line from [pos] on. *)
Fixpoint skipNonDigits (rest : string) : string :=
  match rest with
  | EmptyString => EmptyString
  | String c rest' => if isdigit c then rest else skipNonDigits rest'
  end.

(** The loop that reads one number: the value and the rest of the line. *)
Fixpoint readNumber (var : Z) (rest : string) : Z * string :=
  match rest with
  | EmptyString => (var, EmptyString)
  | String c rest' =>
      if isdigit c then readNumber (wrap_int (var * 10 + digitValue c)) rest'
      else (var, rest)
  end.

(** The loop [while (pos < line.size())] of choice 2 in [getUserInput];
    every pass that does not leave the loop consumes a character, so
    [fuel] above the length of the line is never used up. *)
Fixpoint parseLoop (fuel : nat) (numVariables : Z) (rest : string)
    (integerVars : list Z) : list Z :=
  match fuel with
  | O => integerVars
  | S k =>
      match rest with
      | EmptyString => integerVars
      | _ =>
          match skipNonDigits rest with
          | EmptyString => integerVars
          | rest1 =>
              let '(var, rest2) := readNumber 0 rest1 in
              parseLoop k numVariables rest2
                (if (1 <=? var) && (var <=? numVariables)
                 then integerVars ++ [var - 1] else integerVars)
          end
      end
  end.

(** [integerVars] as choice 2 leaves it for the line typed. *)
Definition parseIntegerVars (numVariables : Z) (line : string) : list Z :=
  parseLoop (String.length line) numVariables line [].

End BranchAndBound.

(** ** Columns of the standardized tableau *)

(** First artificial column: [numVariables + numSlack + numSurplus], the
    initial value of [artificialIdx] in [createInitialTableau]. *)
Definition artificialStart (s : SimplexSolver.t) : Z :=
  let '(numSlack, numSurplus, _) :=
    SimplexSolver.countVars (SimplexSolver.constraintTypes s) in
  SimplexSolver.numVariables s + numSlack + numSurplus.

(** Row [i] of a tableau satisfies [lhs <= rhs] at the point [x]. *)
Definition satisfiesLE (coefs : list double) (r : double) (x : list double) : bool :=
  fle (for_loop 0 (sizeZ coefs)
         (fun j acc => fadd acc (fmul (getZ 0%float coefs j) (getZ 0%float x j)))
         0%float) r.

(** ** Inputs used below *)

(** maximize 5 x1 + 4 x2, x1 + x2 <= 5, 10 x1 + 6 x2 <= 45, both integer. *)
Definition ilp_scenario : BranchAndBound.t :=
  BranchAndBound.new [5; 4]%float [[1; 1]; [10; 6]]%float [5; 45]%float
    [1; 1] true [0; 1].

(** maximize x1, x1 >= 0, integer. *)
Definition unbounded_scenario : BranchAndBound.t :=
  BranchAndBound.new [1]%float [[1]]%float [0]%float [2] true [0].

(** maximize x1, x1 >= 5, x1 <= 2, integer: no feasible point. *)
Definition infeasible_scenario : BranchAndBound.t :=
  BranchAndBound.new [1]%float [[1]; [1]]%float [5; 2]%float [2; 1] true [0].

(** The same constraints entered in the other order. *)
Definition infeasible_scenario_le_first : BranchAndBound.t :=
  BranchAndBound.new [1]%float [[1]; [1]]%float [2; 5]%float [1; 2] true [0].

(** maximize -x1, -x1 <= -2 (that is x1 >= 2), integer. *)
Definition negative_rhs_scenario : BranchAndBound.t :=
  BranchAndBound.new [-1]%float [[-1]]%float [-2]%float [1] true [0].

(** maximize x1, x1 <= 2, integer: the root relaxation is integral. *)
Definition integral_root_scenario : BranchAndBound.t :=
  BranchAndBound.new [1]%float [[1]]%float [2]%float [1] true [0].

(** The Klee-Minty cube of dimension 7:
    maximize sum_j 2^(7-j) x_j, sum_(j<i) 2^(i-j+1) x_j + x_i <= 5^i. *)
Definition klee_minty_objective : list double :=
  [64; 32; 16; 8; 4; 2; 1]%float.

Definition klee_minty_constraints : list (list double) :=
  [ [1; 0; 0; 0; 0; 0; 0];
    [4; 1; 0; 0; 0; 0; 0];
    [8; 4; 1; 0; 0; 0; 0];
    [16; 8; 4; 1; 0; 0; 0];
    [32; 16; 8; 4; 1; 0; 0];
    [64; 32; 16; 8; 4; 1; 0];
    [128; 64; 32; 16; 8; 4; 1] ]%float.

Definition klee_minty_rhs : list double :=
  [5; 25; 125; 625; 3125; 15625; 78125]%float.

Definition klee_minty_solver : SimplexSolver.t :=
  SimplexSolver.new klee_minty_objective klee_minty_constraints klee_minty_rhs
    [1; 1; 1; 1; 1; 1; 1] true.

Definition klee_minty_scenario : BranchAndBound.t :=
  BranchAndBound.new klee_minty_objective klee_minty_constraints klee_minty_rhs
    [1; 1; 1; 1; 1; 1; 1] true [0; 1; 2; 3; 4; 5; 6].

(** What a finished search exposes: incumbent, objective, the figures
    printed, the root's status and the history of status writes. *)
Definition summary (b : BranchAndBound.t)
  : list double * double * option BranchAndBound.report * string
    * list (Z * string) :=
  (BranchAndBound.bestSolution b, BranchAndBound.bestObjValue b,
   BranchAndBound.displayFinalSolution b,
   status (BranchAndBound.node b 0), BranchAndBound.statusLog b).

(** maximize 18 x1 + 14 x2 + 8 x3 + 4 x4 subject to
    15 x1 + 12 x2 + 7 x3 + 4 x4 <= 37 and x_i <= 1, all integer. *)
Definition binary_scenario : BranchAndBound.t :=
  BranchAndBound.new [18; 14; 8; 4]%float
    [[15; 12; 7; 4]; [1; 0; 0; 0]; [0; 1; 0; 0]; [0; 0; 1; 0]; [0; 0; 0; 1]]%float
    [37; 1; 1; 1; 1]%float [1; 1; 1; 1; 1] true [0; 1; 2; 3].

(** The state in which the main loop of a search starts, when it does. *)
Definition loopStart (b : BranchAndBound.t) : BranchAndBound.loop_state :=
  match BranchAndBound.solveRoot b with
  | inr st => st
  | inl b' => BranchAndBound.mkLoop b' [] 0
  end.

(** ** Vocabulary of the statements *)

(** Two objects hold the same problem: the fields [solveSubproblem] hands
    to the solver agree, whatever the search fields contain. *)
Definition same_problem (b1 b2 : BranchAndBound.t) : Prop :=
  BranchAndBound.objective b1 = BranchAndBound.objective b2
  /\ BranchAndBound.constraints b1 = BranchAndBound.constraints b2
  /\ BranchAndBound.rhs b1 = BranchAndBound.rhs b2
  /\ BranchAndBound.constraintTypes b1 = BranchAndBound.constraintTypes b2
  /\ BranchAndBound.isMaximization b1 = BranchAndBound.isMaximization b2.

(** Every index of [integerVars] names a variable; [getUserInput] only
    stores such indices. *)
Definition integerVars_valid (b : BranchAndBound.t) : Prop :=
  Forall (fun idx => 0 <= idx < BranchAndBound.numVariables b)
         (BranchAndBound.integerVars b).

(** Number of assignments made so far to the status of node [id]. *)
Definition assignments (b : BranchAndBound.t) (id : Z) : nat :=
  length (filter (fun e : Z * string => e.1 = id) (BranchAndBound.statusLog b)).

(** The four values a status is ever assigned. *)
Definition terminal (st : string) : Prop :=
  st ∈ ["INFEASIBLE"; "PRUNED"; "INTEGER"; "BRANCHED"]%string.

(** The item the next pass of the main loop selects, and the rest of the
    queue after the sort. *)
Definition sortedQueue (st : BranchAndBound.loop_state) : list QueueItem :=
  if BranchAndBound.isMaximization (BranchAndBound.l_obj st)
  then sort BranchAndBound.bound_gt (BranchAndBound.l_queue st)
  else sort BranchAndBound.bound_lt (BranchAndBound.l_queue st).

(** The solver object reached at an exit of the pivoting loop. *)
Definition exitState (e : SimplexSolver.loop_exit) : SimplexSolver.t :=
  match e with
  | SimplexSolver.Optimal s => s
  | SimplexSolver.NoPivotRow s => s
  | SimplexSolver.Exhausted s => s
  end.

Definition exitMap (f : SimplexSolver.t -> SimplexSolver.t)
    (e : SimplexSolver.loop_exit) : SimplexSolver.loop_exit :=
  match e with
  | SimplexSolver.Optimal s => SimplexSolver.Optimal (f s)
  | SimplexSolver.NoPivotRow s => SimplexSolver.NoPivotRow (f s)
  | SimplexSolver.Exhausted s => SimplexSolver.Exhausted (f s)
  end.

(** Two solver objects agree on everything but the tableau, the name
    table and the basis: same problem data, same flags. *)
Definition sameFrame (s s' : SimplexSolver.t) : Prop :=
  SimplexSolver.with_tableau s' [] [] [] = SimplexSolver.with_tableau s [] [] [].

(** ** Vocabulary of the pivot rules *)

(** The test of [findPivotColumn] for an objective-row entry [x] against
    the running best [m]: [x < m - EPSILON] when maximizing,
    [x > m + EPSILON] when minimizing. *)
Definition improves (s : SimplexSolver.t) (x m : double) : bool :=
  if SimplexSolver.isMaximization s then flt x (fsub m EPSILON)
  else fgt x (fadd m EPSILON).

(** [tableau.back()[j]] *)
Definition objectiveEntry (s : SimplexSolver.t) (j : Z) : double :=
  getZ 0%float (back [] (SimplexSolver.tableau s)) j.

(** The columns [findPivotColumn] scans: all but the last of row 0. *)
Definition pivotColumns (s : SimplexSolver.t) : Z :=
  sizeZ (getZ [] (SimplexSolver.tableau s) 0) - 1.

(** The rows [findPivotRow] scans: all but the objective row. *)
Definition pivotRows (s : SimplexSolver.t) : Z :=
  sizeZ (SimplexSolver.tableau s) - 1.

(** [tableau[i].back() / tableau[i][pivotCol]] *)
Definition ratio (s : SimplexSolver.t) (pivotCol i : Z) : double :=
  fdiv (back 0%float (getZ [] (SimplexSolver.tableau s) i))
       (get2 (SimplexSolver.tableau s) i pivotCol).

(** Every row of a matrix has [cols] entries and there are [rows] rows. *)
Definition hasShape (m : list (list double)) (rows cols : Z) : Prop :=
  sizeZ m = rows /\ Forall (fun row => sizeZ row = cols) m.

(** Number of columns of the standardized tableau without the right-hand
    side: [totalVars] of [createInitialTableau]. *)
Definition totalVars (s : SimplexSolver.t) : Z :=
  let '(numSlack, numSurplus, numArtificial) :=
    SimplexSolver.countVars (SimplexSolver.constraintTypes s) in
  SimplexSolver.numVariables s + numSlack + numSurplus + numArtificial.

(** ** Vocabulary of the search *)

(** A number that is not NaN: it compares equal to itself. *)
Definition notNaN (x : double) : Prop := PrimFloat.is_nan x = false.

(** The comparator the main loop sorts the queue with. *)
Definition queueOrder (b : BranchAndBound.t) : QueueItem -> QueueItem -> bool :=
  if BranchAndBound.isMaximization b then BranchAndBound.bound_gt
  else BranchAndBound.bound_lt.

(** The row [coef] of a branching constraint on variable [varIdx]. *)
Definition unitRow (b : BranchAndBound.t) (varIdx : Z) : list double :=
  setZ (replicate (Z.to_nat (BranchAndBound.numVariables b)) 0%float) varIdx 1%float.

(** The bound check of the main loop: the relaxation objective is not
    strictly better than the incumbent's. *)
Definition bounded (b : BranchAndBound.t) (obj : double) : bool :=
  if BranchAndBound.isMaximization b then fle obj (BranchAndBound.bestObjValue b)
  else fge obj (BranchAndBound.bestObjValue b).

(** The test before an incumbent is replaced: strictly better. *)
Definition improved (b : BranchAndBound.t) (obj : double) : bool :=
  if BranchAndBound.isMaximization b then fgt obj (BranchAndBound.bestObjValue b)
  else flt obj (BranchAndBound.bestObjValue b).

(** Number of entries of a status history that concern node [id]. *)
Definition countId (log : list (Z * string)) (id : Z) : nat :=
  length (filter (fun e : Z * string => e.1 = id) log).

(** The bookkeeping of the main loop: node ids are 0 .. nodeCounter, the
    status of every node but the root has been written once, the root's
    once before the loop and once more in the first pass, and only the
    initial queue item has depth 0. *)
Record logDiscipline (st : BranchAndBound.loop_state) : Prop := {
  ld_iteration : 0 <= BranchAndBound.iteration (BranchAndBound.l_obj st);
  ld_counter : 0 <= BranchAndBound.l_counter st;
  ld_dom : forall id,
    is_Some (BranchAndBound.treeNodes (BranchAndBound.l_obj st) !! id)
    <-> 0 <= id <= BranchAndBound.l_counter st;
  ld_once : forall id,
    1 <= id <= BranchAndBound.l_counter st ->
    assignments (BranchAndBound.l_obj st) id = 1%nat;
  ld_root :
    assignments (BranchAndBound.l_obj st) 0
    = if BranchAndBound.iteration (BranchAndBound.l_obj st) =? 0
      then 1%nat else 2%nat;
  ld_none : forall id,
    ~ (0 <= id <= BranchAndBound.l_counter st) ->
    assignments (BranchAndBound.l_obj st) id = 0%nat;
  ld_terminal :
    Forall (fun e : Z * string => terminal e.2)
           (BranchAndBound.statusLog (BranchAndBound.l_obj st));
  ld_first :
    head (BranchAndBound.statusLog (BranchAndBound.l_obj st))
    = Some (0, "BRANCHED"%string);
  ld_parents :
    Forall (fun item => 0 <= q_parentId item <= BranchAndBound.l_counter st)
           (BranchAndBound.l_queue st);
  ld_depths :
    if BranchAndBound.iteration (BranchAndBound.l_obj st) =? 0
    then BranchAndBound.l_counter st = 0
         /\ exists item, BranchAndBound.l_queue st = [item] /\ q_depth item = 0
    else Forall (fun item => 1 <= q_depth item) (BranchAndBound.l_queue st)
}.

(** The root node as [solve] first stores it. *)
Definition rootNode (rootSol : list double) (rootObj : double) : TreeNode :=
  set_result (TreeNode_new 0 (-1) "ROOT" 0) rootSol rootObj.

(** The queue item that seeds the main loop. *)
Definition initialItem (rootObj : double) : QueueItem :=
  {| extraCons := []; extraRhs := []; extraTypes := [];
     bound := rootObj; q_parentId := 0;
     branchInfo := EmptyString; q_depth := 0 |}.

(** ** Vocabulary of the tree *)

(** What of a node matters for the structure of the tree: everything but
    the stored relaxation, the label and the [isOptimal] mark. *)
Record shape := mkShape {
  s_id : Z;
  s_parent : Z;
  s_depth : Z;
  s_status : string;
  s_left : Z;
  s_right : Z
}.

Definition shapeOf (n : TreeNode) : shape :=
  mkShape (nodeId n) (n_parentId n) (n_depth n) (status n)
          (leftChild n) (rightChild n).

Definition shapes (b : BranchAndBound.t) : gmap Z shape :=
  shapeOf <$> BranchAndBound.treeNodes b.

Definition withStatus (sh : shape) (st : string) : shape :=
  mkShape (s_id sh) (s_parent sh) (s_depth sh) st (s_left sh) (s_right sh).

(** The link made by [registerNode]: the first child goes left, any later
    one right. *)
Definition addChild (sh : shape) (c : Z) : shape :=
  if s_left sh =? -1
  then mkShape (s_id sh) (s_parent sh) (s_depth sh) (s_status sh) c (s_right sh)
  else mkShape (s_id sh) (s_parent sh) (s_depth sh) (s_status sh) (s_left sh) c.

(** Number of child links a node holds. *)
Definition slots (sh : shape) : nat :=
  ((if decide (s_left sh = (-1)%Z) then 0 else 1)
   + (if decide (s_right sh = (-1)%Z) then 0 else 1))%nat.

(** Number of queued items that will become children of node [id]. *)
Definition pending (q : list QueueItem) (id : Z) : nat :=
  length (filter (fun item => q_parentId item = id /\ 1 <= q_depth item) q).

(** The structure the main loop keeps: ids, parents and depths are
    consistent, child links point to registered children, and a branched
    node has two children, registered or still queued. *)
Record treeShape (st : BranchAndBound.loop_state) : Prop := {
  ts_node : forall id sh,
    shapes (BranchAndBound.l_obj st) !! id = Some sh ->
    s_id sh = id /\ -1 <= s_parent sh < id
    /\ (id = 0 -> s_parent sh = -1 /\ s_depth sh = 0)
    /\ (1 <= id ->
        0 <= s_parent sh
        /\ exists shp,
             shapes (BranchAndBound.l_obj st) !! s_parent sh = Some shp
             /\ s_depth sh = s_depth shp + 1
             /\ s_status shp = "BRANCHED"%string
             /\ (s_left shp = id \/ s_right shp = id));
  ts_two : forall id sh,
    shapes (BranchAndBound.l_obj st) !! id = Some sh ->
    (slots sh + pending (BranchAndBound.l_queue st) id)%nat
    = (if decide (s_status sh = "BRANCHED"%string
                  /\ (id = 0 ->
                      BranchAndBound.iteration (BranchAndBound.l_obj st) <> 0))
       then 2%nat else 0%nat)
    /\ (s_right sh <> -1 -> s_left sh <> -1)
    /\ (s_left sh <> -1 -> s_left sh <> s_right sh);
  ts_links : forall id sh c,
    shapes (BranchAndBound.l_obj st) !! id = Some sh ->
    s_left sh = c \/ s_right sh = c ->
    c <> -1 ->
    id < c
    /\ exists shc,
         shapes (BranchAndBound.l_obj st) !! c = Some shc /\ s_parent shc = id;
  ts_queue : Forall (fun item =>
                1 <= q_depth item ->
                exists shp,
                  shapes (BranchAndBound.l_obj st) !! q_parentId item = Some shp
                  /\ q_depth item = s_depth shp + 1
                  /\ s_status shp = "BRANCHED"%string)
             (BranchAndBound.l_queue st)
}.

(** The object the pure-ILP scenario leaves after its 11 passes. *)
Definition ilp_result : BranchAndBound.t :=
  default ilp_scenario (BranchAndBound.solve 11 ilp_scenario).

(** The state of the main loop after [k] passes. *)
Definition afterPasses (k : nat) (st : BranchAndBound.loop_state)
  : BranchAndBound.loop_state :=
  Nat.iter k BranchAndBound.iterate st.

(** ** Vocabulary of the optimal path *)

(** [path] follows parent links downwards: the parent of its first entry is
    [prev], the parent of every later entry is the entry before it. *)
Fixpoint chain (b : BranchAndBound.t) (prev : Z) (path : list Z) : Prop :=
  match path with
  | [] => True
  | x :: rest =>
      n_parentId (BranchAndBound.node b x) = prev /\ chain b x rest
  end.

(** [n'] is [n] up to its child links. *)
Definition sameCore (n n' : TreeNode) : Prop :=
  n_parentId n' = n_parentId n /\ status n' = status n
  /\ solution n' = solution n /\ objValue n' = objValue n
  /\ isOptimal n' = isOptimal n.

(** What the main loop keeps of the incumbent and its path: the marks
    [isOptimal] are those of [optimalPath]; the path is empty as long as
    there is no incumbent, and otherwise leads from the root to the node
    whose relaxation is the incumbent. *)
Record pathInv (st : BranchAndBound.loop_state) : Prop := {
  pi_first :
    BranchAndBound.iteration (BranchAndBound.l_obj st) = 0 ->
    BranchAndBound.optimalPath (BranchAndBound.l_obj st) = []
    /\ (exists item,
          BranchAndBound.l_queue st = [item]
          /\ extraCons item = [] /\ extraRhs item = [] /\ extraTypes item = [])
    /\ BranchAndBound.isIntegerSolution (BranchAndBound.l_obj st)
         (BranchAndBound.solveSubproblem (BranchAndBound.l_obj st)
            [] [] [] [] 0%float).1 = false;
  pi_marks : forall id nd,
    BranchAndBound.treeNodes (BranchAndBound.l_obj st) !! id = Some nd ->
    isOptimal nd
    = bool_decide (id ∈ BranchAndBound.optimalPath (BranchAndBound.l_obj st));
  pi_dom :
    Forall (fun id =>
              is_Some (BranchAndBound.treeNodes (BranchAndBound.l_obj st) !! id))
           (BranchAndBound.optimalPath (BranchAndBound.l_obj st));
  pi_path :
    match last (BranchAndBound.optimalPath (BranchAndBound.l_obj st)) with
    | None => BranchAndBound.bestSolution (BranchAndBound.l_obj st) = []
    | Some l =>
        chain (BranchAndBound.l_obj st) (-1)
              (BranchAndBound.optimalPath (BranchAndBound.l_obj st))
        /\ exists nd,
             BranchAndBound.treeNodes (BranchAndBound.l_obj st) !! l = Some nd
             /\ status nd = "INTEGER"%string
             /\ solution nd = BranchAndBound.bestSolution (BranchAndBound.l_obj st)
             /\ objValue nd = BranchAndBound.bestObjValue (BranchAndBound.l_obj st)
             /\ BranchAndBound.bestSolution (BranchAndBound.l_obj st) <> []
    end
}.

(** ** Vocabulary of the subproblems *)

(** The branch constraints a queue item carries for the problem of [b0]:
    one row, one right-hand side and one type per level of depth; every
    row is the unit row of an integer variable, every right-hand side an
    integer, every type <= (1) or >= (2). *)
Definition branchItem (b0 : BranchAndBound.t) (item : QueueItem) : Prop :=
  sizeZ (extraCons item) = q_depth item
  /\ sizeZ (extraRhs item) = q_depth item
  /\ sizeZ (extraTypes item) = q_depth item
  /\ Forall (fun row => exists varIdx,
                 varIdx ∈ BranchAndBound.integerVars b0
                 /\ row = unitRow b0 varIdx)
            (extraCons item)
  /\ Forall (fun x => exists z : Z, x = Z2double z) (extraRhs item)
  /\ Forall (fun ty => ty = 1 \/ ty = 2) (extraTypes item).

(** [b] holds the input of [b0]: the problem and the integer variables. *)
Definition sameInput (b b0 : BranchAndBound.t) : Prop :=
  same_problem b b0
  /\ BranchAndBound.numVariables b = BranchAndBound.numVariables b0
  /\ BranchAndBound.integerVars b = BranchAndBound.integerVars b0.

Definition queueInv (b0 : BranchAndBound.t) (st : BranchAndBound.loop_state)
  : Prop :=
  sameInput (BranchAndBound.l_obj st) b0
  /\ Forall (branchItem b0) (BranchAndBound.l_queue st).

(** ** Vocabulary of the drawing *)

(** The ids [drawNodeRecursive] visits from [id], in order. *)
Fixpoint visit (fuel : nat) (b : BranchAndBound.t) (id : Z) : option (list Z) :=
  match fuel with
  | O => None
  | S k =>
      match BranchAndBound.treeNodes b !! id with
      | None => Some []
      | Some nd =>
          match (if leftChild nd =? -1 then Some []
                 else visit k b (leftChild nd)) with
          | None => None
          | Some l =>
              match (if rightChild nd =? -1 then Some []
                     else visit k b (rightChild nd)) with
              | None => None
              | Some r => Some (id :: l ++ r)
              end
          end
      end
  end.

(** [m] steps up the parent links from [x]. *)
Definition up (b : BranchAndBound.t) (m : nat) (x : Z) : Z :=
  Nat.iter m (fun y => n_parentId (BranchAndBound.node b y)) x.

(** What the drawing needs of the tree: the nodes are 0 .. n, every node
    but the root hangs under a parent with a smaller id, links lead to
    children with larger ids, and the two links of a node differ. *)
Record drawable (b : BranchAndBound.t) (n : Z) : Prop := {
  dr_dom : forall id,
    is_Some (BranchAndBound.treeNodes b !! id) <-> 0 <= id <= n;
  dr_root : forall nd,
    BranchAndBound.treeNodes b !! 0 = Some nd -> n_parentId nd = -1;
  dr_parent : forall id nd,
    BranchAndBound.treeNodes b !! id = Some nd -> 1 <= id ->
    0 <= n_parentId nd < id
    /\ exists pn,
         BranchAndBound.treeNodes b !! n_parentId nd = Some pn
         /\ (leftChild pn = id \/ rightChild pn = id);
  dr_links : forall id nd c,
    BranchAndBound.treeNodes b !! id = Some nd ->
    leftChild nd = c \/ rightChild nd = c -> c <> -1 ->
    id < c
    /\ exists cn, BranchAndBound.treeNodes b !! c = Some cn /\ n_parentId cn = id;
  dr_distinct : forall id nd,
    BranchAndBound.treeNodes b !! id = Some nd ->
    leftChild nd <> -1 -> leftChild nd <> rightChild nd
}.

(** ** Vocabulary of the input *)

(** The variables [idxs] as the prompt asks for them: their numbers,
    separated by single spaces. *)
Fixpoint joinVars (idxs : list Z) : string :=
  match idxs with
  | [] => EmptyString
  | [i] => to_string (i + 1)
  | i :: rest => to_string (i + 1) +:+ " " +:+ joinVars rest
  end.

(** ** Vocabulary of the node statuses *)

(** The status of a node agrees with the relaxation stored in it. *)
Definition classified (b : BranchAndBound.t) (nd : TreeNode) : Prop :=
  terminal (status nd)
  /\ (status nd = "INFEASIBLE"%string -> solution nd = [])
  /\ (status nd <> "INFEASIBLE"%string -> solution nd <> [])
  /\ (status nd = "INTEGER"%string ->
      BranchAndBound.isIntegerSolution b (solution nd) = true)
  /\ (status nd = "BRANCHED"%string ->
      BranchAndBound.isIntegerSolution b (solution nd) = false).

(** An integer node is not strictly better than the incumbent. *)
Definition notBetter (b : BranchAndBound.t) (nd : TreeNode) : Prop :=
  status nd = "INTEGER"%string -> improved b (objValue nd) = false.

Record nodeInv (st : BranchAndBound.loop_state) : Prop := {
  ni_first :
    BranchAndBound.iteration (BranchAndBound.l_obj st) = 0 ->
    (exists item,
       BranchAndBound.l_queue st = [item]
       /\ extraCons item = [] /\ extraRhs item = [] /\ extraTypes item = [])
    /\ exists nd0,
         BranchAndBound.treeNodes (BranchAndBound.l_obj st) !! 0 = Some nd0
         /\ status nd0 = "BRANCHED"%string
         /\ BranchAndBound.solveSubproblem (BranchAndBound.l_obj st)
              [] [] [] [] 0%float
            = (solution nd0, objValue nd0);
  ni_nodes : forall id nd,
    BranchAndBound.treeNodes (BranchAndBound.l_obj st) !! id = Some nd ->
    classified (BranchAndBound.l_obj st) nd
    /\ notBetter (BranchAndBound.l_obj st) nd
}.



(** Every queued item carries the relaxation objective stored at the node
    it names as parent (the root item names the root itself). *)
Definition boundInv (st : BranchAndBound.loop_state) : Prop :=
  Forall (fun item =>
            exists pn,
              BranchAndBound.treeNodes (BranchAndBound.l_obj st) !! q_parentId item
              = Some pn
              /\ bound item = objValue pn)
         (BranchAndBound.l_queue st).

(** * Properties *)

Section Fuel.
Import BranchAndBound.

(** More passes than needed change nothing. *)
Lemma mainLoop_more_fuel (k n : nat) (st r : loop_state) :
  mainLoop k st = Some r -> mainLoop (k + n) st = Some r.
Proof.
  revert st. induction k as [|k IH]; intros st H.
  - simpl in H. destruct (l_queue st) eqn:Hq; [|discriminate].
    destruct n; simpl; rewrite Hq; exact H.
  - simpl in *. destruct (l_queue st); [exact H|]. apply IH, H.
Qed.

Lemma solve_more_fuel (k n : nat) (b r : t) :
  solve k b = Some r -> solve (k + n) b = Some r.
Proof.
  unfold solve. destruct (solveRoot b) as [b'|st]; [trivial|].
  destruct (mainLoop k st) as [r'|] eqn:H; [|discriminate].
  intros [= <-]. by rewrite (mainLoop_more_fuel _ n _ _ H).
Qed.

End Fuel.

(** C1.  On the pure-ILP scenario (maximize 5 x1 + 4 x2 subject to
    x1 + x2 <= 5 and 10 x1 + 6 x2 <= 45, both variables integer) the search
    finishes after 11 passes of the main loop, whatever the budget above
    that; the incumbent is x1 = 3, x2 = 2 with objective 23, and
    [displayFinalSolution] prints exactly these figures as the optimal
    integer solution. *)
Theorem ilp_scenario_optimum (extra : nat) :
  (fun b => (BranchAndBound.bestSolution b, BranchAndBound.bestObjValue b,
             BranchAndBound.optimalPath b,
             BranchAndBound.displayFinalSolution b))
    <$> BranchAndBound.solve (11 + extra) ilp_scenario
  = Some ([3; 2]%float, 23%float, [0; 1],
          Some {| BranchAndBound.r_nodes := 11;
                  BranchAndBound.r_iterations := 11;
                  BranchAndBound.r_vars := [inl 3; inl 2];
                  BranchAndBound.r_Z := 23%float |}).
Proof.
  destruct (BranchAndBound.solve 11 ilp_scenario) as [b|] eqn:H;
    [|vm_compute in H; discriminate].
  rewrite (solve_more_fuel _ extra _ _ H).
  assert (Some b = BranchAndBound.solve 11 ilp_scenario) as Hb by (symmetry; exact H).
  clear H. vm_compute in Hb. injection Hb as ->. vm_compute. reflexivity.
Qed.

(** C2.  [createInitialTableau] copies every right-hand side as it is.  For
    maximize -x1 subject to -x1 <= -2 the only constraint row of the initial
    tableau keeps its coefficient -1, its slack column (the relation is
    still <=) and the negative right-hand side -2; no pivot follows, and the
    search reports x1 = 0, which violates the constraint. *)
Theorem negative_rhs_not_normalized :
  let s := SimplexSolver.createInitialTableau
             (BranchAndBound.subproblemSolver negative_rhs_scenario [] [] []) in
  SimplexSolver.tableau s = [[-1; 1; -2]; [1; 0; 0]]%float
  /\ SimplexSolver.varNames s = ["x1"; "s1"]%string
  /\ SimplexSolver.basicVars s = [1]
  /\ flt (back 0%float (getZ [] (SimplexSolver.tableau s) 0)) 0%float = true
  /\ (forall fuel,
        summary <$> BranchAndBound.solve fuel negative_rhs_scenario
        = Some ([0]%float, 0%float,
                Some {| BranchAndBound.r_nodes := 1;
                        BranchAndBound.r_iterations := 0;
                        BranchAndBound.r_vars := [inl 0];
                        BranchAndBound.r_Z := 0%float |},
                "INTEGER"%string, [(0, "INTEGER"%string)]))
  /\ satisfiesLE [-1]%float (-2)%float [0]%float = false.
Proof.
  repeat apply conj; vm_compute; reflexivity.
Qed.

(** C3.  For maximize x1 subject to x1 >= 0 the ratio test of the second
    pivot finds no row: [SimplexSolver::solve] sets [isUnbounded], leaves
    [isFeasible] true and clears the solution.  [solveSubproblem] drops the
    solver with its flags, so [BranchAndBound::solve] sees an empty root
    solution and marks the root INFEASIBLE, exactly as it does for the
    infeasible system x1 <= 2, x1 >= 5. *)
Theorem unbounded_root_reported_infeasible :
  (let '(s, sol, obj) :=
     SimplexSolver.solve
       (BranchAndBound.subproblemSolver unbounded_scenario [] [] []) [] 0%float in
   (SimplexSolver.isUnbounded s, SimplexSolver.isFeasible s, sol))
  = (true, true, [])
  /\ (forall fuel,
        summary <$> BranchAndBound.solve fuel unbounded_scenario
        = Some ([], 0%float, None, "INFEASIBLE"%string,
                [(0, "INFEASIBLE"%string)]))
  /\ (forall fuel,
        summary <$> BranchAndBound.solve fuel infeasible_scenario_le_first
        = summary <$> BranchAndBound.solve fuel unbounded_scenario).
Proof.
  repeat apply conj; vm_compute; reflexivity.
Qed.

(** C4.  On the Klee-Minty cube of dimension 7 the pivoting loop performs
    all 100 pivots and the tableau it leaves is not optimal (column 0 still
    qualifies as pivot column).  [solve] nevertheless extracts that
    tableau's solution with objective 66825, with [isFeasible] true and
    [isUnbounded] false, and the search prints it as the optimal integer
    solution, although x7 = 78125 is feasible with objective 78125. *)
Theorem iteration_cap_accepted_as_optimal :
  (match SimplexSolver.pivotLoop SimplexSolver.maxIterations
           (SimplexSolver.createInitialTableau klee_minty_solver) with
   | SimplexSolver.Exhausted s => SimplexSolver.findPivotColumn s
   | _ => -1
   end) = 0
  /\ (let '(s, sol, obj) := SimplexSolver.solve klee_minty_solver [] 0%float in
      (SimplexSolver.isFeasible s, SimplexSolver.isUnbounded s, sol, obj))
     = (true, false, [0; 25; 25; 0; 2525; 0; 55525]%float, 66825%float)
  /\ (forall fuel,
        (fun b => (BranchAndBound.bestObjValue b, status (BranchAndBound.node b 0)))
          <$> BranchAndBound.solve fuel klee_minty_scenario
        = Some (66825%float, "INTEGER"%string))
  /\ forallb (fun i => satisfiesLE (getZ [] klee_minty_constraints i)
                         (getZ 0%float klee_minty_rhs i)
                         [0; 0; 0; 0; 0; 0; 78125]%float)
             (seqZ 0 7) = true
  /\ SimplexSolver.objectiveValue klee_minty_solver
       [0; 0; 0; 0; 0; 0; 78125]%float = 78125%float.
Proof.
  repeat apply conj; vm_compute; reflexivity.
Qed.

(** C5.  For maximize x1 subject to x1 >= 5, x1 <= 2 the pivoting loop stops
    at an optimal tableau whose row 0 is still held by column 3, the
    artificial variable of the first constraint, with value 3 > 1e-6.  The
    name table lists "e1", "a1", "s2" in constraint order while the columns
    are slack, surplus, artificial, so [varNames[3]] is "s2" and the check
    does not fire: [solve] returns x1 = 2 with objective 2 and [isFeasible]
    true, and the search prints x1 = 2 as optimal.  With the two
    constraints swapped names and columns agree and the same system is
    reported infeasible. *)
Theorem basic_artificial_not_detected :
  let s0 := BranchAndBound.subproblemSolver infeasible_scenario [] [] [] in
  (match SimplexSolver.pivotLoop SimplexSolver.maxIterations
           (SimplexSolver.createInitialTableau s0) with
   | SimplexSolver.Optimal s =>
       Some (SimplexSolver.basicVars s, artificialStart s,
             SimplexSolver.varNames s,
             back 0%float (getZ [] (SimplexSolver.tableau s) 0))
   | _ => None
   end) = Some ([3; 0], 3, ["x1"; "e1"; "a1"; "s2"]%string, 3%float)
  /\ fgt 3%float 1e-6%float = true
  /\ (let '(s, sol, obj) := SimplexSolver.solve s0 [] 0%float in
      (SimplexSolver.isFeasible s, sol, obj)) = (true, [2]%float, 2%float)
  /\ (forall fuel,
        summary <$> BranchAndBound.solve fuel infeasible_scenario
        = Some ([2]%float, 2%float,
                Some {| BranchAndBound.r_nodes := 1;
                        BranchAndBound.r_iterations := 0;
                        BranchAndBound.r_vars := [inl 2];
                        BranchAndBound.r_Z := 2%float |},
                "INTEGER"%string, [(0, "INTEGER"%string)]))
  /\ (let '(s, sol, obj) :=
        SimplexSolver.solve
          (BranchAndBound.subproblemSolver infeasible_scenario_le_first [] [] [])
          [] 0%float in
      (SimplexSolver.isFeasible s, sol)) = (false, []).
Proof.
  repeat apply conj; vm_compute; reflexivity.
Qed.

(** ** Integrality test and branching variable *)

Section Branching.
Import BranchAndBound.

Lemma isIntegerSolution_nonempty (b : t) (sol : list double) :
  sol <> [] ->
  isIntegerSolution b sol
  = forallb (fun idx => negb (fractional (getZ 0%float sol idx))) (integerVars b).
Proof. destruct sol; [congruence|reflexivity]. Qed.

Lemma find_fractional_none (sol : list double) (vars : list Z) :
  forallb (fun idx => negb (fractional (getZ 0%float sol idx))) vars = true ->
  List.find (fun idx => fractional (getZ 0%float sol idx)) vars = None.
Proof.
  induction vars as [|v vars IH]; simpl; [reflexivity|].
  intros [Hv Hrest]%andb_prop.
  apply negb_true_iff in Hv. rewrite Hv. auto.
Qed.

Lemma find_fractional_some (sol : list double) (vars : list Z) :
  forallb (fun idx => negb (fractional (getZ 0%float sol idx))) vars = false ->
  exists idx,
    List.find (fun idx => fractional (getZ 0%float sol idx)) vars = Some idx
    /\ In idx vars /\ fractional (getZ 0%float sol idx) = true.
Proof.
  induction vars as [|v vars IH]; simpl; [discriminate|].
  destruct (fractional (getZ 0%float sol v)) eqn:Hv; simpl.
  - intros _. exists v. auto.
  - intros H. destruct (IH H) as (idx & Hf & Hin & Hfr). exists idx. auto.
Qed.

Lemma getZ_setZ_same {A} (d x : A) (l : list A) (i : Z) :
  0 <= i < sizeZ l -> getZ d (setZ l i x) i = x.
Proof.
  unfold getZ, setZ, sizeZ. intros Hi.
  destruct (Z.ltb_spec i 0); [lia|].
  apply nth_lookup_Some. apply list_lookup_insert_eq. lia.
Qed.

End Branching.

(** C10.  Let every entry of [integerVars] be a variable index and let the
    solution vector be non-empty and at least [numVariables] long.  When
    [isIntegerSolution] is false, [findBranchingVariable] returns an index
    [varIdx] with 0 <= varIdx < numVariables, taken from [integerVars],
    together with that variable's fractional value, and the write
    [coef[varIdx] = 1.0] lands inside the vector of length [numVariables];
    when [isIntegerSolution] is true, [varIdx] stays -1. *)
Theorem branching_variable_in_range (b : BranchAndBound.t) (sol : list double) :
  integerVars_valid b ->
  sol <> [] ->
  BranchAndBound.numVariables b <= sizeZ sol ->
  (BranchAndBound.isIntegerSolution b sol = false ->
   let '(varIdx, fracVal) := BranchAndBound.findBranchingVariable b sol in
   0 <= varIdx < BranchAndBound.numVariables b
   /\ In varIdx (BranchAndBound.integerVars b)
   /\ fracVal = getZ 0%float sol varIdx
   /\ fractional fracVal = true
   /\ getZ 0%float
        (setZ (replicate (Z.to_nat (BranchAndBound.numVariables b)) 0%float)
              varIdx 1%float) varIdx = 1%float)
  /\ (BranchAndBound.isIntegerSolution b sol = true ->
      fst (BranchAndBound.findBranchingVariable b sol) = -1).
Proof.
  intros Hvalid Hne Hlen.
  rewrite (isIntegerSolution_nonempty b sol Hne).
  unfold BranchAndBound.findBranchingVariable. split.
  - intros Hfalse.
    destruct (find_fractional_some sol _ Hfalse) as (idx & -> & Hin & Hfr).
    assert (0 <= idx < BranchAndBound.numVariables b) as Hrange.
    { unfold integerVars_valid in Hvalid. rewrite List.Forall_forall in Hvalid.
      exact (Hvalid idx Hin). }
    repeat split; try tauto; try lia.
    apply getZ_setZ_same. unfold sizeZ. rewrite length_replicate. lia.
  - intros Htrue. by rewrite (find_fractional_none sol _ Htrue).
Qed.

(** A run of the theorem above on the root relaxation (3.75, 1.25) of the
    pure-ILP scenario: the branching variable is x1. *)
Lemma branching_variable_in_range_witness :
  let '(varIdx, fracVal) :=
    BranchAndBound.findBranchingVariable ilp_scenario [3.75; 1.25]%float in
  0 <= varIdx < BranchAndBound.numVariables ilp_scenario
  /\ In varIdx (BranchAndBound.integerVars ilp_scenario)
  /\ fracVal = getZ 0%float [3.75; 1.25]%float varIdx
  /\ fractional fracVal = true
  /\ getZ 0%float
       (setZ (replicate (Z.to_nat (BranchAndBound.numVariables ilp_scenario)) 0%float)
             varIdx 1%float) varIdx = 1%float.
Proof.
  apply (branching_variable_in_range ilp_scenario [3.75; 1.25]%float).
  - repeat constructor; vm_compute; congruence.
  - discriminate.
  - vm_compute. congruence.
  - vm_compute. reflexivity.
Defined.

(** [getUserInput] establishes the validity of [integerVars] under both of
    its choices. *)
Lemma integerVars_selected_valid (n : Z) (parsed : list Z) :
  Forall (fun idx => 0 <= idx < n) (BranchAndBound.integerVars_selected n parsed).
Proof.
  unfold BranchAndBound.integerVars_selected.
  assert (forall acc, Forall (fun idx => 0 <= idx < n) acc ->
            Forall (fun idx => 0 <= idx < n)
              (foldl (fun acc var =>
                        if (1 <=? var) && (var <=? n) then acc ++ [var - 1] else acc)
                     acc parsed)) as H.
  { induction parsed as [|v parsed IH]; intros acc Hacc; simpl; [exact Hacc|].
    apply IH. destruct (Z.leb_spec 1 v), (Z.leb_spec v n); simpl; try exact Hacc.
    apply Forall_app. split; [exact Hacc|]. repeat constructor; lia. }
  apply H. constructor.
Qed.


(** ** The root and the bound check *)

Section Search.
Import BranchAndBound.

Lemma node_put_node_eq (b : t) (id : Z) (n : TreeNode) :
  node (put_node b id n) id = n.
Proof. unfold node, put_node. simpl. by rewrite lookup_insert_eq. Qed.

Lemma node_assign_status_eq (b : t) (id : Z) (st : string) :
  node (assign_status b id st) id = set_status (node b id) st.
Proof. unfold node, assign_status, put_node. simpl. by rewrite lookup_insert_eq. Qed.

Lemma forallb_not_fractional (sol : list double) (vars : list Z) :
  Forall (fun idx => fractional (getZ 0%float sol idx) = false) vars ->
  forallb (fun idx => negb (fractional (getZ 0%float sol idx))) vars = true.
Proof.
  induction 1 as [|v vars Hv _ IH]; simpl; [reflexivity|].
  by rewrite Hv, IH.
Qed.

(** C7.  If the root relaxation has a solution and none of the variables
    listed in [integerVars] is fractional in it (the test of
    [isIntegerSolution]), then [solve] returns without a single pass of the
    main loop, whatever the budget: that solution and its objective are
    the incumbent, the root is the only node written, its status is
    INTEGER, it has no children and lies on the optimal path, and the
    iteration counter is untouched. *)
Theorem integral_root_returns (b : t) (fuel : nat) (rootSol : list double)
    (rootObj : double) :
  solveSubproblem b [] [] [] [] 0%float = (rootSol, rootObj) ->
  rootSol <> [] ->
  Forall (fun idx => fractional (getZ 0%float rootSol idx) = false)
         (integerVars b) ->
  exists b',
    solve fuel b = Some b'
    /\ bestSolution b' = rootSol
    /\ bestObjValue b' = rootObj
    /\ treeNodes b'
       = <[0 := mkTreeNode 0 (-1) "ROOT" 0 rootSol rootObj "INTEGER" (-1) (-1) true]>
           (treeNodes b)
    /\ iteration b' = iteration b
    /\ optimalPath b' = optimalPath b ++ [0]
    /\ statusLog b' = statusLog b ++ [(0, "INTEGER"%string)].
Proof.
  intros Hsolve Hne Hint.
  unfold solve, solveRoot. rewrite Hsolve.
  rewrite isIntegerSolution_nonempty by exact Hne.
  change (integerVars (put_node b 0 _)) with (integerVars b).
  rewrite (forallb_not_fractional _ _ Hint).
  destruct rootSol as [|x rootSol]; [congruence|].
  eexists. split; [reflexivity|].
  repeat split; simpl.
  rewrite node_assign_status_eq, node_put_node_eq.
  by rewrite !insert_insert_eq.
Qed.

(** A run of the theorem above: maximize x1 subject to x1 <= 2. *)
Lemma integral_root_returns_witness :
  exists b',
    solve 0 integral_root_scenario = Some b'
    /\ bestSolution b' = [2]%float
    /\ bestObjValue b' = 2%float
    /\ treeNodes b'
       = <[0 := mkTreeNode 0 (-1) "ROOT" 0 [2]%float 2%float "INTEGER" (-1) (-1) true]>
           (treeNodes integral_root_scenario)
    /\ iteration b' = iteration integral_root_scenario
    /\ optimalPath b' = optimalPath integral_root_scenario ++ [0]
    /\ statusLog b' = statusLog integral_root_scenario ++ [(0, "INTEGER"%string)].
Proof.
  apply (integral_root_returns integral_root_scenario 0 [2]%float 2%float).
  - vm_compute. reflexivity.
  - discriminate.
  - repeat constructor.
Defined.

(** [registerNode] touches nothing but the tree. *)
Lemma registerNode_frame (b : t) (current : QueueItem) (id : Z)
    (sol : list double) (obj : double) :
  let b' := registerNode b current id sol obj in
  isMaximization b' = isMaximization b
  /\ bestSolution b' = bestSolution b
  /\ bestObjValue b' = bestObjValue b
  /\ statusLog b' = statusLog b.
Proof. unfold registerNode. by destruct (leftChild _ =? -1). Qed.

(** C6.  Take any pass of the main loop that processes the item it selects
    and whose relaxation has a solution.  If the relaxation objective is
    <= the incumbent objective when maximizing, or >= it when minimizing,
    the pass writes PRUNED as the node's status (its only status write),
    pushes nothing on the queue, so the node gets no children, and leaves
    the incumbent and the node counter's meaning intact. *)
Theorem bound_check_prunes (st : loop_state) (current : QueueItem)
    (queue : list QueueItem) (sol : list double) (obj : double) :
  let b := with_iteration (l_obj st) (iteration (l_obj st) + 1) in
  let id := if 0 <? q_depth current then l_counter st + 1 else 0 in
  sortedQueue st = current :: queue ->
  (q_depth current =? 0) && (1 <? iteration b) = false ->
  solveSubproblem b (extraCons current) (extraRhs current) (extraTypes current)
    [] 0%float = (sol, obj) ->
  sol <> [] ->
  (if isMaximization b then fle obj (bestObjValue b)
   else fge obj (bestObjValue b)) = true ->
  status (node (l_obj (iterate st)) id) = "PRUNED"%string
  /\ l_queue (iterate st) = queue
  /\ statusLog (l_obj (iterate st)) = statusLog (l_obj st) ++ [(id, "PRUNED"%string)]
  /\ bestSolution (l_obj (iterate st)) = bestSolution (l_obj st)
  /\ bestObjValue (l_obj (iterate st)) = bestObjValue (l_obj st).
Proof.
  intros b id Hsort Hproc Hsolve Hne Hbound.
  unfold iterate. fold b.
  unfold sortedQueue in Hsort.
  change (isMaximization b) with (isMaximization (l_obj st)).
  rewrite Hsort, Hproc, Hsolve.
  assert (forall b0 counter,
            isMaximization b0 = isMaximization b ->
            bestObjValue b0 = bestObjValue b ->
            processNode b0 queue counter current id sol obj
            = mkLoop (assign_status b0 id "PRUNED") queue counter) as Hprune.
  { intros b0 counter Hmax Hbest. unfold processNode.
    destruct sol as [|x sol]; [congruence|].
    rewrite Hmax, Hbest. revert Hbound.
    destruct (isMaximization b); intros Hbound; simpl in Hbound |- *;
      by rewrite Hbound. }
  subst id. destruct (0 <? q_depth current).
  - destruct (registerNode_frame b current (l_counter st + 1) sol obj)
      as (Hmax & Hbs & Hbo & Hlog).
    rewrite Hprune by assumption.
    cbn [l_obj l_queue]. rewrite node_assign_status_eq.
    unfold assign_status. cbn. by rewrite Hlog, Hbs, Hbo.
  - rewrite Hprune by reflexivity.
    cbn [l_obj l_queue]. rewrite node_assign_status_eq. done.
Qed.

(** A run of the theorem above: the fourth pass on the binary scenario
    solves node 3, whose relaxation value 36 does not exceed the incumbent
    found by then. *)
Lemma bound_check_prunes_witness :
  let st := Nat.iter 3 iterate (loopStart binary_scenario) in
  status (node (l_obj (iterate st)) 3) = "PRUNED"%string
  /\ l_queue (iterate st) = tail (sortedQueue st)
  /\ statusLog (l_obj (iterate st)) = statusLog (l_obj st) ++ [(3, "PRUNED"%string)]
  /\ bestSolution (l_obj (iterate st)) = bestSolution (l_obj st)
  /\ bestObjValue (l_obj (iterate st)) = bestObjValue (l_obj st).
Proof.
  intros st.
  pose (current := default (mkQueueItem [] [] [] 0%float 0 EmptyString 0)
                     (head (sortedQueue st))).
  pose (b := with_iteration (l_obj st) (iteration (l_obj st) + 1)).
  pose (res := solveSubproblem b (extraCons current) (extraRhs current)
                 (extraTypes current) [] 0%float).
  apply (bound_check_prunes st current (tail (sortedQueue st)) res.1 res.2).
  - vm_compute. reflexivity.
  - vm_compute. reflexivity.
  - vm_compute. reflexivity.
  - vm_compute. discriminate.
  - vm_compute. reflexivity.
Defined.

End Search.

(** ** The relaxation solve carries no state *)

Section Determinism.
Import SimplexSolver.

Lemma with_flags_same (s : t) : with_flags s (isFeasible s) (isUnbounded s) = s.
Proof. by destruct s. Qed.

Lemma with_flags_twice (s : t) (f u f' u' : bool) :
  with_flags (with_flags s f u) f' u' = with_flags s f' u'.
Proof. by destruct s. Qed.

Lemma sameFrame_refl (s : t) : sameFrame s s.
Proof. reflexivity. Qed.

Lemma sameFrame_trans (s1 s2 s3 : t) :
  sameFrame s1 s2 -> sameFrame s2 s3 -> sameFrame s1 s3.
Proof. unfold sameFrame. congruence. Qed.

Lemma sameFrame_flags (s s' : t) :
  sameFrame s s' -> isFeasible s' = isFeasible s /\ isUnbounded s' = isUnbounded s.
Proof.
  unfold sameFrame. destruct s, s'. simpl. intros [=]. by subst.
Qed.

(** [createInitialTableau] rebuilds tableau, names and basis from the
    problem data alone. *)
Lemma createInitialTableau_reset (s : t) :
  createInitialTableau s = createInitialTableau (with_tableau s [] [] []).
Proof.
  destruct s. unfold createInitialTableau. simpl.
  by destruct (countVars _) as [[? ?] ?].
Qed.

Lemma createInitialTableau_frame (s s' : t) :
  sameFrame s s' -> createInitialTableau s' = createInitialTableau s.
Proof.
  intros H. rewrite (createInitialTableau_reset s), (createInitialTableau_reset s').
  by rewrite H.
Qed.

Lemma createInitialTableau_sameFrame (s : t) : sameFrame s (createInitialTableau s).
Proof.
  destruct s. unfold createInitialTableau, sameFrame. simpl.
  by destruct (countVars _) as [[? ?] ?].
Qed.

Lemma createInitialTableau_flags (s : t) (f u : bool) :
  createInitialTableau (with_flags s f u) = with_flags (createInitialTableau s) f u.
Proof.
  destruct s. unfold createInitialTableau. simpl.
  by destruct (countVars _) as [[? ?] ?].
Qed.

Lemma performPivot_sameFrame (s : t) (r c : Z) : sameFrame s (performPivot s r c).
Proof. by destruct s. Qed.

Lemma performPivot_flags (s : t) (f u : bool) (r c : Z) :
  performPivot (with_flags s f u) r c = with_flags (performPivot s r c) f u.
Proof. by destruct s. Qed.

Lemma findPivotColumn_flags (s : t) (f u : bool) :
  findPivotColumn (with_flags s f u) = findPivotColumn s.
Proof. by destruct s. Qed.

Lemma findPivotRow_flags (s : t) (f u : bool) (c : Z) :
  findPivotRow (with_flags s f u) c = findPivotRow s c.
Proof. by destruct s. Qed.

Lemma pivotLoop_flags (n : nat) (s : t) (f u : bool) :
  pivotLoop n (with_flags s f u)
  = exitMap (fun s => with_flags s f u) (pivotLoop n s).
Proof.
  revert s. induction n as [|n IH]; intros s; simpl; [reflexivity|].
  rewrite findPivotColumn_flags.
  destruct (findPivotColumn s =? -1); [reflexivity|].
  rewrite findPivotRow_flags.
  destruct (findPivotRow s (findPivotColumn s) =? -1); [reflexivity|].
  by rewrite performPivot_flags, IH.
Qed.

Lemma pivotLoop_sameFrame (n : nat) (s : t) :
  sameFrame s (exitState (pivotLoop n s)).
Proof.
  revert s. induction n as [|n IH]; intros s; simpl; [reflexivity|].
  destruct (findPivotColumn s =? -1); [reflexivity|].
  destruct (findPivotRow s (findPivotColumn s) =? -1); [reflexivity|].
  eapply sameFrame_trans; [apply performPivot_sameFrame|apply IH].
Qed.

Lemma afterLoop_flags (s : t) (f u : bool) :
  afterLoop (with_flags s f u)
  = if artificialRemains s then (with_flags s false u, [], 0%float)
    else (with_flags s f u, extractSolution s, objectiveValue s (extractSolution s)).
Proof.
  destruct s as [nv nc ob cs r ty mx tb vn bv fe un].
  unfold afterLoop, artificialRemains, artificialPositive. simpl.
  by destruct (existsb _ _).
Qed.

(** The two exits that lead to [afterLoop] behave alike on a second run. *)
Lemma solve_again_afterLoop (n : nat) (s s' : t) (exit : t -> loop_exit) :
  (exit = Optimal \/ exit = Exhausted) ->
  pivotLoop n (createInitialTableau s) = exit s' ->
  sameFrame s s' ->
  match pivotLoop n (createInitialTableau (afterLoop s').1.1) with
  | NoPivotRow s1 => (with_flags s1 (isFeasible s1) true, [], 0%float)
  | Optimal s1 => afterLoop s1
  | Exhausted s1 => afterLoop s1
  end = afterLoop s'.
Proof.
  intros Hexit He Hs.
  destruct (artificialRemains s') eqn:Hart.
  - assert (afterLoop s' = (with_flags s' false (isUnbounded s'), [], 0%float))
      as Hal by (unfold afterLoop; by rewrite Hart).
    rewrite Hal. cbn [fst].
    rewrite createInitialTableau_flags, (createInitialTableau_frame s s' Hs).
    rewrite pivotLoop_flags, He.
    destruct Hexit as [-> | ->]; cbn [exitMap];
      by rewrite afterLoop_flags, Hart.
  - assert (afterLoop s' = (s', extractSolution s',
                            objectiveValue s' (extractSolution s')))
      as Hal by (unfold afterLoop; by rewrite Hart).
    rewrite Hal. cbn [fst].
    rewrite (createInitialTableau_frame s s' Hs), He.
    by destruct Hexit as [-> | ->].
Qed.

(** Solving again on the object a solve has left behind gives the same
    object and the same outputs. *)
Lemma solve_again (s : t) (o o' : list double) (v v' : double) :
  solve (solve s o v).1.1 o' v' = solve s o v.
Proof.
  unfold solve. generalize maxIterations. intros n.
  pose proof (pivotLoop_sameFrame n (createInitialTableau s)) as Hfr.
  pose proof (sameFrame_trans _ _ _ (createInitialTableau_sameFrame s) Hfr) as Hs.
  destruct (pivotLoop n (createInitialTableau s)) as [s'|s'|s'] eqn:He;
    simpl in Hs.
  - apply (solve_again_afterLoop n s s' Optimal); auto.
  - cbn [fst].
    rewrite createInitialTableau_flags, (createInitialTableau_frame s s' Hs).
    rewrite pivotLoop_flags, He. cbn [exitMap].
    by rewrite with_flags_twice; destruct s'.
  - apply (solve_again_afterLoop n s s' Exhausted); auto.
Qed.

End Determinism.

(** * Further properties of the simplex solver *)

(** ** Counting loops *)

Section Loops.
Context {S : Type}.
Implicit Types (body : Z -> S -> S) (s : S).

Lemma for_loop_nil lo hi body s : hi <= lo -> for_loop lo hi body s = s.
Proof. intros H. unfold for_loop. by rewrite seqZ_nil by lia. Qed.

Lemma for_loop_first lo hi body s :
  lo < hi -> for_loop lo hi body s = for_loop (lo + 1) hi body (body lo s).
Proof.
  intros H. unfold for_loop. rewrite seqZ_cons by lia. simpl.
  f_equal. f_equal; lia.
Qed.

Lemma for_loop_last lo hi body s :
  lo < hi -> for_loop lo hi body s = body (hi - 1) (for_loop lo (hi - 1) body s).
Proof.
  intros H. unfold for_loop.
  replace (hi - lo) with ((hi - 1 - lo) + 1) by lia.
  rewrite seqZ_app by lia. rewrite foldl_app.
  rewrite (seqZ_cons _ 1) by lia.
  rewrite (seqZ_nil _ (Z.pred 1)) by lia. simpl.
  by replace (lo + (hi - 1 - lo)) with (hi - 1) by lia.
Qed.

(** The invariant rule of a counting loop. *)
Lemma for_loop_inv (P : Z -> S -> Prop) lo hi body s :
  lo <= hi ->
  P lo s ->
  (forall i s', lo <= i < hi -> P i s' -> P (i + 1) (body i s')) ->
  P hi (for_loop lo hi body s).
Proof.
  intros Hle Hinit Hstep.
  assert (forall n : nat, lo + Z.of_nat n <= hi ->
            P (lo + Z.of_nat n) (for_loop lo (lo + Z.of_nat n) body s)) as H.
  { induction n as [|n IH]; intros Hn.
    - rewrite Z.add_0_r, for_loop_nil by lia. exact Hinit.
    - rewrite for_loop_last by lia.
      replace (lo + Z.of_nat (Datatypes.S n) - 1) with (lo + Z.of_nat n) by lia.
      replace (lo + Z.of_nat (Datatypes.S n)) with (lo + Z.of_nat n + 1) by lia.
      apply Hstep; [lia|]. apply IH. lia. }
  specialize (H (Z.to_nat (hi - lo))).
  replace (lo + Z.of_nat (Z.to_nat (hi - lo))) with hi in H by lia.
  apply H. lia.
Qed.

Lemma for_loop_ext lo hi body body' s :
  (forall i s', lo <= i < hi -> body i s' = body' i s') ->
  for_loop lo hi body s = for_loop lo hi body' s.
Proof.
  intros Hext. destruct (Z.le_gt_cases hi lo) as [Hle|Hlt].
  - by rewrite !for_loop_nil.
  - apply (for_loop_inv (fun i r => r = for_loop lo i body' s)); [lia| |].
    + by rewrite for_loop_nil.
    + intros i s' Hi ->. rewrite (for_loop_last lo (i + 1)) by lia.
      replace (i + 1 - 1) with i by lia. by apply Hext.
Qed.

End Loops.

(** A scan that keeps the first index whose value passes [test] against the
    best value so far: the common shape of [findPivotColumn] and
    [findPivotRow]. *)
Lemma scan_best (test : Z -> double -> bool) (val : Z -> double) (n : Z)
    (init : double) :
  let r := for_loop 0 n
             (fun j '(m, idx) => if test j m then (val j, j) else (m, idx))
             (init, -1) in
  (r.2 = -1 /\ r.1 = init /\ forall j, 0 <= j < n -> test j init = false)
  \/ (0 <= r.2 < n /\ r.1 = val r.2
      /\ (exists m, test r.2 m = true)
      /\ (exists j, 0 <= j < n /\ test j init = true)
      /\ forall k, r.2 < k < n -> test k (val r.2) = false).
Proof.
  intros r. subst r. destruct (Z.le_gt_cases n 0) as [Hle|Hlt].
  { rewrite for_loop_nil by lia. left. repeat split; intros; lia. }
  apply (for_loop_inv
           (fun i r =>
              (r.2 = -1 /\ r.1 = init /\ forall j, 0 <= j < i -> test j init = false)
              \/ (0 <= r.2 < i /\ r.1 = val r.2
                  /\ (exists m, test r.2 m = true)
                  /\ (exists j, 0 <= j < i /\ test j init = true)
                  /\ forall k, r.2 < k < i -> test k (val r.2) = false)));
    [lia| |].
  - left. repeat split; intros; lia.
  - intros i [m idx] Hi IH. simpl in IH.
    destruct (test i m) eqn:Ht; simpl.
    + right. split; [lia|]. split; [reflexivity|]. split; [by exists m|]. split.
      * destruct IH as [(_ & -> & _)|(_ & _ & _ & (j & Hj & Hjt) & _)].
        -- exists i. split; [lia|exact Ht].
        -- exists j. split; [lia|exact Hjt].
      * intros; lia.
    + destruct IH as [(-> & -> & Hnone)|(Hidx & -> & Hm & (j & Hj & Hjt) & Hlater)].
      * left. split; [reflexivity|]. split; [reflexivity|]. intros j Hj.
        destruct (Z.eq_dec j i) as [->|]; [exact Ht|apply Hnone; lia].
      * right. split; [lia|]. split; [reflexivity|]. split; [exact Hm|]. split.
        -- exists j. split; [lia|exact Hjt].
        -- intros k Hk.
           destruct (Z.eq_dec k i) as [->|]; [exact Ht|apply Hlater; lia].
Qed.

Section PivotRules.
Import SimplexSolver.

Lemma findPivotColumn_scan (s : t) :
  findPivotColumn s
  = (for_loop 0 (pivotColumns s)
       (fun j '(m, idx) =>
          if improves s (objectiveEntry s j) m then (objectiveEntry s j, j)
          else (m, idx))
       (0%float, -1)).2.
Proof.
  unfold findPivotColumn, improves, objectiveEntry, pivotColumns.
  destruct (isMaximization s); reflexivity.
Qed.

Lemma findPivotRow_scan (s : t) (pivotCol : Z) :
  findPivotRow s pivotCol
  = (for_loop 0 (pivotRows s)
       (fun i '(m, idx) =>
          if fgt (get2 (tableau s) i pivotCol) EPSILON && flt (ratio s pivotCol i) m
          then (ratio s pivotCol i, i) else (m, idx))
       (1e30%float, -1)).2.
Proof.
  unfold findPivotRow, pivotRows, ratio. f_equal.
  apply for_loop_ext. intros i [m idx] _.
  by destruct (fgt _ EPSILON).
Qed.

End PivotRules.

(** X1.  [findPivotColumn] returns -1 exactly when no scanned entry of the
    objective row passes the test against 0 (below -EPSILON when
    maximizing, above EPSILON when minimizing).  Otherwise it returns a
    scanned column, never the right-hand side, and no column to its right
    passes the test against the entry chosen: among near-equal entries the
    lowest index wins. *)
Theorem pivot_column_choice (s : SimplexSolver.t) :
  let c := SimplexSolver.findPivotColumn s in
  (c = -1 <->
   forall j, 0 <= j < pivotColumns s -> improves s (objectiveEntry s j) 0%float = false)
  /\ (c <> -1 ->
      0 <= c < pivotColumns s
      /\ forall k, c < k < pivotColumns s ->
           improves s (objectiveEntry s k) (objectiveEntry s c) = false).
Proof.
  intros c. subst c. rewrite findPivotColumn_scan.
  destruct (scan_best (fun j m => improves s (objectiveEntry s j) m)
              (objectiveEntry s) (pivotColumns s) 0%float)
    as [(Hidx & _ & Hnone)|(Hidx & _ & _ & (j & Hj & Hjt) & Hlater)].
  - rewrite Hidx. split; [tauto|congruence].
  - split; [|intros _; split; [exact Hidx|exact Hlater]].
    split; [lia|]. intros Hnone. rewrite (Hnone j Hj) in Hjt. discriminate.
Qed.

(** X2.  [findPivotRow] returns -1 exactly when no constraint row has both
    a pivot-column entry above EPSILON and a ratio below the initial bound
    1e30.  Otherwise it returns a constraint row, never the objective row,
    whose pivot-column entry exceeds EPSILON (so [performPivot] divides by
    a positive number), and no later row with an entry above EPSILON has a
    strictly smaller ratio: ties go to the lowest row. *)
Theorem pivot_row_choice (s : SimplexSolver.t) (pivotCol : Z) :
  let r := SimplexSolver.findPivotRow s pivotCol in
  (r = -1 <->
   forall i, 0 <= i < pivotRows s ->
     fgt (get2 (SimplexSolver.tableau s) i pivotCol) EPSILON
     && flt (ratio s pivotCol i) 1e30%float = false)
  /\ (r <> -1 ->
      0 <= r < pivotRows s
      /\ fgt (get2 (SimplexSolver.tableau s) r pivotCol) EPSILON = true
      /\ forall k, r < k < pivotRows s ->
           fgt (get2 (SimplexSolver.tableau s) k pivotCol) EPSILON = true ->
           flt (ratio s pivotCol k) (ratio s pivotCol r) = false).
Proof.
  intros r. subst r. rewrite findPivotRow_scan.
  destruct (scan_best
              (fun i m => fgt (get2 (SimplexSolver.tableau s) i pivotCol) EPSILON
                          && flt (ratio s pivotCol i) m)
              (ratio s pivotCol) (pivotRows s) 1e30%float)
    as [(Hidx & _ & Hnone)|(Hidx & _ & [m Hm] & (j & Hj & Hjt) & Hlater)].
  - rewrite Hidx. split; [tauto|congruence].
  - split.
    + split; [lia|]. intros Hnone. rewrite (Hnone j Hj) in Hjt. discriminate.
    + intros _. split; [exact Hidx|]. split.
      * by apply andb_prop in Hm as [? _].
      * intros k Hk Hpos. specialize (Hlater k Hk). by rewrite Hpos in Hlater.
Qed.

(** ** Shape of the tableau *)

Section Shape.
Import SimplexSolver.

Lemma for_loop_preserves {S} (P : S -> Prop) lo hi (body : Z -> S -> S) (s : S) :
  P s ->
  (forall i s', lo <= i < hi -> P s' -> P (body i s')) ->
  P (for_loop lo hi body s).
Proof.
  intros Hs Hstep. destruct (Z.le_gt_cases hi lo) as [Hle|Hlt].
  - by rewrite for_loop_nil.
  - apply (for_loop_inv (fun _ s' => P s')); [lia|exact Hs|exact Hstep].
Qed.

Lemma sizeZ_setZ {A} (l : list A) (i : Z) (x : A) : sizeZ (setZ l i x) = sizeZ l.
Proof.
  unfold sizeZ, setZ. destruct (i <? 0); [reflexivity|]. by rewrite length_insert.
Qed.

Lemma getZ_elem_or_default {A} (d : A) (l : list A) (i : Z) :
  0 <= i < sizeZ l -> In (getZ d l i) l.
Proof.
  unfold getZ, sizeZ. intros Hi. destruct (Z.ltb_spec i 0); [lia|].
  apply nth_In. lia.
Qed.

Lemma hasShape_set2 (m : list (list double)) (rows cols i j : Z) (x : double) :
  hasShape m rows cols -> hasShape (set2 m i j x) rows cols.
Proof.
  intros [Hrows Hcols]. unfold set2. split; [by rewrite sizeZ_setZ|].
  unfold setZ at 1. destruct (Z.ltb_spec i 0); [exact Hcols|].
  destruct (Z.lt_ge_cases i (sizeZ m)) as [Hlt|Hge].
  - apply Forall_insert; [exact Hcols|].
    rewrite sizeZ_setZ. rewrite List.Forall_forall in Hcols.
    apply Hcols, getZ_elem_or_default. lia.
  - rewrite list_insert_ge; [exact Hcols|]. unfold sizeZ in Hge. lia.
Qed.

Lemma hasShape_replicate (rows cols : Z) :
  0 <= rows -> 0 <= cols ->
  hasShape (replicate (Z.to_nat rows) (replicate (Z.to_nat cols) 0%float)) rows cols.
Proof.
  intros Hr Hc. split.
  - unfold sizeZ. rewrite length_replicate. lia.
  - apply Forall_replicate. unfold sizeZ. rewrite length_replicate. lia.
Qed.

Lemma fillRow_shape (s : t) (numCols rows cols i : Z) (f : fill) :
  hasShape (f_tab f) rows cols ->
  hasShape (f_tab (fillRow s numCols i f)) rows cols
  /\ sizeZ (f_basic (fillRow s numCols i f)) = sizeZ (f_basic f) + 1.
Proof.
  intros Hshape. unfold fillRow.
  assert (hasShape
            (for_loop 0 (numVariables s)
               (fun j tb => set2 tb i j (get2 (constraints s) i j)) (f_tab f))
            rows cols) as H0.
  { apply for_loop_preserves; [exact Hshape|]. intros. by apply hasShape_set2. }
  destruct (getZ 0 (constraintTypes s) i =? 1);
    [|destruct (getZ 0 (constraintTypes s) i =? 2)]; simpl;
    (split; [repeat apply hasShape_set2; exact H0
            |unfold sizeZ; rewrite length_app; simpl; lia]).
Qed.

Lemma bigMRow_shape (s : t) (numRows numCols artStart total rows cols i : Z)
    (tb : list (list double)) :
  hasShape tb rows cols ->
  hasShape (bigMRow s numRows numCols artStart total i tb) rows cols.
Proof.
  intros Hshape. unfold bigMRow.
  destruct ((getZ 0 (constraintTypes s) i =? 2) || (getZ 0 (constraintTypes s) i =? 3));
    [|exact Hshape].
  destruct (List.find _ _); [|exact Hshape].
  apply for_loop_preserves; [by apply hasShape_set2|].
  intros. by apply hasShape_set2.
Qed.

Lemma countVars_nonneg (types : list Z) :
  let '(a, b, c) := countVars types in 0 <= a /\ 0 <= b /\ 0 <= c.
Proof.
  unfold countVars.
  assert (forall a b c, 0 <= a -> 0 <= b -> 0 <= c ->
            let '(a', b', c') :=
              foldl (fun '(sl, su, ar) ty =>
                       if ty =? 1 then (sl + 1, su, ar)
                       else if ty =? 2 then (sl, su + 1, ar + 1)
                       else (sl, su, ar + 1)) (a, b, c) types in
            0 <= a' /\ 0 <= b' /\ 0 <= c') as H.
  { induction types as [|ty types IH]; intros a b c Ha Hb Hc; simpl; [auto|].
    destruct (ty =? 1); [|destruct (ty =? 2)]; apply IH; lia. }
  apply H; lia.
Qed.

Lemma createInitialTableau_shape (s : t) :
  0 <= numVariables s -> 0 <= numConstraints s ->
  hasShape (tableau (createInitialTableau s)) (numConstraints s + 1) (totalVars s + 1)
  /\ sizeZ (basicVars (createInitialTableau s)) = numConstraints s.
Proof.
  intros Hv Hc. unfold createInitialTableau, totalVars.
  pose proof (countVars_nonneg (constraintTypes s)) as Hcount.
  destruct (countVars (constraintTypes s)) as [[a b] c]. simpl.
  destruct Hcount as (Ha & Hb & Hc').
  set (rows := numConstraints s + 1). set (cols := numVariables s + a + b + c + 1).
  set (f0 := {| f_tab := _ |}).
  assert (hasShape (f_tab (for_loop 0 (numConstraints s) (fillRow s cols) f0)) rows cols
          /\ sizeZ (f_basic (for_loop 0 (numConstraints s) (fillRow s cols) f0))
             = numConstraints s) as [Hfill Hbasic].
  { apply (for_loop_inv
             (fun i f => hasShape (f_tab f) rows cols /\ sizeZ (f_basic f) = i));
      [lia| |].
    - split; [apply hasShape_replicate; lia|reflexivity].
    - intros i f Hi [Hsh Hb']. destruct (fillRow_shape s cols rows cols i f Hsh).
      split; [assumption|lia]. }
  split; [|exact Hbasic].
  apply for_loop_preserves.
  - apply for_loop_preserves; [exact Hfill|]. intros. by apply hasShape_set2.
  - intros. by apply bigMRow_shape.
Qed.

Lemma performPivot_shape (s : t) (rows cols pivotRow pivotCol : Z) :
  hasShape (tableau s) rows cols ->
  hasShape (tableau (performPivot s pivotRow pivotCol)) rows cols
  /\ sizeZ (basicVars (performPivot s pivotRow pivotCol)) = sizeZ (basicVars s)
  /\ varNames (performPivot s pivotRow pivotCol) = varNames s.
Proof.
  intros Hshape. unfold performPivot. simpl.
  split; [|split; [apply sizeZ_setZ|reflexivity]].
  apply for_loop_preserves.
  - apply for_loop_preserves; [exact Hshape|]. intros. by apply hasShape_set2.
  - intros i tb _ Htb. destruct (i =? pivotRow); [exact Htb|].
    apply for_loop_preserves; [exact Htb|]. intros. by apply hasShape_set2.
Qed.

Lemma pivotLoop_shape (n : nat) (s : t) (rows cols : Z) :
  hasShape (tableau s) rows cols ->
  hasShape (tableau (exitState (pivotLoop n s))) rows cols
  /\ sizeZ (basicVars (exitState (pivotLoop n s))) = sizeZ (basicVars s)
  /\ varNames (exitState (pivotLoop n s)) = varNames s.
Proof.
  revert s. induction n as [|n IH]; intros s Hshape; simpl; [auto|].
  destruct (findPivotColumn s =? -1); [auto|].
  destruct (findPivotRow s (findPivotColumn s) =? -1); [auto|].
  destruct (performPivot_shape s rows cols (findPivotRow s (findPivotColumn s))
              (findPivotColumn s) Hshape) as (Hsh & Hbv & Hvn).
  destruct (IH _ Hsh) as (Hsh' & Hbv' & Hvn').
  split; [exact Hsh'|]. split; congruence.
Qed.

Lemma extractSolution_size (s : t) :
  0 <= numVariables s -> sizeZ (extractSolution s) = numVariables s.
Proof.
  intros Hv. unfold extractSolution.
  apply (for_loop_preserves (fun sol => sizeZ sol = numVariables s)).
  - unfold sizeZ. rewrite length_replicate. lia.
  - intros i sol _ Hsol. destruct (_ <? _); [|exact Hsol]. by rewrite sizeZ_setZ.
Qed.

Lemma sizeZ_nonneg {A} (l : list A) : 0 <= sizeZ l.
Proof. unfold sizeZ. lia. Qed.

Lemma numVariables_frame (s s' : t) :
  sameFrame s s' ->
  numVariables s' = numVariables s /\ numConstraints s' = numConstraints s
  /\ constraintTypes s' = constraintTypes s /\ objective s' = objective s.
Proof. unfold sameFrame. destruct s, s'. simpl. intros [=]. by subst. Qed.

End Shape.

(** X3.  For a solver built by the constructor, the tableau has exactly
    numConstraints + 1 rows of totalVars + 1 entries when
    [createInitialTableau] is done and after any number of pivots, and
    [basicVars] holds one column per constraint: pivoting never changes the
    dimensions. *)
Theorem tableau_dimensions (obj : list double) (cons : list (list double))
    (r : list double) (types : list Z) (isMax : bool) (pivots : nat) :
  let s0 := SimplexSolver.new obj cons r types isMax in
  let s := exitState (SimplexSolver.pivotLoop pivots
                        (SimplexSolver.createInitialTableau s0)) in
  hasShape (SimplexSolver.tableau s) (sizeZ cons + 1) (totalVars s0 + 1)
  /\ sizeZ (SimplexSolver.basicVars s) = sizeZ cons.
Proof.
  intros s0 s.
  destruct (createInitialTableau_shape s0) as [Hsh Hbv];
    [apply sizeZ_nonneg|apply sizeZ_nonneg|].
  destruct (pivotLoop_shape pivots _ _ _ Hsh) as (Hsh' & Hbv' & _).
  split; [exact Hsh'|]. subst s. rewrite Hbv'. exact Hbv.
Qed.

(** X4.  [solve] ends in one of three ways.  Without a pivot row it sets
    [isUnbounded], keeps [isFeasible] and hands back an empty solution with
    objective 0; when the artificial check fires it clears [isFeasible],
    keeps [isUnbounded] and hands back the same empty outputs; otherwise
    both flags stay as they were, the solution has exactly numVariables
    entries and the objective is recomputed from it.  This holds whatever
    the two out-parameters contain on entry. *)
Theorem solve_outcomes (obj : list double) (cons : list (list double))
    (r : list double) (types : list Z) (isMax : bool)
    (outSolution : list double) (outObjValue : double) :
  let s0 := SimplexSolver.new obj cons r types isMax in
  let '(s, sol, z) := SimplexSolver.solve s0 outSolution outObjValue in
  (SimplexSolver.isUnbounded s = true /\ SimplexSolver.isFeasible s = true
   /\ sol = [] /\ z = 0%float)
  \/ (SimplexSolver.isFeasible s = false /\ SimplexSolver.isUnbounded s = false
      /\ sol = [] /\ z = 0%float)
  \/ (SimplexSolver.isFeasible s = true /\ SimplexSolver.isUnbounded s = false
      /\ sizeZ sol = sizeZ obj
      /\ z = SimplexSolver.objectiveValue s0 sol).
Proof.
  intros s0. unfold SimplexSolver.solve. generalize SimplexSolver.maxIterations.
  intros n.
  pose proof (pivotLoop_sameFrame n (SimplexSolver.createInitialTableau s0)) as Hfr.
  pose proof (sameFrame_trans _ _ _ (createInitialTableau_sameFrame s0) Hfr) as Hs.
  destruct (sameFrame_flags _ _ Hs) as [Hfe Hun].
  destruct (numVariables_frame _ _ Hs) as (Hnv & _ & _ & Hobj).
  assert (forall s',
            sameFrame s0 s' ->
            let '(s, sol, z) := SimplexSolver.afterLoop s' in
            (SimplexSolver.isFeasible s = false /\ SimplexSolver.isUnbounded s = false
             /\ sol = [] /\ z = 0%float)
            \/ (SimplexSolver.isFeasible s = true /\ SimplexSolver.isUnbounded s = false
                /\ sizeZ sol = sizeZ obj
                /\ z = SimplexSolver.objectiveValue s0 sol)) as Hafter.
  { intros s' Hs'. unfold SimplexSolver.afterLoop.
    destruct (sameFrame_flags _ _ Hs') as [Hfe' Hun'].
    destruct (numVariables_frame _ _ Hs') as (Hnv' & _ & _ & Hobj').
    destruct (SimplexSolver.artificialRemains s').
    - left. destruct s'. simpl in *. auto.
    - right. split; [exact Hfe'|]. split; [exact Hun'|]. split.
      + rewrite extractSolution_size; rewrite Hnv'; [reflexivity|apply sizeZ_nonneg].
      + unfold SimplexSolver.objectiveValue. by rewrite Hnv', Hobj'. }
  destruct (SimplexSolver.pivotLoop n (SimplexSolver.createInitialTableau s0))
    as [s'|s'|s']; simpl in Hs, Hfe, Hun.
  - specialize (Hafter s' Hs). destruct (SimplexSolver.afterLoop s') as [[s sol] z].
    tauto.
  - left. destruct s'. simpl in *. auto.
  - specialize (Hafter s' Hs). destruct (SimplexSolver.afterLoop s') as [[s sol] z].
    tauto.
Qed.

(** X5.  A solver object can be solved again: the second [solve] leaves
    the object exactly as the first one left it, flags included, and
    returns the same solution and objective, whatever the out-parameters
    hold on either call.  [createInitialTableau] rebuilds tableau, names
    and basis from the problem data, and the two flags only ever move one
    way. *)
Theorem solve_twice_same (s : SimplexSolver.t) (out1 out2 : list double)
    (obj1 obj2 : double) :
  SimplexSolver.solve (SimplexSolver.solve s out1 obj1).1.1 out2 obj2
  = SimplexSolver.solve s out1 obj1.
Proof. apply solve_again. Qed.

(** * Further properties of the search *)

(** ** The best-first selection *)

Section Sorting.
Context {A : Type} (comp : A -> A -> bool).

Lemma sort_insert_perm (x : A) (l : list A) : sort_insert comp x l ≡ₚ x :: l.
Proof.
  induction l as [|y l IH]; simpl; [reflexivity|].
  destruct (comp y x); [|reflexivity].
  rewrite IH. apply Permutation_swap.
Qed.

Lemma sort_perm (l : list A) : sort comp l ≡ₚ l.
Proof.
  induction l as [|x l IH]; simpl; [reflexivity|].
  unfold sort in *. simpl. by rewrite sort_insert_perm, IH.
Qed.

(** When [comp] is a strict weak ordering on the values met, the first
    element of the sorted list is not preceded by any other. *)
Lemma sort_insert_head (P : A -> Prop) (x : A) (l : list A) :
  (forall a, P a -> comp a a = false) ->
  (forall a c, P a -> P c -> comp a c = true -> comp c a = false) ->
  (forall a c d, P a -> P c -> P d ->
                 comp a c = false -> comp c d = false -> comp a d = false) ->
  P x -> Forall P l ->
  (forall h t, l = h :: t -> Forall (fun a => comp a h = false) l) ->
  forall h t, sort_insert comp x l = h :: t ->
              Forall (fun a => comp a h = false) (sort_insert comp x l).
Proof.
  intros Hirr Hasym Htrans Hx Hl Hhead h t.
  destruct l as [|y l]; simpl.
  - intros [= <- <-]. constructor; [by apply Hirr|constructor].
  - specialize (Hhead y l eq_refl).
    apply List.Forall_cons_iff in Hl as [Hy Hl].
    destruct (comp y x) eqn:Hyx.
    + intros [= <- <-].
      apply List.Forall_cons_iff in Hhead as [Hyy Hrest].
      constructor; [exact Hyy|].
      pose proof (sort_insert_perm x l) as Hperm.
      rewrite Hperm. constructor; [by apply Hasym|exact Hrest].
    + intros [= <- <-]. constructor; [by apply Hirr|].
      rewrite List.Forall_forall in Hhead, Hl |- *.
      intros a Ha. destruct Ha as [<-|Ha]; [exact Hyx|].
      apply (Htrans a y x); auto.
      apply Hhead. by right.
Qed.

Lemma sort_head (P : A -> Prop) (l : list A) :
  (forall a, P a -> comp a a = false) ->
  (forall a c, P a -> P c -> comp a c = true -> comp c a = false) ->
  (forall a c d, P a -> P c -> P d ->
                 comp a c = false -> comp c d = false -> comp a d = false) ->
  Forall P l ->
  forall h t, sort comp l = h :: t -> Forall (fun a => comp a h = false) (sort comp l).
Proof.
  intros Hirr Hasym Htrans. induction l as [|x l IH]; intros Hl h t.
  - discriminate.
  - apply List.Forall_cons_iff in Hl as [Hx Hl].
    change (sort comp (x :: l)) with (sort_insert comp x (sort comp l)).
    apply (sort_insert_head P); auto.
    + by rewrite sort_perm.
    + intros h' t' Heq. apply (IH Hl h' t' Heq).
Qed.

End Sorting.

(** ** Order of binary64 numbers *)

Section FloatOrder.

Ltac cmp_cases :=
  repeat match goal with
  | H : context [Z.compare ?a ?b] |- _ => destruct (Z.compare_spec a b); subst
  | |- context [Z.compare ?a ?b] => destruct (Z.compare_spec a b); subst
  | H : context [Pos.compare ?a ?b] |- _ => destruct (Pos.compare_spec a b); subst
  | |- context [Pos.compare ?a ?b] => destruct (Pos.compare_spec a b); subst
  end.

Lemma SFltb_irrefl f : SFltb f f = false.
Proof.
  unfold SFltb. destruct f as [s|s| |s m e]; simpl; try reflexivity.
  - by destruct s.
  - change (PosDef.Pos.compare_cont Eq m m) with (Pos.compare m m).
    rewrite Z.compare_refl, Pos.compare_refl. by destruct s.
Qed.

Lemma SFltb_asym f1 f2 : SFltb f1 f2 = true -> SFltb f2 f1 = false.
Proof.
  unfold SFltb.
  destruct f1 as [s1|s1| |s1 m1 e1], f2 as [s2|s2| |s2 m2 e2]; simpl;
    try discriminate; try reflexivity;
    try (destruct s1; try discriminate; try reflexivity);
    try (destruct s2; try discriminate; try reflexivity).
  all: change (PosDef.Pos.compare_cont Eq m1 m2) with (Pos.compare m1 m2);
       change (PosDef.Pos.compare_cont Eq m2 m1) with (Pos.compare m2 m1).
  all: cmp_cases; simpl; try discriminate; try reflexivity; try lia.
Qed.

Lemma SFltb_neg_trans f1 f2 f3 :
  f2 <> S754_nan ->
  SFltb f1 f2 = false -> SFltb f2 f3 = false -> SFltb f1 f3 = false.
Proof.
  unfold SFltb.
  destruct f1 as [s1|s1| |s1 m1 e1], f2 as [s2|s2| |s2 m2 e2],
           f3 as [s3|s3| |s3 m3 e3];
    simpl; try congruence; try reflexivity; intros _;
    try (destruct s1); try (destruct s2); try (destruct s3);
    try discriminate; try reflexivity.
  all: change (PosDef.Pos.compare_cont Eq m1 m2) with (Pos.compare m1 m2);
       change (PosDef.Pos.compare_cont Eq m2 m3) with (Pos.compare m2 m3);
       change (PosDef.Pos.compare_cont Eq m1 m3) with (Pos.compare m1 m3).
  all: cmp_cases; simpl; try discriminate; try reflexivity; try lia.
Qed.

Lemma notNaN_spec (x : double) : notNaN x -> Prim2SF x <> S754_nan.
Proof.
  unfold notNaN, PrimFloat.is_nan. rewrite FloatAxioms.eqb_spec. intros H Hnan.
  rewrite Hnan in H. discriminate.
Qed.

Lemma flt_irrefl (x : double) : flt x x = false.
Proof. unfold flt. rewrite FloatAxioms.ltb_spec. apply SFltb_irrefl. Qed.

Lemma flt_asym (x y : double) : flt x y = true -> flt y x = false.
Proof. unfold flt. rewrite !FloatAxioms.ltb_spec. apply SFltb_asym. Qed.

Lemma flt_neg_trans (x y z : double) :
  notNaN y -> flt x y = false -> flt y z = false -> flt x z = false.
Proof.
  unfold flt. rewrite !FloatAxioms.ltb_spec. intros Hy. by apply SFltb_neg_trans, notNaN_spec.
Qed.

End FloatOrder.

(** X6.  The best-first selection neither loses nor duplicates a queue
    item: the sorted queue is a permutation of the queue.  When no bound
    in the queue is NaN, the item selected has a bound that no item of the
    queue beats: none is greater when maximizing, none is smaller when
    minimizing. *)
Theorem best_bound_selected (st : BranchAndBound.loop_state)
    (current : QueueItem) (queue : list QueueItem) :
  Forall (fun q => notNaN (bound q)) (BranchAndBound.l_queue st) ->
  sortedQueue st = current :: queue ->
  current :: queue ≡ₚ BranchAndBound.l_queue st
  /\ Forall (fun q => queueOrder (BranchAndBound.l_obj st) q current = false)
            (BranchAndBound.l_queue st).
Proof.
  intros Hnan Hsort. unfold sortedQueue, queueOrder in *.
  assert (forall comp : QueueItem -> QueueItem -> bool,
            (forall a, comp a a = false) ->
            (forall a c, comp a c = true -> comp c a = false) ->
            (forall a c d, notNaN (bound c) ->
                           comp a c = false -> comp c d = false -> comp a d = false) ->
            sort comp (BranchAndBound.l_queue st) = current :: queue ->
            current :: queue ≡ₚ BranchAndBound.l_queue st
            /\ Forall (fun q => comp q current = false) (BranchAndBound.l_queue st))
    as Hgen.
  { intros comp Hirr Hasym Htrans Heq. split; [by rewrite <-Heq, sort_perm|].
    apply (Permutation_Forall (sort_perm comp (BranchAndBound.l_queue st))).
    apply (sort_head comp (fun q => notNaN (bound q)) _) with (t := queue); auto.
    intros a c d _ Hc _. by apply Htrans. }
  destruct (BranchAndBound.isMaximization (BranchAndBound.l_obj st));
    apply Hgen; try exact Hsort; unfold BranchAndBound.bound_gt,
      BranchAndBound.bound_lt, fgt.
  - intros a. apply flt_irrefl.
  - intros a c. apply flt_asym.
  - intros a c d Hc H1 H2. by apply (flt_neg_trans _ (bound c)).
  - intros a. apply flt_irrefl.
  - intros a c. apply flt_asym.
  - intros a c d Hc H1 H2. by apply (flt_neg_trans _ (bound c)).
Qed.

(** A run of the theorem above: the queue of three items met before the
    fourth pass on the binary scenario. *)
Lemma best_bound_selected_witness :
  let st := Nat.iter 3 BranchAndBound.iterate (loopStart binary_scenario) in
  default (mkQueueItem [] [] [] 0%float 0 EmptyString 0) (head (sortedQueue st))
    :: tail (sortedQueue st) ≡ₚ BranchAndBound.l_queue st
  /\ Forall (fun q => queueOrder (BranchAndBound.l_obj st) q
                        (default (mkQueueItem [] [] [] 0%float 0 EmptyString 0)
                                 (head (sortedQueue st))) = false)
            (BranchAndBound.l_queue st).
Proof.
  intros st. apply (best_bound_selected st).
  - vm_compute. repeat constructor.
  - vm_compute. reflexivity.
Defined.

(** ** Branching *)




(** ** One pass of the main loop *)

Section Pass.
Import BranchAndBound.

(** The five ways [processNode] can go. *)
Lemma processNode_cases (b : t) (queue : list QueueItem) (counter : Z)
    (current : QueueItem) (id : Z) (sol : list double) (obj : double) :
  let r := processNode b queue counter current id sol obj in
  l_counter r = counter
  /\ ((sol = [] /\ l_obj r = assign_status b id "INFEASIBLE" /\ l_queue r = queue)
      \/ (sol <> [] /\ bounded b obj = true
          /\ l_obj r = assign_status b id "PRUNED" /\ l_queue r = queue)
      \/ (sol <> [] /\ bounded b obj = false /\ isIntegerSolution b sol = true
          /\ improved b obj = false
          /\ l_obj r = assign_status b id "INTEGER" /\ l_queue r = queue)
      \/ (sol <> [] /\ bounded b obj = false /\ isIntegerSolution b sol = true
          /\ improved b obj = true
          /\ l_obj r = updateBest (assign_status b id "INTEGER") id sol obj
          /\ l_queue r = queue)
      \/ (sol <> [] /\ bounded b obj = false /\ isIntegerSolution b sol = false
          /\ l_obj r = assign_status b id "BRANCHED"
          /\ l_queue r = queue ++ children b current id sol obj)).
Proof.
  unfold processNode, bounded, improved.
  destruct sol as [|x sol]; [simpl; tauto|].
  change (isMaximization (assign_status b id "INTEGER")) with (isMaximization b).
  change (bestObjValue (assign_status b id "INTEGER")) with (bestObjValue b).
  assert (x :: sol <> []) as Hne by discriminate.
  destruct (isIntegerSolution b (x :: sol));
    (destruct (isMaximization b); cbn [andb negb];
     [destruct (fle obj (bestObjValue b)), (fgt obj (bestObjValue b))
     |destruct (fge obj (bestObjValue b)), (flt obj (bestObjValue b))]);
    cbn [l_counter l_obj l_queue];
    (split; [reflexivity|]); tauto.
Qed.

Lemma registerNode_frame' (b : t) (current : QueueItem) (id : Z)
    (sol : list double) (obj : double) :
  let b' := registerNode b current id sol obj in
  integerVars b' = integerVars b /\ optimalPath b' = optimalPath b
  /\ iteration b' = iteration b /\ numVariables b' = numVariables b.
Proof. unfold registerNode. by destruct (leftChild _ =? -1). Qed.

Lemma elem_of_sortedQueue (st : loop_state) (q : QueueItem) :
  q ∈ sortedQueue st <-> q ∈ l_queue st.
Proof.
  unfold sortedQueue.
  destruct (isMaximization (l_obj st)); by rewrite sort_perm.
Qed.

End Pass.

(** ** Bookkeeping of the main loop *)

Section Bookkeeping.
Import BranchAndBound.

Lemma assignments_log (b : t) (id : Z) :
  assignments b id = countId (statusLog b) id.
Proof. reflexivity. Qed.

Lemma countId_snoc (log : list (Z * string)) (i id : Z) (s : string) :
  countId (log ++ [(i, s)]) id
  = (countId log id + if decide (i = id) then 1 else 0)%nat.
Proof.
  unfold countId. rewrite filter_app, length_app. f_equal.
  rewrite filter_cons. simpl. by destruct (decide (i = id)).
Qed.

(** How [processNode] leaves the log, the tree's domain and the counters. *)
Lemma processNode_effect (b : t) (queue : list QueueItem) (counter : Z)
    (current : QueueItem) (id : Z) (sol : list double) (obj : double) :
  let r := processNode b queue counter current id sol obj in
  l_counter r = counter
  /\ iteration (l_obj r) = iteration b
  /\ isMaximization (l_obj r) = isMaximization b
  /\ (exists s, terminal s /\ statusLog (l_obj r) = statusLog b ++ [(id, s)])
  /\ (forall j, is_Some (treeNodes (l_obj r) !! j)
                <-> is_Some (treeNodes b !! j) \/ j = id)
  /\ (l_queue r = queue \/ l_queue r = queue ++ children b current id sol obj).
Proof.
  intros r. subst r.
  assert (forall s j, is_Some (treeNodes (assign_status b id s) !! j)
                      <-> is_Some (treeNodes b !! j) \/ j = id) as Hdom.
  { intros s j. unfold assign_status, put_node. simpl.
    rewrite lookup_insert. destruct (decide (id = j)) as [->|Hne].
    - split; [by right|by eexists].
    - split; [by left|intros [?|?]; [done|congruence]]. }
  assert (forall s, terminal s ->
            exists s', terminal s'
                       /\ statusLog (assign_status b id s) = statusLog b ++ [(id, s')])
    as Hlog by (intros s Hs; by exists s).
  destruct (processNode_cases b queue counter current id sol obj)
    as (Hc & [(_ & -> & Hq)|[(_ & _ & -> & Hq)|[(_ & _ & _ & _ & -> & Hq)
              |[(_ & _ & _ & _ & -> & Hq)|(_ & _ & _ & -> & Hq)]]]]);
    (split; [exact Hc|]); (split; [reflexivity|]); (split; [reflexivity|]).
  - split; [apply Hlog; unfold terminal; repeat constructor|]. split; [apply Hdom|by left].
  - split; [apply Hlog; unfold terminal; repeat constructor|]. split; [apply Hdom|by left].
  - split; [apply Hlog; unfold terminal; repeat constructor|]. split; [apply Hdom|by left].
  - split; [apply Hlog; unfold terminal; repeat constructor|]. split; [|by left].
    intros j. rewrite <-(Hdom "INTEGER"%string j).
    unfold updateBest, markOptimal. simpl. rewrite map_lookup_imap.
    destruct (_ !! j); simpl; split; intros [? ?]; by eexists.
  - split; [apply Hlog; unfold terminal; repeat constructor|]. split; [apply Hdom|by right].
Qed.

Lemma registerNode_dom (b : t) (current : QueueItem) (id : Z)
    (sol : list double) (obj : double) (j : Z) :
  is_Some (treeNodes (registerNode b current id sol obj) !! j)
  <-> is_Some (treeNodes b !! j) \/ j = id \/ j = q_parentId current.
Proof.
  assert (forall n n' : TreeNode,
            is_Some (<[q_parentId current := n]> (<[id := n']> (treeNodes b)) !! j)
            <-> is_Some (treeNodes b !! j) \/ j = id \/ j = q_parentId current) as H.
  { intros n n'. rewrite !lookup_insert.
    destruct (decide (q_parentId current = j)) as [->|Hp]; [split; [tauto|by eexists]|].
    destruct (decide (id = j)) as [->|Hi]; [split; [tauto|by eexists]|].
    split; [tauto|]. intros [?|[?|?]]; [done|congruence..]. }
  unfold registerNode. destruct (leftChild _ =? -1); apply H.
Qed.

Lemma children_fields (b : t) (current : QueueItem) (id : Z)
    (sol : list double) (obj : double) :
  Forall (fun item =>
            q_parentId item = id /\ q_depth item = q_depth current + 1
            /\ bound item = obj
            /\ sizeZ (extraCons item) = sizeZ (extraCons current) + 1
            /\ sizeZ (extraRhs item) = sizeZ (extraRhs current) + 1
            /\ sizeZ (extraTypes item) = sizeZ (extraTypes current) + 1)
         (children b current id sol obj).
Proof.
  unfold children. destruct (findBranchingVariable b sol) as [varIdx fracVal].
  repeat constructor; simpl; unfold sizeZ; rewrite length_app; simpl; lia.
Qed.

Lemma sort_singleton {A} (comp : A -> A -> bool) (x : A) : sort comp [x] = [x].
Proof. reflexivity. Qed.

Lemma sortedQueue_cons (st : loop_state) :
  l_queue st <> [] ->
  exists current rest,
    sortedQueue st = current :: rest
    /\ current ∈ l_queue st
    /\ Forall (fun q => q ∈ l_queue st) rest.
Proof.
  intros Hne. destruct (sortedQueue st) as [|current rest] eqn:Hs.
  - exfalso. apply Hne. destruct (l_queue st) as [|q l] eqn:Hq; [done|].
    assert (q ∈ sortedQueue st) as Hin
        by (apply elem_of_sortedQueue; rewrite Hq; left).
    rewrite Hs in Hin. by apply not_elem_of_nil in Hin.
  - exists current, rest. split; [done|]. split.
    + apply elem_of_sortedQueue. rewrite Hs. left.
    + apply List.Forall_forall. intros q Hq.
      apply elem_of_sortedQueue. rewrite Hs. right. by apply list_elem_of_In.
Qed.

End Bookkeeping.

Section Discipline.
Import BranchAndBound.

Lemma iterate_unfold (st : loop_state) :
  iterate st
  = let b := with_iteration (l_obj st) (iteration (l_obj st) + 1) in
    match sortedQueue st with
    | [] => mkLoop b [] (l_counter st)
    | current :: queue =>
        if (q_depth current =? 0) && (1 <? iteration b)
        then mkLoop b queue (l_counter st)
        else
          let '(sol, obj) :=
            solveSubproblem b (extraCons current) (extraRhs current)
              (extraTypes current) [] 0%float in
          if 0 <? q_depth current then
            processNode (registerNode b current (l_counter st + 1) sol obj)
              queue (l_counter st + 1) current (l_counter st + 1) sol obj
          else processNode b queue (l_counter st) current 0 sol obj
    end.
Proof. reflexivity. Qed.

(** Under the bookkeeping invariant a pass always processes the item it
    selects: the root item in the first pass, a fresh node afterwards. *)
Lemma iterate_process (st : loop_state) :
  logDiscipline st -> l_queue st <> [] ->
  exists current rest sol obj,
    sortedQueue st = current :: rest
    /\ current ∈ l_queue st
    /\ Forall (fun q => q ∈ l_queue st) rest
    /\ solveSubproblem (with_iteration (l_obj st) (iteration (l_obj st) + 1))
         (extraCons current) (extraRhs current) (extraTypes current) [] 0%float
       = (sol, obj)
    /\ ((iteration (l_obj st) = 0 /\ q_depth current = 0 /\ rest = []
         /\ iterate st
            = processNode (with_iteration (l_obj st) (iteration (l_obj st) + 1))
                rest (l_counter st) current 0 sol obj)
        \/ (1 <= iteration (l_obj st) /\ 1 <= q_depth current
            /\ iterate st
               = processNode
                   (registerNode
                      (with_iteration (l_obj st) (iteration (l_obj st) + 1))
                      current (l_counter st + 1) sol obj)
                   rest (l_counter st + 1) current (l_counter st + 1) sol obj)).
Proof.
  intros Hinv Hne.
  destruct (sortedQueue_cons st Hne) as (current & rest & Hs & Hin & Hrest).
  destruct (solveSubproblem (with_iteration (l_obj st) (iteration (l_obj st) + 1))
              (extraCons current) (extraRhs current) (extraTypes current) [] 0%float)
    as [sol obj] eqn:Hsolve.
  exists current, rest, sol, obj. repeat (split; [assumption|]).
  rewrite iterate_unfold. cbn zeta. rewrite Hs, Hsolve.
  pose proof (ld_iteration st Hinv) as Hit.
  pose proof (ld_depths st Hinv) as Hd.
  destruct (Z.eqb_spec (iteration (l_obj st)) 0) as [H0|Hn0].
  - left. destruct Hd as (_ & item & Hq & Hdepth).
    assert (sortedQueue st = [item]) as Hs'.
    { unfold sortedQueue. rewrite Hq. by destruct (isMaximization _). }
    rewrite Hs in Hs'. injection Hs' as -> ->.
    split; [done|]. split; [done|]. split; [done|].
    cbn [iteration with_iteration]. rewrite Hdepth, H0. reflexivity.
  - right. rewrite List.Forall_forall in Hd.
    assert (1 <= q_depth current) as Hdepth by (by apply Hd, list_elem_of_In).
    split; [lia|]. split; [done|].
    destruct (Z.eqb_spec (q_depth current) 0) as [?|_]; [lia|]. simpl.
    destruct (Z.ltb_spec 0 (q_depth current)); [reflexivity|lia].
Qed.

Lemma assignments_after (b b0 : t) (i id : Z) (s : string) :
  statusLog b = statusLog b0 ++ [(i, s)] ->
  assignments b id = (assignments b0 id + if decide (i = id) then 1 else 0)%nat.
Proof. intros H. by rewrite !assignments_log, H, countId_snoc. Qed.

Lemma logDiscipline_iterate (st : loop_state) :
  logDiscipline st -> l_queue st <> [] -> logDiscipline (iterate st).
Proof.
  intros Hinv Hne.
  destruct (iterate_process st Hinv Hne)
    as (current & rest & sol & obj & Hs & Hin & Hrest & Hsolve & Hcase).
  destruct Hinv as [Hit Hc Hdom Honce Hroot Hnone Hterm Hfirst Hpar Hdep].
  set (b1 := with_iteration (l_obj st) (iteration (l_obj st) + 1)) in *.
  assert (Forall (fun item => 0 <= q_parentId item <= l_counter st) rest) as Hpar'.
  { rewrite List.Forall_forall in Hrest, Hpar |- *. intros q Hq.
    apply Hpar, list_elem_of_In, Hrest, Hq. }
  destruct Hcase as [(H0 & Hd0 & -> & ->)|(H1 & Hd1 & ->)].
  - (* first pass: the root item *)
    destruct (processNode_effect b1 [] (l_counter st) current 0 sol obj)
      as (Hc' & Hit' & _ & (s & Hs' & Hlog) & Hdom' & Hq').
    change (statusLog b1) with (statusLog (l_obj st)) in Hlog.
    change (iteration b1) with (iteration (l_obj st) + 1) in Hit'.
    change (treeNodes b1) with (treeNodes (l_obj st)) in Hdom'.
    rewrite H0 in Hdep, Hroot. simpl in Hdep, Hroot.
    destruct Hdep as (Hc0 & item & Hq & _).
    assert ((iteration (l_obj st) + 1 =? 0) = false) as Hn1
      by (apply Z.eqb_neq; lia).
    split.
    + rewrite Hit'. lia.
    + lia.
    + intros id. rewrite Hc', Hdom', Hdom. lia.
    + intros id Hid. rewrite Hc' in Hid. lia.
    + rewrite (assignments_after _ _ _ _ _ Hlog), Hroot, Hit', Hn1.
      by destruct (decide (0 = 0)).
    + intros id Hid. rewrite Hc' in Hid.
      rewrite (assignments_after _ _ _ _ _ Hlog), (Hnone id Hid).
      destruct (decide (0 = id)); [lia|done].
    + rewrite Hlog. apply Forall_app. split; [exact Hterm|].
      constructor; [exact Hs'|constructor].
    + rewrite Hlog.
      destruct (statusLog (l_obj st)); [discriminate|exact Hfirst].
    + rewrite Hc'. destruct Hq' as [->| ->]; [constructor|]. simpl.
      eapply Forall_impl; [apply children_fields|]. simpl. intros q (-> & _). lia.
    + rewrite Hit', Hn1.
      destruct Hq' as [->| ->]; [constructor|]. simpl.
      eapply Forall_impl; [apply children_fields|]. simpl. intros q (_ & -> & _). lia.
  - (* later passes: a fresh node *)
    set (id := l_counter st + 1) in *.
    set (b2 := registerNode b1 current id sol obj) in *.
    destruct (processNode_effect b2 rest id current id sol obj)
      as (Hc' & Hit' & _ & (s & Hs' & Hlog) & Hdom' & Hq').
    destruct (registerNode_frame b1 current id sol obj) as (_ & _ & _ & Hlog2).
    destruct (registerNode_frame' b1 current id sol obj) as (_ & _ & Hit2 & _).
    fold b2 in Hlog2, Hit2. rewrite Hlog2 in Hlog. rewrite Hit2 in Hit'.
    change (statusLog b1) with (statusLog (l_obj st)) in Hlog.
    change (iteration b1) with (iteration (l_obj st) + 1) in Hit'.
    assert (0 <= q_parentId current <= l_counter st) as Hp.
    { rewrite List.Forall_forall in Hpar. by apply Hpar, list_elem_of_In. }
    assert ((iteration (l_obj st) =? 0) = false) as Hn0 by (apply Z.eqb_neq; lia).
    assert ((iteration (l_obj st) + 1 =? 0) = false) as Hn1
      by (apply Z.eqb_neq; lia).
    rewrite Hn0 in Hroot, Hdep.
    split.
    + rewrite Hit'. lia.
    + rewrite Hc'. lia.
    + intros j. rewrite Hc', Hdom'. subst b2. rewrite registerNode_dom.
      change (treeNodes b1) with (treeNodes (l_obj st)). rewrite Hdom. lia.
    + intros j Hj. rewrite Hc' in Hj.
      rewrite (assignments_after _ _ _ _ _ Hlog).
      destruct (decide (id = j)) as [<-|Hne'].
      * rewrite (Hnone id); [done|lia].
      * rewrite (Honce j); [done|lia].
    + rewrite (assignments_after _ _ _ _ _ Hlog), Hroot, Hit', Hn1.
      destruct (decide (id = 0)); [lia|done].
    + intros j Hj. rewrite Hc' in Hj.
      rewrite (assignments_after _ _ _ _ _ Hlog), (Hnone j); [|lia].
      destruct (decide (id = j)); [lia|done].
    + rewrite Hlog. apply Forall_app. split; [exact Hterm|].
      constructor; [exact Hs'|constructor].
    + rewrite Hlog.
      destruct (statusLog (l_obj st)); [discriminate|exact Hfirst].
    + rewrite Hc'.
      assert (Forall (fun item => 0 <= q_parentId item <= id) rest) as Hrest'.
      { eapply Forall_impl; [exact Hpar'|]. simpl. intros q Hq. lia. }
      destruct Hq' as [->| ->]; [exact Hrest'|].
      apply Forall_app. split; [exact Hrest'|].
      eapply Forall_impl; [apply children_fields|]. simpl. intros q (-> & _). lia.
    + rewrite Hit', Hn1.
      assert (Forall (fun item => 1 <= q_depth item) rest) as Hrest'.
      { rewrite List.Forall_forall in Hrest, Hdep |- *. intros q Hq.
        apply Hdep, list_elem_of_In, Hrest, Hq. }
      destruct Hq' as [->| ->]; [exact Hrest'|].
      apply Forall_app. split; [exact Hrest'|].
      eapply Forall_impl; [apply children_fields|]. simpl. intros q (_ & -> & _). lia.
Qed.

End Discipline.

(** ** The incumbent *)

Section Incumbent.
Import BranchAndBound.

Lemma updateBest_best (b : t) (id : Z) (sol : list double) (obj : double) :
  bestSolution (updateBest b id sol obj) = sol
  /\ bestObjValue (updateBest b id sol obj) = obj.
Proof. by split. Qed.

Lemma processNode_incumbent (b : t) (queue : list QueueItem) (counter : Z)
    (current : QueueItem) (id : Z) (sol : list double) (obj : double) :
  let b' := l_obj (processNode b queue counter current id sol obj) in
  (bestSolution b' = bestSolution b /\ bestObjValue b' = bestObjValue b
   /\ optimalPath b' = optimalPath b)
  \/ (bestSolution b' = sol /\ bestObjValue b' = obj
      /\ sol <> [] /\ bounded b obj = false /\ improved b obj = true
      /\ isIntegerSolution b sol = true).
Proof.
  destruct (processNode_cases b queue counter current id sol obj)
    as (_ & [(_ & -> & _)|[(_ & _ & -> & _)|[(_ & _ & _ & _ & -> & _)
              |[(? & ? & ? & ? & -> & _)|(_ & _ & _ & -> & _)]]]]);
    try (by left).
  right. by repeat split.
Qed.

Lemma solveSubproblem_with_iteration (b : t) (it : Z)
    (ec : list (list double)) (er : list double) (et : list Z)
    (o : list double) (v : double) :
  solveSubproblem (with_iteration b it) ec er et o v = solveSubproblem b ec er et o v.
Proof.
  destruct b. unfold solveSubproblem, subproblemSolver.
  cbn [with_iteration objective constraints rhs constraintTypes isMaximization].
  reflexivity.
Qed.

End Incumbent.

(** X8.  A pass of the main loop either leaves the incumbent, its
    objective and the optimal path untouched, or replaces the incumbent by
    the relaxation solution of an item that was in the queue; in that case
    the solution is non-empty, passes [isIntegerSolution], its objective is
    strictly better than the old incumbent's (greater when maximizing,
    smaller when minimizing) and did not fail the bound check. *)
Theorem incumbent_only_improves (st : BranchAndBound.loop_state) :
  let b := BranchAndBound.l_obj st in
  let b' := BranchAndBound.l_obj (BranchAndBound.iterate st) in
  (BranchAndBound.bestSolution b' = BranchAndBound.bestSolution b
   /\ BranchAndBound.bestObjValue b' = BranchAndBound.bestObjValue b
   /\ BranchAndBound.optimalPath b' = BranchAndBound.optimalPath b)
  \/ (exists current,
        current ∈ BranchAndBound.l_queue st
        /\ BranchAndBound.solveSubproblem b (extraCons current)
             (extraRhs current) (extraTypes current) [] 0%float
           = (BranchAndBound.bestSolution b', BranchAndBound.bestObjValue b')
        /\ BranchAndBound.bestSolution b' <> []
        /\ BranchAndBound.isIntegerSolution b (BranchAndBound.bestSolution b') = true
        /\ improved b (BranchAndBound.bestObjValue b') = true
        /\ bounded b (BranchAndBound.bestObjValue b') = false).
Proof.
  intros b b'. subst b b'. rewrite iterate_unfold. cbn zeta.
  destruct (sortedQueue st) as [|current queue] eqn:Hs; [left; repeat split|].
  assert (current ∈ BranchAndBound.l_queue st) as Hin
      by (apply elem_of_sortedQueue; rewrite Hs; left).
  destruct (_ && _); [left; repeat split|].
  rewrite solveSubproblem_with_iteration.
  destruct (BranchAndBound.solveSubproblem (BranchAndBound.l_obj st) _ _ _ _ _)
    as [sol obj] eqn:Hsolve.
  destruct (0 <? q_depth current).
  - destruct (registerNode_frame
                (BranchAndBound.with_iteration (BranchAndBound.l_obj st)
                   (BranchAndBound.iteration (BranchAndBound.l_obj st) + 1))
                current (BranchAndBound.l_counter st + 1) sol obj)
      as (Hmax & Hbs & Hbo & _).
    destruct (registerNode_frame'
                (BranchAndBound.with_iteration (BranchAndBound.l_obj st)
                   (BranchAndBound.iteration (BranchAndBound.l_obj st) + 1))
                current (BranchAndBound.l_counter st + 1) sol obj)
      as (Hiv & Hop & _).
    match goal with
    | |- context [BranchAndBound.processNode ?b2 ?q ?c ?cur ?id ?s ?o] =>
        destruct (processNode_incumbent b2 q c cur id s o)
          as [(H1 & H2 & H3)|(H1 & H2 & H3 & H4 & H5 & H6)]
    end.
    + left. rewrite H1, H2, H3, Hbs, Hbo, Hop. repeat split.
    + right. exists current. rewrite H1, H2.
      split; [exact Hin|]. split; [exact Hsolve|]. split; [exact H3|].
      unfold bounded, improved, BranchAndBound.isIntegerSolution in *.
      rewrite Hmax, Hbo in H4, H5. rewrite Hiv in H6.
      split; [exact H6|]. split; [exact H5|exact H4].
  - match goal with
    | |- context [BranchAndBound.processNode ?b2 ?q ?c ?cur ?id ?s ?o] =>
        destruct (processNode_incumbent b2 q c cur id s o)
          as [(H1 & H2 & H3)|(H1 & H2 & H3 & H4 & H5 & H6)]
    end.
    + left. rewrite H1, H2, H3. repeat split.
    + right. exists current. rewrite H1, H2.
      split; [exact Hin|]. split; [exact Hsolve|]. split; [exact H3|].
      split; [exact H6|]. split; [exact H5|exact H4].
Qed.

(** ** From the root to the end of the search *)

Section WholeSearch.
Import BranchAndBound.

(** The three ways the part of [solve] before the main loop can go. *)
Lemma solveRoot_cases (b : t) :
  let '(rootSol, rootObj) := solveSubproblem b [] [] [] [] 0%float in
  let b1 := put_node b 0 (rootNode rootSol rootObj) in
  (rootSol = [] /\ solveRoot b = inl (assign_status b1 0 "INFEASIBLE"))
  \/ (rootSol <> [] /\ isIntegerSolution b rootSol = true
      /\ solveRoot b
         = inl (with_optimalPath
                  (with_best
                     (put_node (assign_status b1 0 "INTEGER") 0
                        (set_isOptimal (node (assign_status b1 0 "INTEGER") 0) true))
                     rootSol rootObj)
                  (optimalPath b ++ [0])))
  \/ (rootSol <> [] /\ isIntegerSolution b rootSol = false
      /\ solveRoot b
         = inr (mkLoop
                  (with_best (assign_status b1 0 "BRANCHED") (bestSolution b)
                     (if isMaximization b then (-1e30)%float else 1e30%float))
                  [initialItem rootObj] 0)).
Proof.
  unfold solveRoot.
  destruct (solveSubproblem b [] [] [] [] 0%float) as [rootSol rootObj].
  fold (rootNode rootSol rootObj).
  destruct rootSol as [|x rootSol]; [by left|]. right.
  change (isIntegerSolution (put_node b 0 (rootNode (x :: rootSol) rootObj)))
    with (isIntegerSolution b).
  destruct (isIntegerSolution b (x :: rootSol)); [left|right]; by repeat split.
Qed.

Lemma mainLoop_inv (P : loop_state -> Prop) (fuel : nat) (st st' : loop_state) :
  (forall s, P s -> l_queue s <> [] -> P (iterate s)) ->
  P st -> mainLoop fuel st = Some st' -> P st' /\ l_queue st' = [].
Proof.
  intros Hstep. revert st. induction fuel as [|fuel IH]; intros st HP; simpl.
  - destruct (l_queue st) eqn:Hq; [|discriminate]. by intros [= <-].
  - destruct (l_queue st) eqn:Hq; [by intros [= <-]|].
    intros H. apply (IH (iterate st)); [|exact H].
    apply Hstep; [exact HP|]. by rewrite Hq.
Qed.

Lemma logDiscipline_start (obj : list double) (cons : list (list double))
    (r : list double) (types : list Z) (isMax : bool) (intVars : list Z)
    (st : loop_state) :
  solveRoot (new obj cons r types isMax intVars) = inr st -> logDiscipline st.
Proof.
  set (b := new obj cons r types isMax intVars).
  pose proof (solveRoot_cases b) as H.
  destruct (solveSubproblem b [] [] [] [] 0%float) as [rootSol rootObj].
  destruct H as [(_ & ->)|[(_ & _ & ->)|(_ & _ & ->)]]; try discriminate.
  intros [= <-]. split; simpl; try lia.
  - intros id. rewrite !lookup_insert. destruct (decide (0 = id)) as [<-|Hne].
    + split; [lia|by eexists].
    + rewrite lookup_empty. split; [by intros [? ?]|lia].
  - reflexivity.
  - unfold assignments. simpl. intros id Hid. rewrite filter_cons. simpl.
    destruct (decide (0 = id)); [lia|done].
  - constructor; [|constructor]. unfold terminal. simpl. repeat constructor.
  - reflexivity.
  - constructor; [simpl; lia|constructor].
  - split; [done|]. by eexists.
Qed.

Lemma logDiscipline_end (obj : list double) (cons : list (list double))
    (r : list double) (types : list Z) (isMax : bool) (intVars : list Z)
    (fuel : nat) (st st' : loop_state) :
  solveRoot (new obj cons r types isMax intVars) = inr st ->
  mainLoop fuel st = Some st' ->
  logDiscipline st' /\ l_queue st' = []
  /\ 1 <= iteration (l_obj st').
Proof.
  intros Hroot Hloop.
  destruct (mainLoop_inv logDiscipline fuel st st') as [Hinv Hq];
    [apply logDiscipline_iterate|by eapply logDiscipline_start|exact Hloop|].
  split; [exact Hinv|]. split; [exact Hq|].
  pose proof (ld_iteration _ Hinv). pose proof (ld_depths _ Hinv) as Hd.
  destruct (Z.eqb_spec (iteration (l_obj st')) 0) as [H0|]; [|lia].
  destruct Hd as (_ & item & Hitem & _). congruence.
Qed.

End WholeSearch.

(** X9.  After any finished search the tree holds the nodes 0 .. n for some
    n >= 0 and nothing else.  The status of each node 1 .. n was written
    exactly once; the root's was written once when the search returned
    before the main loop and twice otherwise (before the loop and again by
    the first pass, which solves the root a second time); no other id was
    ever written, and every value written is one of INFEASIBLE, PRUNED,
    INTEGER, BRANCHED. *)
Theorem status_writes (obj : list double) (cons : list (list double))
    (r : list double) (types : list Z) (isMax : bool) (intVars : list Z)
    (fuel : nat) (b' : BranchAndBound.t) :
  BranchAndBound.solve fuel (BranchAndBound.new obj cons r types isMax intVars)
  = Some b' ->
  exists n,
    0 <= n
    /\ (forall id, is_Some (BranchAndBound.treeNodes b' !! id) <-> 0 <= id <= n)
    /\ (forall id, 1 <= id <= n -> assignments b' id = 1%nat)
    /\ (forall id, ~ (0 <= id <= n) -> assignments b' id = 0%nat)
    /\ assignments b' 0
       = (if BranchAndBound.iteration b' =? 0 then 1%nat else 2%nat)
    /\ (BranchAndBound.iteration b' = 0 -> n = 0)
    /\ Forall (fun e : Z * string => terminal e.2) (BranchAndBound.statusLog b').
Proof.
  unfold BranchAndBound.solve.
  set (b := BranchAndBound.new obj cons r types isMax intVars).
  destruct (BranchAndBound.solveRoot b) as [b0|st] eqn:Hroot.
  - intros [= <-]. exists 0.
    assert (exists s x, terminal s
              /\ BranchAndBound.statusLog b0 = [(0, s)]
              /\ BranchAndBound.treeNodes b0 = {[0 := x]}
              /\ BranchAndBound.iteration b0 = 0) as (s & x & Hs & Hlog & Htree & Hit).
    { pose proof (solveRoot_cases b) as H.
      destruct (BranchAndBound.solveSubproblem b [] [] [] [] 0%float)
        as [rootSol rootObj].
      rewrite Hroot in H.
      destruct H as [(_ & [= ->])|[(_ & _ & [= ->])|(_ & _ & ?)]]; [| |discriminate].
      - eexists _, _. split; [|split; [reflexivity|split; [|reflexivity]]].
        + unfold terminal. repeat constructor.
        + cbn. by rewrite insert_insert_eq, insert_empty.
      - eexists _, _. split; [|split; [reflexivity|split; [|reflexivity]]].
        + unfold terminal. repeat constructor.
        + cbn. by rewrite !insert_insert_eq, insert_empty. }
    split; [lia|]. split.
    { intros id. rewrite Htree. destruct (decide (id = 0)) as [->|Hne].
      - rewrite lookup_singleton_eq. split; [lia|by eexists].
      - rewrite lookup_singleton_ne by done. split; [by intros [? ?]|lia]. }
    assert (forall id, assignments b0 id = if decide (0 = id) then 1%nat else 0%nat)
      as Hcount.
    { intros id. rewrite assignments_log, Hlog. apply (countId_snoc [] 0 id s). }
    split; [intros; lia|]. split.
    { intros id Hid. rewrite Hcount. destruct (decide (0 = id)); [lia|done]. }
    rewrite Hcount, Hit, Hlog.
    split; [reflexivity|]. split; [done|].
    constructor; [exact Hs|constructor].
  - destruct (BranchAndBound.mainLoop fuel st) as [st'|] eqn:Hloop; [|discriminate].
    intros [= <-].
    destruct (logDiscipline_end obj cons r types isMax intVars fuel st st' Hroot Hloop)
      as (Hinv & _ & Hit).
    exists (BranchAndBound.l_counter st').
    destruct Hinv as [_ Hc Hdom Honce Hrootc Hnone Hterm _ _ _].
    repeat (split; [assumption|]). split; [lia|assumption].
Qed.

(** A run of the theorem above on the pure-ILP scenario. *)
Lemma status_writes_witness :
  exists n,
    0 <= n
    /\ (forall id,
          is_Some (BranchAndBound.treeNodes
                     (default ilp_scenario (BranchAndBound.solve 11 ilp_scenario))
                   !! id) <-> 0 <= id <= n)
    /\ (forall id, 1 <= id <= n ->
          assignments (default ilp_scenario (BranchAndBound.solve 11 ilp_scenario)) id
          = 1%nat)
    /\ (forall id, ~ (0 <= id <= n) ->
          assignments (default ilp_scenario (BranchAndBound.solve 11 ilp_scenario)) id
          = 0%nat)
    /\ assignments (default ilp_scenario (BranchAndBound.solve 11 ilp_scenario)) 0
       = (if BranchAndBound.iteration
               (default ilp_scenario (BranchAndBound.solve 11 ilp_scenario)) =? 0
          then 1%nat else 2%nat)
    /\ (BranchAndBound.iteration
          (default ilp_scenario (BranchAndBound.solve 11 ilp_scenario)) = 0 -> n = 0)
    /\ Forall (fun e : Z * string => terminal e.2)
         (BranchAndBound.statusLog
            (default ilp_scenario (BranchAndBound.solve 11 ilp_scenario))).
Proof.
  apply (status_writes [5; 4]%float [[1; 1]; [10; 6]]%float [5; 45]%float
           [1; 1] true [0; 1] 11).
  vm_compute. reflexivity.
Defined.

(** ** Nodes and iterations *)

Section Counting.
Import BranchAndBound.

Lemma size_of_range {A} (m : gmap Z A) (n : Z) :
  0 <= n ->
  (forall id, is_Some (m !! id) <-> 0 <= id <= n) ->
  Z.of_nat (size m) = n + 1.
Proof.
  intros Hn Hdom.
  assert (dom m = list_to_set (seqZ 0 (n + 1)) :> gset Z) as Hd.
  { apply set_eq. intros x.
    rewrite elem_of_dom, elem_of_list_to_set, elem_of_seqZ, Hdom. lia. }
  rewrite <-size_dom, Hd, size_list_to_set by apply NoDup_seqZ.
  rewrite length_seqZ. lia.
Qed.

Lemma iteration_counter_iterate (st : loop_state) :
  logDiscipline st -> l_queue st <> [] ->
  iteration (l_obj st) = 0 \/ iteration (l_obj st) = l_counter st + 1 ->
  iteration (l_obj (iterate st)) = l_counter (iterate st) + 1.
Proof.
  intros Hinv Hne Hrel.
  destruct (iterate_process st Hinv Hne)
    as (current & rest & sol & obj & _ & _ & _ & _ & Hcase).
  pose proof (ld_depths st Hinv) as Hd.
  destruct Hcase as [(H0 & _ & _ & ->)|(H1 & _ & ->)].
  - match goal with
    | |- context [processNode ?b ?q ?c ?cur ?id ?s ?o] =>
        destruct (processNode_effect b q c cur id s o) as (-> & -> & _)
    end.
    rewrite H0 in Hd. simpl in Hd. destruct Hd as [-> _]. simpl. lia.
  - match goal with
    | |- context [processNode ?b ?q ?c ?cur ?id ?s ?o] =>
        destruct (processNode_effect b q c cur id s o) as (-> & -> & _)
    end.
    destruct (registerNode_frame'
                (with_iteration (l_obj st) (iteration (l_obj st) + 1))
                current (l_counter st + 1) sol obj) as (_ & _ & -> & _).
    simpl. lia.
Qed.

Lemma counting_end (obj : list double) (cons : list (list double))
    (r : list double) (types : list Z) (isMax : bool) (intVars : list Z)
    (fuel : nat) (st st' : loop_state) :
  solveRoot (new obj cons r types isMax intVars) = inr st ->
  mainLoop fuel st = Some st' ->
  1 <= iteration (l_obj st')
  /\ Z.of_nat (size (treeNodes (l_obj st'))) = iteration (l_obj st').
Proof.
  intros Hroot Hloop.
  destruct (mainLoop_inv
              (fun s => logDiscipline s
                        /\ (iteration (l_obj s) = 0
                            \/ iteration (l_obj s) = l_counter s + 1))
              fuel st st') as [[Hinv Hrel] Hq].
  - intros s [Hs Hr] Hne. split; [by apply logDiscipline_iterate|].
    right. by apply iteration_counter_iterate.
  - split; [by eapply logDiscipline_start|]. left.
    pose proof (solveRoot_cases (new obj cons r types isMax intVars)) as H.
    destruct (solveSubproblem _ [] [] [] [] 0%float) as [rootSol rootObj].
    rewrite Hroot in H.
    by destruct H as [(_ & ?)|[(_ & _ & ?)|(_ & _ & [= ->])]].
  - exact Hloop.
  - destruct (logDiscipline_end obj cons r types isMax intVars fuel st st' Hroot Hloop)
      as (_ & _ & Hit).
    split; [exact Hit|].
    rewrite (size_of_range _ (l_counter st'));
      [lia|apply (ld_counter _ Hinv)|apply (ld_dom _ Hinv)].
Qed.

End Counting.

Section Counts.
Import BranchAndBound.

(** When [solve] returns before the main loop, only the root was written. *)
Lemma solveRoot_inl (b b0 : t) :
  solveRoot b = inl b0 ->
  exists s x,
    terminal s
    /\ statusLog b0 = statusLog b ++ [(0, s)]
    /\ treeNodes b0 = <[0 := x]> (treeNodes b)
    /\ iteration b0 = iteration b.
Proof.
  intros Hroot. pose proof (solveRoot_cases b) as H.
  destruct (solveSubproblem b [] [] [] [] 0%float) as [rootSol rootObj].
  rewrite Hroot in H.
  destruct H as [(_ & [= ->])|[(_ & _ & [= ->])|(_ & _ & ?)]]; [| |discriminate].
  - eexists _, _. split; [|split; [reflexivity|split; [|reflexivity]]].
    + unfold terminal. repeat constructor.
    + cbn. by rewrite insert_insert_eq.
  - eexists _, _. split; [|split; [reflexivity|split; [|reflexivity]]].
    + unfold terminal. repeat constructor.
    + cbn. by rewrite !insert_insert_eq.
Qed.

(** The two ways [solve] can finish. *)
Lemma solve_inv (fuel : nat) (b b' : t) :
  solve fuel b = Some b' ->
  solveRoot b = inl b'
  \/ exists st st', solveRoot b = inr st /\ mainLoop fuel st = Some st'
                    /\ b' = l_obj st'.
Proof.
  unfold solve. destruct (solveRoot b) as [b0|st].
  - intros [= ->]. by left.
  - destruct (mainLoop fuel st) as [st'|] eqn:Hloop; [|discriminate].
    intros [= <-]. right. by exists st, st'.
Qed.

Lemma solve_counts (obj : list double) (cons : list (list double))
    (r : list double) (types : list Z) (isMax : bool) (intVars : list Z)
    (fuel : nat) (b' : t) :
  solve fuel (new obj cons r types isMax intVars) = Some b' ->
  (iteration b' = 0 /\ Z.of_nat (size (treeNodes b')) = 1)
  \/ (1 <= iteration b' /\ Z.of_nat (size (treeNodes b')) = iteration b').
Proof.
  intros Hsolve.
  destruct (solve_inv _ _ _ Hsolve) as [Hroot|(st & st' & Hroot & Hloop & ->)].
  - left.
    destruct (solveRoot_inl _ _ Hroot) as (s & x & _ & _ & Htree & Hit).
    rewrite Htree, Hit. split; [reflexivity|].
    change (treeNodes (new obj cons r types isMax intVars))
      with (∅ : gmap Z TreeNode).
    by rewrite insert_empty, map_size_singleton.
  - right.
    by apply (counting_end obj cons r types isMax intVars fuel st st').
Qed.

End Counts.

(** X10.  Whenever a finished search prints a final solution, the two
    counts it prints agree with the course of the search: either the root
    relaxation was already integral and it prints 1 node explored and 0
    iterations, or the main loop ran and "Nodes Explored" equals
    "Iterations", because every pass registers or revisits exactly one
    node. *)
Theorem printed_counts (obj : list double) (cons : list (list double))
    (r : list double) (types : list Z) (isMax : bool) (intVars : list Z)
    (fuel : nat) (b' : BranchAndBound.t) (rep : BranchAndBound.report) :
  BranchAndBound.solve fuel (BranchAndBound.new obj cons r types isMax intVars)
  = Some b' ->
  BranchAndBound.displayFinalSolution b' = Some rep ->
  (BranchAndBound.r_iterations rep = 0 /\ BranchAndBound.r_nodes rep = 1)
  \/ (1 <= BranchAndBound.r_iterations rep
      /\ BranchAndBound.r_nodes rep = BranchAndBound.r_iterations rep).
Proof.
  intros Hsolve Hrep.
  assert (BranchAndBound.r_nodes rep
          = Z.of_nat (size (BranchAndBound.treeNodes b'))
          /\ BranchAndBound.r_iterations rep = BranchAndBound.iteration b')
    as [-> ->].
  { unfold BranchAndBound.displayFinalSolution in Hrep.
    destruct (BranchAndBound.bestSolution b'); [discriminate|].
    by injection Hrep as <-. }
  by apply (solve_counts obj cons r types isMax intVars fuel).
Qed.

(** A run of the theorem above on the pure-ILP scenario: 11 and 11. *)
Lemma printed_counts_witness :
  (BranchAndBound.r_iterations (BranchAndBound.mkReport 11 11 [inl 3; inl 2] 23%float) = 0
   /\ BranchAndBound.r_nodes (BranchAndBound.mkReport 11 11 [inl 3; inl 2] 23%float) = 1)
  \/ (1 <= BranchAndBound.r_iterations
             (BranchAndBound.mkReport 11 11 [inl 3; inl 2] 23%float)
      /\ BranchAndBound.r_nodes (BranchAndBound.mkReport 11 11 [inl 3; inl 2] 23%float)
         = BranchAndBound.r_iterations
             (BranchAndBound.mkReport 11 11 [inl 3; inl 2] 23%float)).
Proof.
  apply (printed_counts [5; 4]%float [[1; 1]; [10; 6]]%float [5; 45]%float
           [1; 1] true [0; 1] 11
           (default ilp_scenario (BranchAndBound.solve 11 ilp_scenario))).
  - vm_compute. reflexivity.
  - vm_compute. reflexivity.
Defined.

(** ** Structure of the tree *)

Section TreeShape.
Import BranchAndBound.

Lemma shapeOf_node (b : t) (id : Z) (sh : shape) :
  shapes b !! id = Some sh -> shapeOf (node b id) = sh.
Proof.
  unfold shapes, node. rewrite lookup_fmap.
  destruct (treeNodes b !! id); simpl; congruence.
Qed.

Lemma shapes_assign_status (b : t) (id : Z) (s : string) :
  shapes (assign_status b id s)
  = <[id := withStatus (shapeOf (node b id)) s]> (shapes b).
Proof. unfold shapes, assign_status, put_node. simpl. by rewrite fmap_insert. Qed.

Lemma shapes_updateBest (b : t) (id : Z) (sol : list double) (obj : double) :
  shapes (updateBest b id sol obj) = shapes b.
Proof.
  unfold shapes, updateBest, markOptimal. simpl. apply map_eq. intros j.
  rewrite !lookup_fmap, map_lookup_imap.
  by destruct (treeNodes b !! j).
Qed.

Lemma shapes_registerNode (b : t) (current : QueueItem) (id : Z)
    (sol : list double) (obj : double) (shp : shape) :
  q_parentId current <> id ->
  shapes b !! q_parentId current = Some shp ->
  shapes (registerNode b current id sol obj)
  = <[q_parentId current := addChild shp id]>
      (<[id := mkShape id (q_parentId current) (q_depth current) EmptyString (-1) (-1)]>
         (shapes b)).
Proof.
  intros Hne Hp. unfold registerNode.
  set (nd := set_result _ sol obj).
  assert (node (put_node b id nd) (q_parentId current) = node b (q_parentId current))
    as Hnode.
  { unfold node, put_node. simpl. by rewrite lookup_insert_ne. }
  rewrite Hnode.
  pose proof (shapeOf_node b _ _ Hp) as Hsh.
  assert (leftChild (node b (q_parentId current)) = s_left shp) as Hleft
      by (by rewrite <-Hsh).
  unfold addChild. rewrite <-Hleft.
  destruct (leftChild (node b (q_parentId current)) =? -1);
    unfold shapes, put_node; simpl; rewrite !fmap_insert; f_equal;
    rewrite <-Hsh; reflexivity.
Qed.

(** How [processNode] leaves shapes and queue. *)
Lemma processNode_shapes (b : t) (queue : list QueueItem) (counter : Z)
    (current : QueueItem) (id : Z) (sol : list double) (obj : double) :
  let r := processNode b queue counter current id sol obj in
  exists s,
    terminal s
    /\ shapes (l_obj r) = <[id := withStatus (shapeOf (node b id)) s]> (shapes b)
    /\ ((s <> "BRANCHED"%string /\ l_queue r = queue)
        \/ (s = "BRANCHED"%string
            /\ l_queue r = queue ++ children b current id sol obj)).
Proof.
  intros r. subst r.
  destruct (processNode_cases b queue counter current id sol obj)
    as (_ & [(_ & -> & ->)|[(_ & _ & -> & ->)|[(_ & _ & _ & _ & -> & ->)
              |[(_ & _ & _ & _ & -> & ->)|(_ & _ & _ & -> & ->)]]]]).
  - exists "INFEASIBLE"%string. split; [unfold terminal; repeat constructor|].
    split; [apply shapes_assign_status|by left].
  - exists "PRUNED"%string. split; [unfold terminal; repeat constructor|].
    split; [apply shapes_assign_status|by left].
  - exists "INTEGER"%string. split; [unfold terminal; repeat constructor|].
    split; [apply shapes_assign_status|by left].
  - exists "INTEGER"%string. split; [unfold terminal; repeat constructor|].
    split; [by rewrite shapes_updateBest, shapes_assign_status|by left].
  - exists "BRANCHED"%string. split; [unfold terminal; repeat constructor|].
    split; [apply shapes_assign_status|by right].
Qed.

Lemma pending_app (q1 q2 : list QueueItem) (id : Z) :
  pending (q1 ++ q2) id = (pending q1 id + pending q2 id)%nat.
Proof. unfold pending. by rewrite filter_app, length_app. Qed.

Lemma pending_cons (item : QueueItem) (q : list QueueItem) (id : Z) :
  pending (item :: q) id
  = if decide (q_parentId item = id /\ 1 <= q_depth item)
    then Datatypes.S (pending q id) else pending q id.
Proof.
  unfold pending. rewrite filter_cons.
  by destruct (decide (q_parentId item = id /\ 1 <= q_depth item)).
Qed.

Lemma pending_perm (q1 q2 : list QueueItem) (id : Z) :
  q1 ≡ₚ q2 -> pending q1 id = pending q2 id.
Proof. intros H. unfold pending. by rewrite H. Qed.

Lemma pending_sorted (st : loop_state) (id : Z) :
  pending (sortedQueue st) id = pending (l_queue st) id.
Proof.
  apply pending_perm. unfold sortedQueue.
  destruct (isMaximization (l_obj st)); apply sort_perm.
Qed.

Lemma pending_none (q : list QueueItem) (id : Z) :
  Forall (fun item => q_parentId item <> id) q -> pending q id = 0%nat.
Proof.
  induction 1 as [|item q Hitem _ IH]; [reflexivity|].
  rewrite pending_cons, IH. by destruct (decide _) as [[? _]|].
Qed.

Lemma pending_children (b : t) (current : QueueItem) (id : Z)
    (sol : list double) (obj : double) (j : Z) :
  0 <= q_depth current ->
  pending (children b current id sol obj) j = if decide (id = j) then 2%nat else 0%nat.
Proof.
  intros Hd. unfold children.
  destruct (findBranchingVariable b sol) as [varIdx fracVal].
  rewrite !pending_cons. simpl.
  destruct (decide (id = j)) as [->|Hne].
  - destruct (decide (j = j /\ 1 <= q_depth current + 1)) as [|Hn]; [reflexivity|].
    exfalso. apply Hn. split; [done|lia].
  - by destruct (decide (id = j /\ 1 <= q_depth current + 1)) as [[? _]|].
Qed.

End TreeShape.

Section TreeStep.
Import BranchAndBound.

(** What one pass does to shapes and queue: the first pass rewrites the
    root's status, any later pass links a fresh node to its parent. *)
Lemma iterate_shapes (st : loop_state) :
  logDiscipline st -> treeShape st -> l_queue st <> [] ->
  exists current rest s ch,
    sortedQueue st = current :: rest
    /\ terminal s
    /\ iteration (l_obj (iterate st)) = iteration (l_obj st) + 1
    /\ l_queue (iterate st) = rest ++ ch
    /\ ((s <> "BRANCHED"%string /\ ch = [])
        \/ (s = "BRANCHED"%string
            /\ (forall j, pending ch j
                          = if decide ((if 0 <? q_depth current
                                        then l_counter st + 1 else 0) = j)
                            then 2%nat else 0%nat)
            /\ Forall (fun item =>
                         q_parentId item
                         = (if 0 <? q_depth current then l_counter st + 1 else 0)
                         /\ q_depth item = q_depth current + 1) ch))
    /\ ((iteration (l_obj st) = 0 /\ q_depth current = 0 /\ rest = []
         /\ l_counter st = 0
         /\ exists sh0,
              shapes (l_obj st) !! 0 = Some sh0
              /\ shapes (l_obj (iterate st))
                 = <[0 := withStatus sh0 s]> (shapes (l_obj st)))
        \/ (1 <= iteration (l_obj st) /\ 1 <= q_depth current
            /\ 0 <= q_parentId current <= l_counter st
            /\ exists shp,
                 shapes (l_obj st) !! q_parentId current = Some shp
                 /\ q_depth current = s_depth shp + 1
                 /\ s_status shp = "BRANCHED"%string
                 /\ shapes (l_obj (iterate st))
                    = <[l_counter st + 1 :=
                          mkShape (l_counter st + 1) (q_parentId current)
                                  (q_depth current) s (-1) (-1)]>
                        (<[q_parentId current := addChild shp (l_counter st + 1)]>
                           (shapes (l_obj st))))).
Proof.
  intros Hld Hts Hne.
  destruct (iterate_process st Hld Hne)
    as (current & rest & sol & obj & Hs & Hin & Hrest & Hsolve & Hcase).
  set (b1 := with_iteration (l_obj st) (iteration (l_obj st) + 1)) in *.
  assert (shapes b1 = shapes (l_obj st)) as Hb1 by reflexivity.
  destruct Hcase as [(H0 & Hd0 & -> & Hit)|(H1 & Hd1 & Hit)].
  - (* first pass *)
    destruct (processNode_shapes b1 [] (l_counter st) current 0 sol obj)
      as (s & Hterm & Hsh & Hq).
    destruct (processNode_effect b1 [] (l_counter st) current 0 sol obj)
      as (_ & Hiter & _).
    rewrite <-Hit in Hsh, Hq, Hiter.
    pose proof (ld_depths st Hld) as Hdep. rewrite H0 in Hdep. simpl in Hdep.
    destruct Hdep as (Hc0 & _).
    assert (is_Some (shapes (l_obj st) !! 0)) as [sh0 Hsh0].
    { unfold shapes. rewrite lookup_fmap. apply fmap_is_Some.
      apply (ld_dom st Hld). lia. }
    assert (shapeOf (node b1 0) = sh0) as Hnode by (by apply shapeOf_node).
    rewrite Hnode, Hb1 in Hsh.
    exists current, [], s.
    destruct Hq as [(Hnb & Hq)|(Hb & Hq)].
    + exists []. rewrite Hd0. simpl.
      repeat (split; [first [done|by left]|]).
      left. repeat (split; [done|]). by exists sh0.
    + exists (children b1 current 0 sol obj). rewrite Hd0. simpl.
      split; [done|]. split; [done|]. split; [done|]. split; [done|]. split.
      * right. split; [done|]. split.
        -- intros j. apply pending_children. lia.
        -- eapply Forall_impl; [apply children_fields|]. simpl.
           intros q (-> & -> & _). split; [done|lia].
      * left. repeat (split; [done|]). by exists sh0.
  - (* later passes *)
    set (id := l_counter st + 1) in *.
    assert (0 <= q_parentId current <= l_counter st) as Hp.
    { pose proof (ld_parents st Hld) as Hpar.
      rewrite List.Forall_forall in Hpar. by apply Hpar, list_elem_of_In. }
    assert (exists shp, shapes (l_obj st) !! q_parentId current = Some shp
                        /\ q_depth current = s_depth shp + 1
                        /\ s_status shp = "BRANCHED"%string)
      as (shp & Hshp & Hdepth & Hstat).
    { pose proof (ts_queue st Hts) as Hq.
      rewrite List.Forall_forall in Hq. apply Hq; [by apply list_elem_of_In|done]. }
    set (b2 := registerNode b1 current id sol obj) in *.
    assert (shapes b2
            = <[q_parentId current := addChild shp id]>
                (<[id := mkShape id (q_parentId current) (q_depth current)
                           EmptyString (-1) (-1)]> (shapes (l_obj st)))) as Hb2.
    { subst b2. rewrite (shapes_registerNode b1 current id sol obj shp);
        [by rewrite Hb1|lia|by rewrite Hb1]. }
    destruct (processNode_shapes b2 rest id current id sol obj)
      as (s & Hterm & Hsh & Hq).
    destruct (processNode_effect b2 rest id current id sol obj)
      as (_ & Hiter & _).
    destruct (registerNode_frame' b1 current id sol obj) as (_ & _ & Hit2 & _).
    fold b2 in Hit2. rewrite Hit2 in Hiter.
    rewrite <-Hit in Hsh, Hq, Hiter.
    assert (shapeOf (node b2 id)
            = mkShape id (q_parentId current) (q_depth current) EmptyString (-1) (-1))
      as Hnode.
    { apply shapeOf_node. rewrite Hb2.
      rewrite lookup_insert_ne by lia. by rewrite lookup_insert_eq. }
    rewrite Hnode, Hb2 in Hsh.
    rewrite (insert_insert_ne _ (q_parentId current) id) in Hsh by lia.
    rewrite insert_insert_eq in Hsh.
    assert ((0 <? q_depth current) = true) as Hpos by (apply Z.ltb_lt; lia).
    exists current, rest, s.
    destruct Hq as [(Hnb & Hq)|(Hb & Hq)].
    + exists []. rewrite Hpos, app_nil_r.
      split; [done|]. split; [done|]. split; [done|]. split; [done|].
      split; [by left|]. right. repeat (split; [done|]). by exists shp.
    + exists (children b2 current id sol obj). rewrite Hpos.
      split; [done|]. split; [done|]. split; [done|]. split; [done|]. split.
      * right. split; [done|]. split.
        -- intros j. apply pending_children. lia.
        -- eapply Forall_impl; [apply children_fields|]. simpl.
           intros q (-> & -> & _). done.
      * right. repeat (split; [done|]). by exists shp.
Qed.

End TreeStep.

Section TreeInvariant.
Import BranchAndBound.

Lemma lookup_two (m : gmap Z shape) (id p : Z) (a c : shape) (j : Z) (sh : shape) :
  p <> id ->
  <[id := a]> (<[p := c]> m) !! j = Some sh ->
  (j = id /\ sh = a) \/ (j = p /\ sh = c) \/ (j <> id /\ j <> p /\ m !! j = Some sh).
Proof.
  intros Hne. rewrite !lookup_insert.
  destruct (decide (id = j)) as [->|?]; [intros [= ->]; by left|].
  destruct (decide (p = j)) as [->|?]; [intros [= ->]; right; by left|].
  intros H. right. right. by repeat split.
Qed.

Lemma lookup_two_other (m : gmap Z shape) (id p : Z) (a c : shape) (j : Z) :
  j <> id -> j <> p -> <[id := a]> (<[p := c]> m) !! j = m !! j.
Proof. intros. by rewrite !lookup_insert_ne. Qed.

Lemma lookup_two_parent (m : gmap Z shape) (id p : Z) (a c : shape) :
  p <> id -> <[id := a]> (<[p := c]> m) !! p = Some c.
Proof. intros. by rewrite lookup_insert_ne, lookup_insert_eq. Qed.

Lemma addChild_fields (sh : shape) (c : Z) :
  s_id (addChild sh c) = s_id sh /\ s_parent (addChild sh c) = s_parent sh
  /\ s_depth (addChild sh c) = s_depth sh /\ s_status (addChild sh c) = s_status sh.
Proof. unfold addChild. by destruct (s_left sh =? -1). Qed.

Lemma addChild_links (sh : shape) (c : Z) :
  (s_left sh = -1 /\ s_left (addChild sh c) = c
   /\ s_right (addChild sh c) = s_right sh)
  \/ (s_left sh <> -1 /\ s_left (addChild sh c) = s_left sh
      /\ s_right (addChild sh c) = c).
Proof.
  unfold addChild. destruct (Z.eqb_spec (s_left sh) (-1)); [left|right]; by simpl.
Qed.

Lemma slots_addChild (sh : shape) (c : Z) :
  s_right sh = -1 -> c <> -1 -> slots (addChild sh c) = Datatypes.S (slots sh).
Proof.
  intros Hr Hc. unfold slots.
  destruct (addChild_links sh c) as [(Hl & -> & ->)|(Hl & -> & ->)]; rewrite Hr.
  - rewrite Hl. destruct (decide (c = -1)); [done|].
    by destruct (decide (-1 = -1)).
  - destruct (decide (s_left sh = -1)); [done|].
    destruct (decide (c = -1)); [done|]. by destruct (decide (-1 = -1)).
Qed.

Lemma slots_zero (sh : shape) : slots sh = 0%nat -> s_left sh = -1 /\ s_right sh = -1.
Proof.
  unfold slots. destruct (decide (s_left sh = -1)), (decide (s_right sh = -1));
    simpl; intros; (done || lia).
Qed.

Lemma slots_le_one (sh : shape) :
  (slots sh <= 1)%nat -> (s_right sh <> -1 -> s_left sh <> -1) -> s_right sh = -1.
Proof.
  unfold slots. destruct (decide (s_left sh = -1)), (decide (s_right sh = -1));
    simpl; intros H1 H2; try done; try lia.
Qed.

Lemma shapes_dom (st : loop_state) (j : Z) (sh : shape) :
  logDiscipline st -> shapes (l_obj st) !! j = Some sh -> 0 <= j <= l_counter st.
Proof.
  intros Hld Hj. apply (ld_dom st Hld). unfold shapes in Hj.
  rewrite lookup_fmap in Hj. destruct (treeNodes (l_obj st) !! j); [by eexists|done].
Qed.

End TreeInvariant.

Section TreePreserved.
Import BranchAndBound.

Lemma treeShape_first_pass (st : loop_state) (current : QueueItem)
    (s : string) (ch : list QueueItem) (sh0 : shape) :
  logDiscipline st -> treeShape st ->
  sortedQueue st = [current] ->
  iteration (l_obj st) = 0 -> q_depth current = 0 -> l_counter st = 0 ->
  iteration (l_obj (iterate st)) = iteration (l_obj st) + 1 ->
  l_queue (iterate st) = [] ++ ch ->
  ((s <> "BRANCHED"%string /\ ch = [])
   \/ (s = "BRANCHED"%string
       /\ (forall j, pending ch j = if decide (0 = j) then 2%nat else 0%nat)
       /\ Forall (fun item => q_parentId item = 0 /\ q_depth item = 0 + 1) ch)) ->
  shapes (l_obj st) !! 0 = Some sh0 ->
  shapes (l_obj (iterate st)) = <[0 := withStatus sh0 s]> (shapes (l_obj st)) ->
  treeShape (iterate st).
Proof.
  intros Hld Hts Hs H0 Hd0 Hc0 Hit Hq Hch Hsh0 Hsh.
  assert (forall j sh, shapes (l_obj st) !! j = Some sh -> j = 0) as Honly.
  { intros j sh Hj. pose proof (shapes_dom st j sh Hld Hj). lia. }
  destruct (ts_node st Hts 0 sh0 Hsh0) as (Hid0 & _ & Hroot0 & _).
  destruct (Hroot0 eq_refl) as [Hpar0 Hdep0].
  destruct (ts_two st Hts 0 sh0 Hsh0) as (Htwo0 & _ & _).
  destruct (decide (s_status sh0 = "BRANCHED"%string
                    /\ (0 = 0 -> iteration (l_obj st) <> 0))) as [[_ Hbad]|_];
    [by exfalso; apply Hbad|].
  assert (slots sh0 = 0%nat) as Hslots by lia.
  destruct (slots_zero sh0 Hslots) as [Hl0 Hr0].
  assert (forall j sh, shapes (l_obj (iterate st)) !! j = Some sh ->
                       j = 0 /\ sh = withStatus sh0 s) as Hnew.
  { intros j sh. rewrite Hsh, lookup_insert.
    destruct (decide (0 = j)) as [<-|Hne]; [by intros [= <-]|].
    intros Hj. by pose proof (Honly j sh Hj). }
  assert (forall j, pending ch j
                    = if decide (s = "BRANCHED"%string /\ 0 = j) then 2%nat else 0%nat)
    as Hpend.
  { intros j. destruct Hch as [(Hnb & ->)|(-> & Hp & _)].
    - by destruct (decide _) as [[? _]|].
    - rewrite Hp. destruct (decide (0 = j)) as [->|Hne].
      + by destruct (decide _) as [|Hn]; [|exfalso; apply Hn].
      + by destruct (decide _) as [[_ ?]|]. }
  split.
  - intros j sh Hj. destruct (Hnew j sh Hj) as [-> ->]. simpl.
    split; [done|]. split; [lia|]. split; [done|]. lia.
  - intros j sh Hj. destruct (Hnew j sh Hj) as [-> ->].
    rewrite Hq, Hit, H0. simpl. rewrite Hpend.
    split; [|split; simpl; rewrite ?Hl0, ?Hr0; done].
    change (slots (withStatus sh0 s)) with (slots sh0). rewrite Hslots. simpl.
    destruct (decide (s = "BRANCHED"%string /\ 0 = 0)) as [[Hb _]|Hnb];
      destruct (decide (s = "BRANCHED"%string /\ (0 = 0 -> 0 + 1 <> 0)))
        as [[Hb' _]|Hnb']; try done.
    + exfalso. apply Hnb'. split; [done|lia].
    + exfalso. apply Hnb. by split.
  - intros j sh c Hj Hc Hne. destruct (Hnew j sh Hj) as [-> ->]. simpl in Hc.
    rewrite Hl0, Hr0 in Hc. by destruct Hc.
  - rewrite Hq. simpl. destruct Hch as [(_ & ->)|(-> & _ & Hall)]; [constructor|].
    eapply Forall_impl; [exact Hall|]. simpl. intros item (Hp & Hd) _.
    exists (withStatus sh0 "BRANCHED"). rewrite Hp, Hsh, lookup_insert_eq.
    split; [done|]. simpl. split; [lia|done].
Qed.

Lemma treeShape_later_pass (st : loop_state) (current : QueueItem)
    (rest : list QueueItem) (s : string) (ch : list QueueItem) (shp : shape) :
  logDiscipline st -> treeShape st ->
  sortedQueue st = current :: rest ->
  1 <= iteration (l_obj st) -> 1 <= q_depth current ->
  0 <= q_parentId current <= l_counter st ->
  iteration (l_obj (iterate st)) = iteration (l_obj st) + 1 ->
  l_queue (iterate st) = rest ++ ch ->
  ((s <> "BRANCHED"%string /\ ch = [])
   \/ (s = "BRANCHED"%string
       /\ (forall j, pending ch j
                     = if decide (l_counter st + 1 = j) then 2%nat else 0%nat)
       /\ Forall (fun item => q_parentId item = l_counter st + 1
                              /\ q_depth item = q_depth current + 1) ch)) ->
  shapes (l_obj st) !! q_parentId current = Some shp ->
  q_depth current = s_depth shp + 1 ->
  s_status shp = "BRANCHED"%string ->
  shapes (l_obj (iterate st))
  = <[l_counter st + 1 :=
        mkShape (l_counter st + 1) (q_parentId current) (q_depth current) s (-1) (-1)]>
      (<[q_parentId current := addChild shp (l_counter st + 1)]>
         (shapes (l_obj st))) ->
  treeShape (iterate st).
Proof.
  intros Hld Hts Hs Hit1 Hd1 Hp Hit Hq Hch Hshp Hdepth Hstat Hsh.
  set (id := l_counter st + 1) in *.
  set (p := q_parentId current) in *.
  set (m := shapes (l_obj st)) in *.
  set (nsh := mkShape id p (q_depth current) s (-1) (-1)) in *.
  assert (p <> id) as Hpid by lia.
  assert (forall j sh, m !! j = Some sh -> 0 <= j <= l_counter st) as Hdom
      by (intros j sh; apply shapes_dom, Hld).
  (* the queue before the pass, seen through the sort *)
  assert (forall j, pending (l_queue st) j
                    = if decide (p = j) then Datatypes.S (pending rest j)
                      else pending rest j) as Hpq.
  { intros j. rewrite <-pending_sorted, Hs, pending_cons. fold p.
    destruct (decide (p = j)) as [->|Hne].
    - by destruct (decide (j = j /\ 1 <= q_depth current)) as [|Hn];
        [|exfalso; apply Hn].
    - by destruct (decide (p = j /\ 1 <= q_depth current)) as [[? _]|]. }
  assert (Forall (fun item => item ∈ l_queue st) rest) as Hrest.
  { apply List.Forall_forall. intros item Hitem.
    apply elem_of_sortedQueue. rewrite Hs. right. by apply list_elem_of_In. }
  assert (pending rest id = 0%nat) as Hrest_id.
  { apply pending_none. pose proof (ld_parents st Hld) as Hpar.
    rewrite List.Forall_forall in Hpar, Hrest |- *. intros item Hitem.
    specialize (Hpar item (proj1 (list_elem_of_In _ _) (Hrest item Hitem))). lia. }
  assert (forall j, pending ch j
                    = if decide (s = "BRANCHED"%string /\ id = j) then 2%nat else 0%nat)
    as Hpend.
  { intros j. destruct Hch as [(Hnb & ->)|(-> & Hpc & _)].
    - by destruct (decide _) as [[? _]|].
    - rewrite Hpc. destruct (decide (id = j)) as [->|Hne].
      + by destruct (decide _) as [|Hn]; [|exfalso; apply Hn].
      + by destruct (decide _) as [[_ ?]|]. }
  (* the parent has a free link *)
  destruct (ts_two st Hts p shp Hshp) as (Htwo & Hrl & Hlr).
  destruct (decide (s_status shp = "BRANCHED"%string
                    /\ (p = 0 -> iteration (l_obj st) <> 0))) as [_|Hn];
    [|exfalso; apply Hn; split; [done|lia]].
  rewrite Hpq in Htwo. destruct (decide (p = p)) as [_|]; [|done].
  assert (s_right shp = -1) as Hright by (apply slots_le_one; [lia|done]).
  assert (slots (addChild shp id) = Datatypes.S (slots shp)) as Hslots
      by (apply slots_addChild; [done|lia]).
  destruct (addChild_fields shp id) as (Haid & Hapar & Hadep & Hastat).
  assert (s_left shp <> -1 -> s_left shp <> id) as Hleft_old.
  { intros Hl. destruct (ts_links st Hts p shp (s_left shp) Hshp) as (_ & shc & Hc & _);
      [by left|done|]. pose proof (Hdom _ _ Hc). lia. }
  split.
  - (* ts_node *)
    intros j sh Hj. rewrite Hsh in Hj.
    destruct (lookup_two m id p nsh _ j sh Hpid Hj)
      as [(-> & ->)|[(-> & ->)|(Hjid & Hjp & Hjm)]].
    + simpl. split; [done|]. split; [lia|]. split; [lia|]. intros _.
      split; [lia|]. exists (addChild shp id).
      rewrite Hsh, lookup_two_parent by done. rewrite Hadep, Hastat.
      split; [done|]. split; [done|]. split; [done|].
      destruct (addChild_links shp id) as [(_ & -> & _)|(_ & _ & ->)]; auto.
    + destruct (ts_node st Hts p shp Hshp) as (H1 & H2 & H3 & H4).
      rewrite Haid, Hapar, Hadep. split; [done|]. split; [done|]. split; [done|].
      intros Hp1. destruct (H4 Hp1) as (Hpp & shpp & Hlook & Hrest').
      split; [done|]. exists shpp. split; [|done].
      rewrite Hsh, lookup_two_other; [done|lia|lia].
    + destruct (ts_node st Hts j sh Hjm) as (H1 & H2 & H3 & H4).
      split; [done|]. split; [done|]. split; [done|].
      intros Hj1. destruct (H4 Hj1) as (Hpp & shpp & Hlook & Hd' & Hst' & Hlink).
      split; [done|]. pose proof (Hdom _ _ Hjm) as Hjr.
      destruct (decide (s_parent sh = p)) as [Hpar|Hpar].
      * exists (addChild shp id). rewrite Hpar in Hlook |- *.
        rewrite Hsh, lookup_two_parent by done.
        assert (shpp = shp) as -> by (apply (inj Some); rewrite <-Hlook; exact Hshp).
        rewrite Hadep, Hastat. split; [done|]. split; [done|]. split; [done|].
        destruct Hlink as [Hl|Hr]; [|lia].
        destruct (addChild_links shp id) as [(Hl' & _)|(_ & -> & _)]; [lia|by left].
      * exists shpp. split; [|done].
        rewrite Hsh, lookup_two_other; [done|lia|done].
  - (* ts_two *)
    intros j sh Hj. rewrite Hsh in Hj. rewrite Hq, pending_app, Hpend, Hit.
    destruct (lookup_two m id p nsh _ j sh Hpid Hj)
      as [(-> & ->)|[(-> & ->)|(Hjid & Hjp & Hjm)]].
    + rewrite Hrest_id. simpl. split; [|done].
      change (slots nsh) with 0%nat.
      destruct (decide (s = "BRANCHED"%string /\ id = id)) as [[Hb _]|Hnb];
        destruct (decide (s = "BRANCHED"%string
                          /\ (id = 0 -> iteration (l_obj st) + 1 <> 0)))
          as [[Hb' _]|Hnb']; try done.
      * exfalso. apply Hnb'. split; [done|lia].
      * exfalso. apply Hnb. by split.
    + rewrite Hslots, Hastat.
      destruct (decide (s = "BRANCHED"%string /\ id = p)) as [[_ ?]|_]; [lia|].
      destruct (decide (s_status shp = "BRANCHED"%string
                        /\ (p = 0 -> iteration (l_obj st) + 1 <> 0))) as [_|Hn];
        [|exfalso; apply Hn; split; [done|lia]].
      split; [lia|].
      destruct (addChild_links shp id) as [(Hl & -> & ->)|(Hl & -> & ->)].
      * split; [lia|]. rewrite Hright. lia.
      * split; [done|]. intros _. by apply Hleft_old.
    + destruct (ts_two st Hts j sh Hjm) as (Htwo' & Hrl' & Hlr').
      split; [|done]. rewrite Hpq in Htwo'.
      destruct (decide (p = j)) as [?|_]; [done|].
      destruct (decide (s = "BRANCHED"%string /\ id = j)) as [[_ ?]|_]; [done|].
      rewrite Nat.add_0_r, Htwo'.
      destruct (decide (s_status sh = "BRANCHED"%string
                        /\ (j = 0 -> iteration (l_obj st) <> 0))) as [[Ha Hb]|Hn];
        destruct (decide (s_status sh = "BRANCHED"%string
                          /\ (j = 0 -> iteration (l_obj st) + 1 <> 0)))
          as [[Ha' Hb']|Hn']; try done.
      * exfalso. apply Hn'. split; [done|lia].
      * exfalso. apply Hn. split; [done|lia].
  - (* ts_links *)
    intros j sh c Hj Hc Hcne. rewrite Hsh in Hj.
    destruct (lookup_two m id p nsh _ j sh Hpid Hj)
      as [(-> & ->)|[(-> & ->)|(Hjid & Hjp & Hjm)]].
    + simpl in Hc. lia.
    + assert (c = id \/ (c <> id /\ (s_left shp = c \/ s_right shp = c))) as [->|[Hcid Hold]].
      { destruct (addChild_links shp id) as [(Hl & Hl' & Hr')|(Hl & Hl' & Hr')];
          rewrite Hl', Hr' in Hc; destruct (decide (c = id)); auto; right;
          split; auto; destruct Hc; auto; congruence. }
      * split; [lia|]. exists nsh. rewrite Hsh, lookup_insert_eq. done.
      * destruct (ts_links st Hts p shp c Hshp Hold Hcne) as (Hlt & shc & Hlc & Hpc).
        split; [done|]. exists shc. split; [|done].
        rewrite Hsh, lookup_two_other; [done|done|lia].
    + destruct (ts_links st Hts j sh c Hjm Hc Hcne) as (Hlt & shc & Hlc & Hpc).
      split; [done|]. pose proof (Hdom _ _ Hlc).
      destruct (decide (c = p)) as [->|Hcp].
      * exists (addChild shp id). rewrite Hsh, lookup_two_parent by done.
        split; [done|]. rewrite Hapar.
        assert (shc = shp) as -> by (apply (inj Some); rewrite <-Hlc; exact Hshp).
        done.
      * exists shc. split; [|done]. rewrite Hsh, lookup_two_other; [done|lia|done].
  - (* ts_queue *)
    rewrite Hq. apply Forall_app. split.
    + pose proof (ts_queue st Hts) as Hold.
      rewrite List.Forall_forall in Hold, Hrest |- *. intros item Hitem Hd.
      destruct (Hold item (proj1 (list_elem_of_In _ _) (Hrest item Hitem)) Hd)
        as (shq & Hlq & Hdq & Hsq).
      pose proof (Hdom _ _ Hlq).
      destruct (decide (q_parentId item = p)) as [Heq|Hne].
      * exists (addChild shp id). rewrite Heq in Hlq |- *.
        rewrite Hsh, lookup_two_parent by done.
        assert (shq = shp) as -> by (apply (inj Some); rewrite <-Hlq; exact Hshp).
        by rewrite Hadep, Hastat.
      * exists shq. split; [|done]. rewrite Hsh, lookup_two_other; [done|lia|done].
    + destruct Hch as [(_ & ->)|(-> & _ & Hall)]; [constructor|].
      eapply Forall_impl; [exact Hall|]. simpl. intros item (Hpi & Hdi) _.
      exists nsh. rewrite Hpi, Hsh, lookup_insert_eq. simpl. done.
Qed.

Lemma treeShape_iterate (st : loop_state) :
  logDiscipline st -> treeShape st -> l_queue st <> [] -> treeShape (iterate st).
Proof.
  intros Hld Hts Hne.
  destruct (iterate_shapes st Hld Hts Hne)
    as (current & rest & s & ch & Hs & _ & Hit & Hq & Hch & Hcase).
  destruct Hcase as [(H0 & Hd0 & -> & Hc0 & sh0 & Hsh0 & Hsh)
                    |(H1 & Hd1 & Hp & shp & Hshp & Hdep & Hst & Hsh)].
  - rewrite Hd0 in Hch. simpl in Hch.
    by apply (treeShape_first_pass st current s ch sh0).
  - assert ((0 <? q_depth current) = true) as Hpos by (apply Z.ltb_lt; lia).
    rewrite Hpos in Hch.
    by apply (treeShape_later_pass st current rest s ch shp).
Qed.

Lemma treeShape_start (obj : list double) (cons : list (list double))
    (r : list double) (types : list Z) (isMax : bool) (intVars : list Z)
    (st : loop_state) :
  solveRoot (new obj cons r types isMax intVars) = inr st -> treeShape st.
Proof.
  set (b := new obj cons r types isMax intVars).
  pose proof (solveRoot_cases b) as H.
  destruct (solveSubproblem b [] [] [] [] 0%float) as [rootSol rootObj].
  destruct H as [(_ & ->)|[(_ & _ & ->)|(_ & _ & ->)]]; try discriminate.
  intros [= <-].
  assert (forall id sh,
            shapes (with_best
                      (assign_status (put_node b 0 (rootNode rootSol rootObj)) 0
                         "BRANCHED") (bestSolution b)
                      (if isMaximization b then (-1e30)%float else 1e30%float))
            !! id = Some sh ->
            id = 0 /\ sh = mkShape 0 (-1) 0 "BRANCHED" (-1) (-1)) as Hone.
  { intros id sh. unfold shapes. cbn. rewrite lookup_fmap, !lookup_insert.
    destruct (decide (0 = id)) as [<-|Hne]; [by intros [= <-]|].
    by rewrite lookup_empty. }
  split; cbn [l_obj l_queue l_counter].
  - intros id sh Hid. destruct (Hone id sh Hid) as [-> ->]. simpl.
    split; [done|]. split; [lia|]. split; [done|]. lia.
  - intros id sh Hid. destruct (Hone id sh Hid) as [-> ->]. simpl.
    split; [|done].
    reflexivity.
  - intros id sh c Hid Hc Hcne. destruct (Hone id sh Hid) as [-> ->].
    simpl in Hc. lia.
  - constructor; [|constructor]. simpl. lia.
Qed.

Lemma treeShape_end (obj : list double) (cons : list (list double))
    (r : list double) (types : list Z) (isMax : bool) (intVars : list Z)
    (fuel : nat) (st st' : loop_state) :
  solveRoot (new obj cons r types isMax intVars) = inr st ->
  mainLoop fuel st = Some st' ->
  logDiscipline st' /\ treeShape st' /\ l_queue st' = []
  /\ 1 <= iteration (l_obj st').
Proof.
  intros Hroot Hloop.
  destruct (mainLoop_inv (fun s => logDiscipline s /\ treeShape s) fuel st st')
    as [[Hld Hts] Hq].
  - intros s [Hs Ht] Hne.
    split; [by apply logDiscipline_iterate|by apply treeShape_iterate].
  - split; [by eapply logDiscipline_start|by eapply treeShape_start].
  - exact Hloop.
  - destruct (logDiscipline_end obj cons r types isMax intVars fuel st st' Hroot Hloop)
      as (_ & _ & Hit).
    done.
Qed.

(** The tree of a search that returned before the main loop: the root
    alone, closed, without children. *)
Lemma solveRoot_inl_shapes (b b0 : t) :
  treeNodes b = ∅ -> solveRoot b = inl b0 ->
  exists s, s <> "BRANCHED"%string
            /\ shapes b0 = {[0 := mkShape 0 (-1) 0 s (-1) (-1)]}.
Proof.
  intros Hempty Hroot. pose proof (solveRoot_cases b) as H.
  destruct (solveSubproblem b [] [] [] [] 0%float) as [rootSol rootObj].
  rewrite Hroot in H.
  destruct H as [(_ & [= ->])|[(_ & _ & [= ->])|(_ & _ & ?)]]; [| |discriminate].
  - exists "INFEASIBLE"%string. split; [done|].
    unfold shapes. cbn. rewrite Hempty, insert_insert_eq, insert_empty.
    by rewrite map_fmap_singleton, node_put_node_eq.
  - exists "INTEGER"%string. split; [done|].
    unfold shapes. cbn. rewrite Hempty, !insert_insert_eq, insert_empty.
    by rewrite map_fmap_singleton, node_assign_status_eq, node_put_node_eq.
Qed.

(** The structure of the tree of any finished search, on shapes. *)
Lemma solve_shapes (obj : list double) (cons : list (list double))
    (r : list double) (types : list Z) (isMax : bool) (intVars : list Z)
    (fuel : nat) (b' : t) :
  solve fuel (new obj cons r types isMax intVars) = Some b' ->
  forall id sh,
    shapes b' !! id = Some sh ->
    s_id sh = id
    /\ (id = 0 -> s_parent sh = -1 /\ s_depth sh = 0)
    /\ (1 <= id ->
        0 <= s_parent sh < id
        /\ exists shp,
             shapes b' !! s_parent sh = Some shp
             /\ s_depth sh = s_depth shp + 1
             /\ s_status shp = "BRANCHED"%string
             /\ (s_left shp = id \/ s_right shp = id))
    /\ (s_status sh = "BRANCHED"%string ->
        s_left sh <> -1 /\ s_right sh <> -1 /\ s_left sh <> s_right sh)
    /\ (s_status sh <> "BRANCHED"%string -> s_left sh = -1 /\ s_right sh = -1)
    /\ (forall c, s_left sh = c \/ s_right sh = c -> c <> -1 ->
          id < c /\ exists shc, shapes b' !! c = Some shc /\ s_parent shc = id).
Proof.
  intros Hsolve id sh Hid.
  destruct (solve_inv _ _ _ Hsolve) as [Hroot|(st & st' & Hroot & Hloop & ->)].
  - destruct (solveRoot_inl_shapes (new obj cons r types isMax intVars) b'
                (eq_refl : treeNodes (new obj cons r types isMax intVars) = ∅) Hroot)
      as (s & Hs & Hsh).
    rewrite Hsh in Hid. apply lookup_singleton_Some in Hid as [<- <-]. simpl.
    split; [done|]. split; [done|]. split; [lia|]. split; [done|].
    split; [done|]. intros c Hc Hcne. lia.
  - destruct (treeShape_end obj cons r types isMax intVars fuel st st' Hroot Hloop)
      as (Hld & Hts & Hq & Hit).
    destruct (ts_node st' Hts id sh Hid) as (H1 & H2 & H3 & H4).
    destruct (ts_two st' Hts id sh Hid) as (Htwo & Hrl & Hlr).
    rewrite Hq in Htwo. change (pending [] id) with 0%nat in Htwo.
    rewrite Nat.add_0_r in Htwo.
    split; [done|]. split; [done|]. split.
    { intros Hid1. destruct (H4 Hid1) as (Hp & Hrest). split; [lia|done]. }
    split; [|split].
    + intros Hb.
      destruct (decide (s_status sh = "BRANCHED"%string
                        /\ (id = 0 -> iteration (l_obj st') <> 0))) as [_|Hn];
        [|exfalso; apply Hn; split; [done|lia]].
      unfold slots in Htwo.
      destruct (decide (s_left sh = -1)), (decide (s_right sh = -1));
        simpl in Htwo; lia.
    + intros Hb.
      destruct (decide (s_status sh = "BRANCHED"%string
                        /\ (id = 0 -> iteration (l_obj st') <> 0))) as [[? _]|_];
        [done|].
      by apply slots_zero.
    + intros c Hc Hcne. by apply (ts_links st' Hts id sh c).
Qed.

End TreePreserved.

(** X11.  The tree a finished search leaves behind is well formed.  Every
    entry is stored under its own [nodeId]; the root has parent -1 and
    depth 0; every other node has a parent with a smaller id that is in the
    tree, has status BRANCHED, lies one level higher and holds the node as
    its left or right child.  A node with status BRANCHED has two different
    children, any other node has none, and each child link leads to a node
    of the tree whose parent is the node itself. *)
Theorem tree_well_formed (obj : list double) (cons : list (list double))
    (r : list double) (types : list Z) (isMax : bool) (intVars : list Z)
    (fuel : nat) (b' : BranchAndBound.t) (id : Z) (nd : TreeNode) :
  BranchAndBound.solve fuel (BranchAndBound.new obj cons r types isMax intVars)
  = Some b' ->
  BranchAndBound.treeNodes b' !! id = Some nd ->
  nodeId nd = id
  /\ (id = 0 -> n_parentId nd = -1 /\ n_depth nd = 0)
  /\ (1 <= id ->
      0 <= n_parentId nd < id
      /\ exists pn,
           BranchAndBound.treeNodes b' !! n_parentId nd = Some pn
           /\ n_depth nd = n_depth pn + 1
           /\ status pn = "BRANCHED"%string
           /\ (leftChild pn = id \/ rightChild pn = id))
  /\ (status nd = "BRANCHED"%string ->
      leftChild nd <> -1 /\ rightChild nd <> -1 /\ leftChild nd <> rightChild nd)
  /\ (status nd <> "BRANCHED"%string -> leftChild nd = -1 /\ rightChild nd = -1)
  /\ (forall c, leftChild nd = c \/ rightChild nd = c -> c <> -1 ->
        id < c
        /\ exists cn, BranchAndBound.treeNodes b' !! c = Some cn
                      /\ n_parentId cn = id).
Proof.
  intros Hsolve Hnd.
  assert (forall j sh, shapes b' !! j = Some sh ->
            exists n, BranchAndBound.treeNodes b' !! j = Some n /\ sh = shapeOf n)
    as Hback.
  { intros j sh. unfold shapes. rewrite lookup_fmap.
    destruct (BranchAndBound.treeNodes b' !! j) as [n|]; [|done].
    intros [= <-]. by exists n. }
  assert (shapes b' !! id = Some (shapeOf nd)) as Hsh
      by (unfold shapes; by rewrite lookup_fmap, Hnd).
  destruct (solve_shapes obj cons r types isMax intVars fuel b' Hsolve id _ Hsh)
    as (H1 & H2 & H3 & H4 & H5 & H6).
  simpl in H1, H2, H3, H4, H5, H6.
  split; [done|]. split; [done|]. split; [|split; [done|split; [done|]]].
  - intros Hid. destruct (H3 Hid) as (Hp & shp & Hlook & Hd & Hs & Hl).
    split; [done|]. destruct (Hback _ _ Hlook) as (pn & Hpn & ->).
    by exists pn.
  - intros c Hc Hcne. destruct (H6 c Hc Hcne) as (Hlt & shc & Hlook & Hp).
    split; [done|]. destruct (Hback _ _ Hlook) as (cn & Hcn & ->).
    by exists cn.
Qed.

(** The theorem above at node 1 of the tree of the pure-ILP scenario. *)
Lemma tree_well_formed_witness :
  nodeId (BranchAndBound.node ilp_result 1) = 1
  /\ (1 = 0 -> n_parentId (BranchAndBound.node ilp_result 1) = -1
               /\ n_depth (BranchAndBound.node ilp_result 1) = 0)
  /\ (1 <= 1 ->
      0 <= n_parentId (BranchAndBound.node ilp_result 1) < 1
      /\ exists pn,
           BranchAndBound.treeNodes ilp_result
           !! n_parentId (BranchAndBound.node ilp_result 1) = Some pn
           /\ n_depth (BranchAndBound.node ilp_result 1) = n_depth pn + 1
           /\ status pn = "BRANCHED"%string
           /\ (leftChild pn = 1 \/ rightChild pn = 1))
  /\ (status (BranchAndBound.node ilp_result 1) = "BRANCHED"%string ->
      leftChild (BranchAndBound.node ilp_result 1) <> -1
      /\ rightChild (BranchAndBound.node ilp_result 1) <> -1
      /\ leftChild (BranchAndBound.node ilp_result 1)
         <> rightChild (BranchAndBound.node ilp_result 1))
  /\ (status (BranchAndBound.node ilp_result 1) <> "BRANCHED"%string ->
      leftChild (BranchAndBound.node ilp_result 1) = -1
      /\ rightChild (BranchAndBound.node ilp_result 1) = -1)
  /\ (forall c,
        leftChild (BranchAndBound.node ilp_result 1) = c
        \/ rightChild (BranchAndBound.node ilp_result 1) = c ->
        c <> -1 ->
        1 < c
        /\ exists cn, BranchAndBound.treeNodes ilp_result !! c = Some cn
                      /\ n_parentId cn = 1).
Proof.
  apply (tree_well_formed [5; 4]%float [[1; 1]; [10; 6]]%float [5; 45]%float
           [1; 1] true [0; 1] 11 ilp_result 1 (BranchAndBound.node ilp_result 1)).
  - vm_compute. reflexivity.
  - vm_compute. reflexivity.
Defined.

(** ** Passes of the main loop *)

Section Passes.
Import BranchAndBound.

Lemma iterate_empty (st : loop_state) : l_queue st = [] -> l_queue (iterate st) = [].
Proof.
  intros Hq. rewrite iterate_unfold. unfold sortedQueue. rewrite Hq.
  by destruct (isMaximization (l_obj st)).
Qed.

(** What every pass preserves holds at the start of each pass. *)
Lemma passes_inv (P : loop_state -> Prop) (st : loop_state) :
  (forall s, logDiscipline s -> treeShape s -> P s -> l_queue s <> [] ->
             P (iterate s)) ->
  logDiscipline st -> treeShape st -> P st ->
  forall k, l_queue (afterPasses k st) <> [] ->
            logDiscipline (afterPasses k st) /\ treeShape (afterPasses k st)
            /\ P (afterPasses k st)
            /\ iteration (l_obj (afterPasses k st))
               = iteration (l_obj st) + Z.of_nat k.
Proof.
  intros Hstep Hld Hts HP. induction k as [|k IH]; intros Hq.
  - repeat (split; [done|]). simpl. lia.
  - change (afterPasses (S k) st) with (iterate (afterPasses k st)) in Hq |- *.
    assert (l_queue (afterPasses k st) <> []) as Hq'
        by (intros Hempty; by apply Hq, iterate_empty).
    destruct (IH Hq') as (Hldk & Htsk & HPk & Hitk).
    split; [by apply logDiscipline_iterate|].
    split; [by apply treeShape_iterate|].
    split; [by apply Hstep|].
    destruct (iterate_shapes _ Hldk Htsk Hq') as (_ & _ & _ & _ & _ & _ & Hit & _).
    rewrite Hit, Hitk. lia.
Qed.

Lemma start_iteration (obj : list double) (cons : list (list double))
    (r : list double) (types : list Z) (isMax : bool) (intVars : list Z)
    (st : loop_state) :
  solveRoot (new obj cons r types isMax intVars) = inr st ->
  iteration (l_obj st) = 0.
Proof.
  intros Hroot.
  pose proof (solveRoot_cases (new obj cons r types isMax intVars)) as H.
  destruct (solveSubproblem _ [] [] [] [] 0%float) as [rootSol rootObj].
  rewrite Hroot in H.
  by destruct H as [(_ & ?)|[(_ & _ & ?)|(_ & _ & [= ->])]].
Qed.

End Passes.

(** X12.  The item a pass of the main loop selects is the root item (depth
    0) in the first pass and in no other: before pass k+1 the iteration
    counter is k, and the selected item has depth 0 exactly when k = 0.  So
    the test [current.depth == 0 && iteration > 1] that would skip an item
    is false in every pass. *)
Theorem root_item_first_pass_only (obj : list double) (cons : list (list double))
    (r : list double) (types : list Z) (isMax : bool) (intVars : list Z)
    (st : BranchAndBound.loop_state) (k : nat)
    (current : QueueItem) (rest : list QueueItem) :
  BranchAndBound.solveRoot (BranchAndBound.new obj cons r types isMax intVars)
  = inr st ->
  sortedQueue (afterPasses k st) = current :: rest ->
  BranchAndBound.iteration (BranchAndBound.l_obj (afterPasses k st)) = Z.of_nat k
  /\ 0 <= q_depth current
  /\ (q_depth current = 0 <-> k = 0%nat)
  /\ (q_depth current =? 0)
     && (1 <? BranchAndBound.iteration (BranchAndBound.l_obj (afterPasses k st)) + 1)
     = false.
Proof.
  intros Hroot Hs.
  assert (BranchAndBound.l_queue (afterPasses k st) <> []) as Hq.
  { intros Hempty. unfold sortedQueue in Hs. rewrite Hempty in Hs.
    by destruct (BranchAndBound.isMaximization _). }
  destruct (passes_inv (fun _ => True) st) with (k := k)
    as (Hld & _ & _ & Hit); try done.
  { by eapply logDiscipline_start. }
  { by eapply treeShape_start. }
  rewrite (start_iteration _ _ _ _ _ _ _ Hroot), Z.add_0_l in Hit.
  assert (current ∈ BranchAndBound.l_queue (afterPasses k st)) as Hin
      by (apply elem_of_sortedQueue; rewrite Hs; left).
  pose proof (ld_depths _ Hld) as Hdep. rewrite Hit in Hdep |- *.
  split; [done|]. revert Hdep.
  destruct (Z.eqb_spec (Z.of_nat k) 0) as [H0|Hne]; intros Hdep.
  - destruct Hdep as (_ & item & Hitem & Hd0).
    rewrite Hitem in Hin. apply list_elem_of_singleton in Hin as ->.
    rewrite Hd0, H0. split; [done|]. split; [|done]. split; [lia|done].
  - rewrite List.Forall_forall in Hdep.
    specialize (Hdep current (proj1 (list_elem_of_In _ _) Hin)).
    split; [lia|]. split; [lia|].
    destruct (Z.eqb_spec (q_depth current) 0); [lia|done].
Qed.

(** The theorem above before the fourth pass on the pure-ILP scenario. *)
Lemma root_item_first_pass_only_witness :
  BranchAndBound.iteration
    (BranchAndBound.l_obj (afterPasses 3 (loopStart ilp_scenario))) = Z.of_nat 3
  /\ 0 <= q_depth (hd (initialItem 0%float)
                      (sortedQueue (afterPasses 3 (loopStart ilp_scenario))))
  /\ (q_depth (hd (initialItem 0%float)
                  (sortedQueue (afterPasses 3 (loopStart ilp_scenario)))) = 0
      <-> 3%nat = 0%nat)
  /\ (q_depth (hd (initialItem 0%float)
                  (sortedQueue (afterPasses 3 (loopStart ilp_scenario)))) =? 0)
     && (1 <? BranchAndBound.iteration
                (BranchAndBound.l_obj (afterPasses 3 (loopStart ilp_scenario))) + 1)
     = false.
Proof.
  apply (root_item_first_pass_only [5; 4]%float [[1; 1]; [10; 6]]%float
           [5; 45]%float [1; 1] true [0; 1] (loopStart ilp_scenario) 3
           (hd (initialItem 0%float)
               (sortedQueue (afterPasses 3 (loopStart ilp_scenario))))
           (tl (sortedQueue (afterPasses 3 (loopStart ilp_scenario))))).
  - vm_compute. reflexivity.
  - vm_compute. reflexivity.
Defined.

(** ** The first pass *)

Section FirstPass.
Import BranchAndBound.

Lemma solveSubproblem_same_problem (b1 b2 : t) (ec : list (list double))
    (er : list double) (et : list Z) (o : list double) (v : double) :
  same_problem b1 b2 ->
  solveSubproblem b1 ec er et o v = solveSubproblem b2 ec er et o v.
Proof.
  intros (H1 & H2 & H3 & H4 & H5). unfold solveSubproblem, subproblemSolver.
  by rewrite H1, H2, H3, H4, H5.
Qed.

Lemma first_pass (b : t) (st : loop_state) (rootSol : list double)
    (rootObj : double) :
  iteration b = 0 ->
  solveRoot b = inr st ->
  solveSubproblem b [] [] [] [] 0%float = (rootSol, rootObj) ->
  rootSol <> [] /\ isIntegerSolution b rootSol = false
  /\ l_counter (iterate st) = 0
  /\ ((bounded (l_obj st) rootObj = true
       /\ l_obj (iterate st)
          = assign_status (with_iteration (l_obj st) 1) 0 "PRUNED"
       /\ l_queue (iterate st) = [])
      \/ (bounded (l_obj st) rootObj = false
          /\ l_obj (iterate st)
             = assign_status (with_iteration (l_obj st) 1) 0 "BRANCHED"
          /\ l_queue (iterate st)
             = children b (initialItem rootObj) 0 rootSol rootObj)).
Proof.
  intros Hit Hroot Hsub. pose proof (solveRoot_cases b) as H.
  rewrite Hsub, Hroot in H.
  destruct H as [(_ & ?)|[(_ & _ & ?)|(Hne & Hint & [= ->])]]; try discriminate.
  split; [done|]. split; [done|].
  rewrite iterate_unfold. unfold sortedQueue. cbn [l_obj l_queue l_counter].
  set (b3 := with_best _ _ _).
  assert ((if isMaximization b3 then sort bound_gt [initialItem rootObj]
           else sort bound_lt [initialItem rootObj]) = [initialItem rootObj]) as ->
      by (by destruct (isMaximization b3)).
  change (iteration b3) with (iteration b). rewrite Hit.
  cbn [q_depth initialItem Z.eqb andb extraCons extraRhs extraTypes].
  change (0 + 1) with 1. change (1 <? 1) with false.
  change (0 <? 0) with false. cbv iota.
  set (b1 := with_iteration b3 1).
  assert (solveSubproblem b1 [] [] [] [] 0%float = (rootSol, rootObj)) as ->.
  { rewrite <-Hsub. apply solveSubproblem_same_problem. by repeat split. }
  destruct (processNode_cases b1 [] 0 (initialItem rootObj) 0 rootSol rootObj)
    as (Hc & [(? & _)|[(_ & Hb & Hobj & Hq)|[(_ & _ & Hi & _)|[(_ & _ & Hi & _)
              |(_ & Hb & _ & Hobj & Hq)]]]]); try done.
  - split; [done|]. left. by repeat split.
  - change (isIntegerSolution b1 rootSol) with (isIntegerSolution b rootSol) in Hi.
    congruence.
  - change (isIntegerSolution b1 rootSol) with (isIntegerSolution b rootSol) in Hi.
    congruence.
  - split; [done|]. right. by repeat split.
Qed.

Lemma first_pass_root (b : t) (st : loop_state) (rootSol : list double)
    (rootObj : double) :
  iteration b = 0 ->
  solveRoot b = inr st ->
  solveSubproblem b [] [] [] [] 0%float = (rootSol, rootObj) ->
  rootSol <> [] /\ isIntegerSolution b rootSol = false
  /\ iteration (l_obj (iterate st)) = 1
  /\ l_counter (iterate st) = 0
  /\ bestSolution (l_obj (iterate st)) = bestSolution b
  /\ optimalPath (l_obj (iterate st)) = optimalPath b
  /\ treeNodes (l_obj (iterate st))
     = <[0 := node (l_obj (iterate st)) 0]> (treeNodes b)
  /\ solution (node (l_obj (iterate st)) 0) = rootSol
  /\ objValue (node (l_obj (iterate st)) 0) = rootObj
  /\ (((if isMaximization b then fle rootObj (-1e30)%float
        else fge rootObj 1e30%float) = true
       /\ status (node (l_obj (iterate st)) 0) = "PRUNED"%string
       /\ l_queue (iterate st) = [])
      \/ ((if isMaximization b then fle rootObj (-1e30)%float
           else fge rootObj 1e30%float) = false
          /\ status (node (l_obj (iterate st)) 0) = "BRANCHED"%string
          /\ l_queue (iterate st)
             = children b (initialItem rootObj) 0 rootSol rootObj)).
Proof.
  intros Hit Hroot Hsub.
  destruct (first_pass b st rootSol rootObj Hit Hroot Hsub)
    as (Hne & Hint & Hc & Hcase).
  pose proof (solveRoot_cases b) as H. rewrite Hsub, Hroot in H.
  destruct H as [(_ & ?)|[(_ & _ & ?)|(_ & _ & [= Hst])]]; try discriminate.
  split; [done|]. split; [done|].
  assert (bounded (l_obj st) rootObj
          = (if isMaximization b then fle rootObj (-1e30)%float
             else fge rootObj 1e30%float)) as Hb.
  { rewrite Hst. unfold bounded. cbn. by destruct (isMaximization b). }
  rewrite Hb in Hcase.
  assert (exists s, l_obj (iterate st)
                    = assign_status (with_iteration (l_obj st) 1) 0 s
                    /\ status (node (l_obj (iterate st)) 0) = s) as (s & Hobj & Hs).
  { destruct Hcase as [(_ & Ho & _)|(_ & Ho & _)]; eexists; (split; [exact Ho|]);
      by rewrite Ho, node_assign_status_eq. }
  assert (node (l_obj (iterate st)) 0
          = set_status (set_status (rootNode rootSol rootObj) "BRANCHED") s) as Hnode.
  { rewrite Hobj, node_assign_status_eq, Hst.
    change (node (with_iteration (l_obj (mkLoop ?x _ _)) 1) 0) with (node x 0).
    cbn [l_obj].
    change (node (with_best ?x _ _) 0) with (node x 0).
    by rewrite node_assign_status_eq, node_put_node_eq. }
  split; [by rewrite Hobj|]. split; [done|].
  split; [by rewrite Hobj, Hst|]. split; [by rewrite Hobj, Hst|].
  split.
  { rewrite Hnode, Hobj, Hst. cbn.
    rewrite !insert_insert_eq.
    change (node (with_iteration (with_best ?x _ _) 1) 0) with (node x 0).
    by rewrite node_assign_status_eq, node_put_node_eq. }
  split; [by rewrite Hnode|]. split; [by rewrite Hnode|].
  destruct Hcase as [(Hbd & Ho & Hq)|(Hbd & Ho & Hq)]; [left|right];
    (split; [done|]); (split; [|done]);
    rewrite Ho in Hs |- *; by rewrite node_assign_status_eq.
Qed.

End FirstPass.

(** X13.  When the root relaxation is fractional, the first pass of the
    main loop selects the root item and solves the root relaxation a second
    time, with the result of the first time.  The pass registers no node
    and finds no incumbent: the tree still holds the root alone, with the
    stored relaxation.  The root, BRANCHED before the loop, is assigned its
    status again: PRUNED with nothing queued when the root objective does
    not beat the initial incumbent value (-1e30 when maximizing, 1e30 when
    minimizing), BRANCHED with the two children of the root queued
    otherwise. *)
Theorem first_pass_revisits_root (obj : list double) (cons : list (list double))
    (r : list double) (types : list Z) (isMax : bool) (intVars : list Z)
    (st : BranchAndBound.loop_state) (rootSol : list double) (rootObj : double) :
  BranchAndBound.solveRoot (BranchAndBound.new obj cons r types isMax intVars)
  = inr st ->
  BranchAndBound.solveSubproblem
    (BranchAndBound.new obj cons r types isMax intVars) [] [] [] [] 0%float
  = (rootSol, rootObj) ->
  rootSol <> []
  /\ BranchAndBound.isIntegerSolution
       (BranchAndBound.new obj cons r types isMax intVars) rootSol = false
  /\ BranchAndBound.iteration (BranchAndBound.l_obj (BranchAndBound.iterate st)) = 1
  /\ BranchAndBound.l_counter (BranchAndBound.iterate st) = 0
  /\ BranchAndBound.bestSolution (BranchAndBound.l_obj (BranchAndBound.iterate st))
     = []
  /\ BranchAndBound.optimalPath (BranchAndBound.l_obj (BranchAndBound.iterate st))
     = []
  /\ BranchAndBound.treeNodes (BranchAndBound.l_obj (BranchAndBound.iterate st))
     = {[0 := BranchAndBound.node
                (BranchAndBound.l_obj (BranchAndBound.iterate st)) 0]}
  /\ solution (BranchAndBound.node
                 (BranchAndBound.l_obj (BranchAndBound.iterate st)) 0) = rootSol
  /\ objValue (BranchAndBound.node
                 (BranchAndBound.l_obj (BranchAndBound.iterate st)) 0) = rootObj
  /\ (((if isMax then fle rootObj (-1e30)%float else fge rootObj 1e30%float) = true
       /\ status (BranchAndBound.node
                    (BranchAndBound.l_obj (BranchAndBound.iterate st)) 0)
          = "PRUNED"%string
       /\ BranchAndBound.l_queue (BranchAndBound.iterate st) = [])
      \/ ((if isMax then fle rootObj (-1e30)%float else fge rootObj 1e30%float)
          = false
          /\ status (BranchAndBound.node
                       (BranchAndBound.l_obj (BranchAndBound.iterate st)) 0)
             = "BRANCHED"%string
          /\ BranchAndBound.l_queue (BranchAndBound.iterate st)
             = BranchAndBound.children
                 (BranchAndBound.new obj cons r types isMax intVars)
                 (initialItem rootObj) 0 rootSol rootObj)).
Proof.
  intros Hroot Hsub.
  destruct (first_pass_root (BranchAndBound.new obj cons r types isMax intVars)
              st rootSol rootObj eq_refl Hroot Hsub)
    as (H1 & H2 & H3 & H4 & H5 & H6 & H7 & H8 & H9 & H10).
  split; [exact H1|]. split; [exact H2|]. split; [exact H3|].
  split; [exact H4|]. split; [exact H5|]. split; [exact H6|].
  split; [|split; [exact H8|split; [exact H9|exact H10]]].
  rewrite H7 at 1. apply insert_empty.
Qed.

(** The theorem above on the pure-ILP scenario, whose root relaxation is
    (3.75, 1.25) with objective 23.75. *)
Lemma first_pass_revisits_root_witness :
  status (BranchAndBound.node
            (BranchAndBound.l_obj (BranchAndBound.iterate (loopStart ilp_scenario))) 0)
  = "BRANCHED"%string
  /\ length (BranchAndBound.l_queue (BranchAndBound.iterate (loopStart ilp_scenario)))
     = 2%nat.
Proof.
  destruct (first_pass_revisits_root [5; 4]%float [[1; 1]; [10; 6]]%float
              [5; 45]%float [1; 1] true [0; 1] (loopStart ilp_scenario)
              [3.75; 1.25]%float 23.75%float)
    as (_ & _ & _ & _ & _ & _ & _ & _ & _ & [(Hb & _)|(_ & Hs & Hq)]).
  - vm_compute. reflexivity.
  - vm_compute. reflexivity.
  - vm_compute in Hb. discriminate Hb.
  - split; [exact Hs|]. rewrite Hq. reflexivity.
Defined.

(** ** The optimal path *)

Section OptimalPath.
Import BranchAndBound.

Lemma chain_ext (b b' : t) (prev : Z) (path : list Z) :
  Forall (fun x => n_parentId (node b' x) = n_parentId (node b x)) path ->
  chain b prev path -> chain b' prev path.
Proof.
  intros Hall. revert prev. induction Hall as [|x path Hx _ IH]; intros prev.
  - done.
  - simpl. intros [Hp Hc]. split; [congruence|by apply IH].
Qed.

Lemma tracePath_ext (b b' : t) (fuel : nat) (x : Z) (acc : list Z) :
  (forall j, n_parentId (node b' j) = n_parentId (node b j)) ->
  tracePath fuel b' x acc = tracePath fuel b x acc.
Proof.
  intros Hpar. revert x acc. induction fuel as [|fuel IH]; intros x acc; simpl.
  - done.
  - destruct (x =? -1); [done|]. by rewrite Hpar, IH.
Qed.

(** The trace loop above a node [x] of a tree whose parents have smaller
    ids: with [x + 1] rounds it ends at the root, and the path it returns
    is a chain from the root to [x]. *)
Lemma tracePath_spec (b : t) (fuel : nat) (x : Z) (acc : list Z) :
  (forall j, 0 <= j <= x -> -1 <= n_parentId (node b j) < j) ->
  -1 <= x -> (Z.to_nat (x + 1) <= fuel)%nat ->
  chain b x acc ->
  exists pre,
    tracePath fuel b x acc = pre ++ acc
    /\ chain b (-1) (pre ++ acc)
    /\ Forall (fun j => 0 <= j <= x) pre
    /\ (0 <= x -> last pre = Some x).
Proof.
  revert x acc. induction fuel as [|fuel IH]; intros x acc Hpar Hx Hfuel Hc.
  - assert (x = -1) as -> by lia. exists []. simpl.
    split; [done|]. split; [done|]. split; [constructor|lia].
  - simpl. destruct (Z.eqb_spec x (-1)) as [->|Hne].
    + exists []. simpl. split; [done|]. split; [done|]. split; [constructor|lia].
    + assert (0 <= x) as Hx0 by lia.
      pose proof (Hpar x (conj Hx0 (Z.le_refl x))) as Hp.
      destruct (IH (n_parentId (node b x)) (x :: acc)) as (pre & Ht & Hch & Hall & _).
      * intros j Hj. apply Hpar. lia.
      * lia.
      * lia.
      * simpl. by split.
      * exists (pre ++ [x]). rewrite <-!app_assoc. simpl.
        split; [done|]. split; [done|]. split.
        -- apply Forall_app. split; [|by repeat constructor].
           eapply Forall_impl; [exact Hall|]. simpl. intros j Hj. lia.
        -- intros _. apply last_snoc.
Qed.

Lemma parents_decrease (st : loop_state) (j : Z) :
  logDiscipline st -> treeShape st -> 0 <= j <= l_counter st ->
  -1 <= n_parentId (node (l_obj st) j) < j.
Proof.
  intros Hld Hts Hj.
  destruct (proj2 (ld_dom st Hld j) Hj) as [nd Hnd].
  assert (shapes (l_obj st) !! j = Some (shapeOf nd)) as Hsh
      by (unfold shapes; by rewrite lookup_fmap, Hnd).
  destruct (ts_node st Hts j _ Hsh) as (_ & Hp & _). simpl in Hp.
  unfold node. by rewrite Hnd.
Qed.

Lemma sameCore_refl (n : TreeNode) : sameCore n n.
Proof. by repeat split. Qed.

(** Registering a node leaves every other node as it was, up to the link
    it adds to the parent. *)
Lemma registerNode_lookup (b : t) (current : QueueItem) (id : Z)
    (sol : list double) (obj : double) :
  q_parentId current <> id ->
  treeNodes (registerNode b current id sol obj) !! id
  = Some (set_result (TreeNode_new id (q_parentId current) (branchInfo current)
                        (q_depth current)) sol obj)
  /\ forall j nd, treeNodes b !! j = Some nd -> j <> id ->
       exists nd', treeNodes (registerNode b current id sol obj) !! j = Some nd'
                   /\ sameCore nd nd'.
Proof.
  intros Hne. unfold registerNode.
  set (nd0 := set_result _ sol obj).
  assert (node (put_node b id nd0) (q_parentId current) = node b (q_parentId current))
    as Hnode.
  { unfold node, put_node. simpl. by rewrite lookup_insert_ne. }
  rewrite Hnode.
  destruct (leftChild (node b (q_parentId current)) =? -1); simpl.
  - split.
    + rewrite lookup_insert_ne by done. by rewrite lookup_insert_eq.
    + intros j nd Hj Hjid. destruct (decide (j = q_parentId current)) as [->|Hjp].
      * rewrite lookup_insert_eq. eexists. split; [done|].
        unfold node. rewrite Hj. by repeat split.
      * rewrite !lookup_insert_ne by done. exists nd. split; [done|].
        apply sameCore_refl.
  - split.
    + rewrite lookup_insert_ne by done. by rewrite lookup_insert_eq.
    + intros j nd Hj Hjid. destruct (decide (j = q_parentId current)) as [->|Hjp].
      * rewrite lookup_insert_eq. eexists. split; [done|].
        unfold node. rewrite Hj. by repeat split.
      * rewrite !lookup_insert_ne by done. exists nd. split; [done|].
        apply sameCore_refl.
Qed.

Lemma assign_status_lookup (b : t) (id : Z) (s : string) :
  treeNodes (assign_status b id s) !! id = Some (set_status (node b id) s)
  /\ forall j, j <> id -> treeNodes (assign_status b id s) !! j = treeNodes b !! j.
Proof.
  unfold assign_status, put_node. simpl. split.
  - by rewrite lookup_insert_eq.
  - intros j Hj. by rewrite lookup_insert_ne.
Qed.

Lemma updateBest_lookup (b : t) (id : Z) (sol : list double) (obj : double) (j : Z) :
  treeNodes (updateBest b id sol obj) !! j
  = (fun n => set_isOptimal n
                (bool_decide (j ∈ optimalPath (updateBest b id sol obj))))
    <$> treeNodes b !! j.
Proof.
  unfold updateBest, markOptimal. simpl. rewrite map_lookup_imap.
  by destruct (treeNodes b !! j).
Qed.

Lemma updateBest_parent (b : t) (id : Z) (sol : list double) (obj : double) (j : Z) :
  n_parentId (node (updateBest b id sol obj) j) = n_parentId (node b j).
Proof.
  unfold node. rewrite updateBest_lookup. by destruct (treeNodes b !! j).
Qed.

(** The tree after a later pass has registered its node and assigned the
    status [s], before any new incumbent is recorded. *)
Lemma later_pass_nodes (st : loop_state) (current : QueueItem)
    (sol : list double) (obj : double) (s : string) :
  logDiscipline st -> current ∈ l_queue st ->
  let b3 := assign_status
              (registerNode (with_iteration (l_obj st) (iteration (l_obj st) + 1))
                 current (l_counter st + 1) sol obj)
              (l_counter st + 1) s in
  (exists ndn,
     treeNodes b3 !! (l_counter st + 1) = Some ndn
     /\ n_parentId ndn = q_parentId current /\ status ndn = s
     /\ solution ndn = sol /\ objValue ndn = obj /\ isOptimal ndn = false)
  /\ (forall j nd, treeNodes (l_obj st) !! j = Some nd ->
        exists nd', treeNodes b3 !! j = Some nd' /\ sameCore nd nd')
  /\ (forall j nd', treeNodes b3 !! j = Some nd' -> j <> l_counter st + 1 ->
        exists nd, treeNodes (l_obj st) !! j = Some nd /\ sameCore nd nd')
  /\ optimalPath b3 = optimalPath (l_obj st)
  /\ bestSolution b3 = bestSolution (l_obj st)
  /\ bestObjValue b3 = bestObjValue (l_obj st).
Proof.
  intros Hld Hin.
  set (id := l_counter st + 1).
  set (b1 := with_iteration (l_obj st) (iteration (l_obj st) + 1)).
  set (b2 := registerNode b1 current id sol obj).
  intros b3.
  assert (0 <= q_parentId current <= l_counter st) as Hp.
  { pose proof (ld_parents st Hld) as Hpar.
    rewrite List.Forall_forall in Hpar. by apply Hpar, list_elem_of_In. }
  assert (q_parentId current <> id) as Hpid by (unfold id; lia).
  destruct (registerNode_lookup b1 current id sol obj Hpid) as [Hnew Hold].
  fold b2 in Hnew, Hold.
  destruct (assign_status_lookup b2 id s) as [Hroot Hother]. fold b3 in Hroot, Hother.
  assert (forall j nd, treeNodes (l_obj st) !! j = Some nd ->
            exists nd', treeNodes b3 !! j = Some nd' /\ sameCore nd nd') as Hkeep.
  { intros j nd Hj.
    assert (j <> id) as Hjid.
    { assert (0 <= j <= l_counter st) by (apply (ld_dom st Hld); by eexists).
      unfold id. lia. }
    rewrite (Hother j Hjid). by apply Hold. }
  split; [|split; [exact Hkeep|split]].
  - eexists. split; [exact Hroot|]. unfold node. rewrite Hnew. by repeat split.
  - intros j nd' Hj Hjid. rewrite (Hother j Hjid) in Hj.
    assert (is_Some (treeNodes (l_obj st) !! j)) as [nd Hnd].
    { assert (is_Some (treeNodes b2 !! j)) as Hsome by (by eexists).
      apply registerNode_dom in Hsome as [Hs|[Hs|Hs]]; [exact Hs|done|].
      apply (ld_dom st Hld). lia. }
    exists nd. split; [done|].
    destruct (Hold j nd Hnd Hjid) as (nd'' & Hnd'' & Hcore).
    congruence.
  - destruct (registerNode_frame b1 current id sol obj) as (_ & Hbs & Hbo & _).
    destruct (registerNode_frame' b1 current id sol obj) as (_ & Hop & _).
    fold b2 in Hbs, Hbo, Hop.
    split; [exact Hop|]. split; [exact Hbs|exact Hbo].
Qed.

Lemma pathInv_iterate (st : loop_state) :
  logDiscipline st -> treeShape st -> pathInv st -> l_queue st <> [] ->
  pathInv (iterate st).
Proof.
  intros Hld Hts Hpi Hne.
  pose proof (logDiscipline_iterate st Hld Hne) as Hld'.
  pose proof (treeShape_iterate st Hld Hts Hne) as Hts'.
  assert (iteration (l_obj (iterate st)) = iteration (l_obj st) + 1) as Hiter.
  { by destruct (iterate_shapes st Hld Hts Hne) as (_ & _ & _ & _ & _ & _ & ? & _). }
  assert (iteration (l_obj (iterate st)) <> 0) as Hnz
      by (pose proof (ld_iteration st Hld); lia).
  destruct (iterate_process st Hld Hne)
    as (current & rest & sol & obj & Hs & Hin & Hrest & Hsolve & Hcase).
  set (b1 := with_iteration (l_obj st) (iteration (l_obj st) + 1)) in *.
  destruct Hcase as [(H0 & Hd0 & -> & Hit)|(H1 & Hd1 & Hit)].
  - (* first pass: the root is solved again, with the same result *)
    destruct (pi_first st Hpi H0) as (Hpath & (item & Hq & Hec & Her & Het) & Hint).
    rewrite Hq in Hin. apply list_elem_of_singleton in Hin as ->.
    rewrite Hec, Her, Het in Hsolve.
    unfold b1 in Hsolve. rewrite solveSubproblem_with_iteration in Hsolve.
    rewrite Hsolve in Hint. simpl in Hint.
    assert (exists s, l_obj (iterate st) = assign_status b1 0 s) as (s & Hobj).
    { rewrite Hit.
      destruct (processNode_cases b1 [] (l_counter st) item 0 sol obj)
        as (_ & [(_ & -> & _)|[(_ & _ & -> & _)|[(_ & _ & Hi & _)|[(_ & _ & Hi & _)
                  |(_ & _ & _ & -> & _)]]]]); try by eexists.
      - change (isIntegerSolution b1 sol)
          with (isIntegerSolution (l_obj st) sol) in Hi. congruence.
      - change (isIntegerSolution b1 sol)
          with (isIntegerSolution (l_obj st) sol) in Hi. congruence. }
    assert (optimalPath (l_obj (iterate st)) = []) as Hpath'
        by (by rewrite Hobj).
    destruct (assign_status_lookup b1 0 s) as [Hroot Hother].
    rewrite <-Hobj in Hroot, Hother.
    split.
    + intros Hz. done.
    + intros id nd Hnd. rewrite Hpath'.
      destruct (decide (id = 0)) as [->|Hid].
      * rewrite Hroot in Hnd. injection Hnd as <-.
        assert (is_Some (treeNodes (l_obj st) !! 0)) as [n0 Hn0]
            by (apply (ld_dom st Hld); pose proof (ld_counter st Hld); lia).
        change (isOptimal (set_status (node b1 0) s))
          with (isOptimal (node (l_obj st) 0)).
        unfold node. rewrite Hn0. simpl.
        by rewrite (pi_marks st Hpi 0 n0 Hn0), Hpath.
      * rewrite (Hother id Hid) in Hnd.
        change (treeNodes b1) with (treeNodes (l_obj st)) in Hnd.
        by rewrite (pi_marks st Hpi id nd Hnd), Hpath.
    + rewrite Hpath'. constructor.
    + rewrite Hpath'. simpl. rewrite Hobj.
      change (bestSolution (assign_status b1 0 s)) with (bestSolution (l_obj st)).
      pose proof (pi_path st Hpi) as Hp. by rewrite Hpath in Hp.
  - (* later passes *)
    set (id := l_counter st + 1) in *.
    set (b2 := registerNode b1 current id sol obj) in *.
    assert (forall j, is_Some (treeNodes (l_obj st) !! j) -> j <> id) as Hfresh.
    { intros j Hj. apply (ld_dom st Hld) in Hj. unfold id. lia. }
    assert (id ∉ optimalPath (l_obj st)) as Hnotin.
    { intros Hin'. pose proof (pi_dom st Hpi) as Hdom.
      rewrite List.Forall_forall in Hdom.
      by apply (Hfresh id (Hdom id (proj1 (list_elem_of_In _ _) Hin'))). }
    destruct (processNode_cases b2 rest id current id sol obj)
      as (Hc & Hcases).
    rewrite <-Hit in Hc, Hcases.
    assert ((exists s, l_obj (iterate st) = assign_status b2 id s)
            \/ (sol <> []
                /\ l_obj (iterate st)
                   = updateBest (assign_status b2 id "INTEGER") id sol obj))
      as [(s & Hobj)|(Hsol & Hobj)].
    { destruct Hcases as [(_ & -> & _)|[(_ & _ & -> & _)|[(_ & _ & _ & _ & -> & _)
                         |[(? & _ & _ & _ & -> & _)|(_ & _ & _ & -> & _)]]]];
        try (left; by eexists). by right. }
    + (* no new incumbent *)
      destruct (later_pass_nodes st current sol obj s Hld Hin)
        as ((ndn & Hndn & _ & _ & _ & _ & Hmark) & Hkeep & Hback & Hop & Hbs & Hbo).
      fold b1 id b2 in Hndn, Hkeep, Hback, Hop, Hbs, Hbo.
      rewrite <-Hobj in Hndn, Hkeep, Hback, Hop, Hbs, Hbo.
      split.
      * intros Hz. done.
      * intros j nd' Hj. rewrite Hop.
        destruct (decide (j = id)) as [->|Hjid].
        -- assert (nd' = ndn) as -> by congruence. rewrite Hmark.
           symmetry. by apply bool_decide_eq_false.
        -- destruct (Hback j nd' Hj Hjid) as (nd & Hnd & (_ & _ & _ & _ & Hopt)).
           rewrite Hopt. by apply (pi_marks st Hpi).
      * rewrite Hop. eapply Forall_impl; [apply (pi_dom st Hpi)|].
        simpl. intros j [nd Hnd]. destruct (Hkeep j nd Hnd) as (nd' & Hnd' & _).
        by eexists.
      * rewrite Hop, Hbs, Hbo. pose proof (pi_path st Hpi) as Hp.
        destruct (last (optimalPath (l_obj st))) as [l|] eqn:Hlast; [|done].
        destruct Hp as (Hchain & nd & Hnd & Hst & Hso & Hov & Hbne).
        split.
        -- apply (chain_ext (l_obj st)); [|done].
           eapply Forall_impl; [apply (pi_dom st Hpi)|].
           simpl. intros j [ndj Hndj].
           destruct (Hkeep j ndj Hndj) as (nd' & Hnd' & (Hpar & _)).
           unfold node. by rewrite Hnd', Hndj.
        -- destruct (Hkeep l nd Hnd) as (nd' & Hnd' & (_ & Hst' & Hso' & Hov' & _)).
           exists nd'. split; [done|]. split; [congruence|].
           split; [congruence|]. split; [congruence|done].
    + (* a new incumbent: the path is traced again *)
      set (b3 := assign_status b2 id "INTEGER") in *.
      destruct (later_pass_nodes st current sol obj "INTEGER" Hld Hin)
        as ((ndn & Hndn & _ & Hstn & Hson & Hovn & _) & _).
      fold b1 id b2 b3 in Hndn.
      assert (optimalPath (l_obj (iterate st))
              = tracePath (Datatypes.S (Z.to_nat id)) (l_obj (iterate st)) id [])
        as Hpath'.
      { rewrite Hobj at 1.
        change (optimalPath (updateBest b3 id sol obj))
          with (tracePath (Datatypes.S (Z.to_nat id)) (with_best b3 sol obj) id []).
        symmetry. apply tracePath_ext. intros j. rewrite Hobj.
        exact (updateBest_parent b3 id sol obj j). }
      assert (0 <= id) as Hid0 by (pose proof (ld_counter st Hld); unfold id; lia).
      destruct (tracePath_spec (l_obj (iterate st)) (Datatypes.S (Z.to_nat id)) id [])
        as (pre & Htrace & Hchain & Hall & Hlast); [|lia|lia|done|].
      { intros j Hj. apply parents_decrease; [done|done|]. rewrite Hc. done. }
      rewrite app_nil_r in Htrace, Hchain. rewrite Htrace in Hpath'.
      assert (treeNodes (l_obj (iterate st)) !! id
              = Some (set_isOptimal ndn
                        (bool_decide (id ∈ optimalPath (l_obj (iterate st))))))
        as Hnode.
      { rewrite Hobj at 1. rewrite updateBest_lookup, Hndn. simpl.
        by rewrite Hobj. }
      split.
      * intros Hz. done.
      * intros j nd Hj. rewrite Hobj in Hj. rewrite updateBest_lookup in Hj.
        rewrite <-Hobj in Hj.
        destruct (treeNodes b3 !! j); [|done]. by injection Hj as <-.
      * rewrite Hpath'. eapply Forall_impl; [exact Hall|].
        simpl. intros j Hj. apply (ld_dom _ Hld'). by rewrite Hc.
      * rewrite Hpath', (Hlast Hid0). split; [done|].
        eexists. split; [rewrite Hnode; reflexivity|].
        rewrite Hobj. simpl. by repeat split.
Qed.

Lemma pathInv_start (b : t) (st : loop_state) :
  optimalPath b = [] -> bestSolution b = [] -> treeNodes b = ∅ ->
  solveRoot b = inr st -> pathInv st.
Proof.
  intros Hpath Hbest Hempty Hroot. pose proof (solveRoot_cases b) as H.
  destruct (solveSubproblem b [] [] [] [] 0%float) as [rootSol rootObj] eqn:Hsub.
  rewrite Hroot in H.
  destruct H as [(_ & ?)|[(_ & _ & ?)|(_ & Hint & [= ->])]]; try discriminate.
  set (b3 := with_best _ _ _).
  split; cbn [l_obj l_queue].
  - intros _. split; [exact Hpath|]. split; [by eexists|].
    rewrite (solveSubproblem_same_problem b3 b) by (by repeat split).
    rewrite Hsub. exact Hint.
  - intros id nd. change (optimalPath b3) with (optimalPath b). rewrite Hpath.
    unfold b3. cbn. rewrite Hempty, insert_insert_eq, lookup_insert.
    destruct (decide (0 = id)) as [<-|?]; [|by rewrite lookup_empty].
    rewrite node_put_node_eq. by intros [= <-].
  - change (optimalPath b3) with (optimalPath b). rewrite Hpath. constructor.
  - change (optimalPath b3) with (optimalPath b). rewrite Hpath. exact Hbest.
Qed.

Lemma pathInv_end (obj : list double) (cons : list (list double))
    (r : list double) (types : list Z) (isMax : bool) (intVars : list Z)
    (fuel : nat) (st st' : loop_state) :
  solveRoot (new obj cons r types isMax intVars) = inr st ->
  mainLoop fuel st = Some st' ->
  logDiscipline st' /\ treeShape st' /\ pathInv st'.
Proof.
  intros Hroot Hloop.
  destruct (mainLoop_inv (fun s => logDiscipline s /\ treeShape s /\ pathInv s)
              fuel st st') as [Hinv _]; [| |exact Hloop|exact Hinv].
  - intros s (Hs & Ht & Hp) Hne.
    split; [by apply logDiscipline_iterate|].
    split; [by apply treeShape_iterate|by apply pathInv_iterate].
  - split; [by eapply logDiscipline_start|].
    split; [by eapply treeShape_start|].
    by apply (pathInv_start (new obj cons r types isMax intVars)).
Qed.

(** The path and the marks of a search that returned before the main
    loop. *)
Lemma solveRoot_inl_path (b b0 : t) :
  optimalPath b = [] -> bestSolution b = [] -> treeNodes b = ∅ ->
  solveRoot b = inl b0 ->
  (optimalPath b0 = [] /\ bestSolution b0 = []
   /\ exists nd, treeNodes b0 = {[0 := nd]} /\ isOptimal nd = false)
  \/ (optimalPath b0 = [0] /\ bestSolution b0 <> []
      /\ exists nd, treeNodes b0 = {[0 := nd]} /\ isOptimal nd = true
                    /\ n_parentId nd = -1 /\ status nd = "INTEGER"%string
                    /\ solution nd = bestSolution b0
                    /\ objValue nd = bestObjValue b0).
Proof.
  intros Hpath Hbest Hempty Hroot. pose proof (solveRoot_cases b) as H.
  destruct (solveSubproblem b [] [] [] [] 0%float) as [rootSol rootObj].
  rewrite Hroot in H.
  destruct H as [(_ & [= ->])|[(Hne & _ & [= ->])|(_ & _ & ?)]]; [| |discriminate].
  - left. split; [exact Hpath|]. split; [exact Hbest|].
    eexists. split.
    + cbn. rewrite Hempty, insert_insert_eq, insert_empty. reflexivity.
    + by rewrite node_put_node_eq.
  - right. split; [cbn; by rewrite Hpath|]. split; [exact Hne|].
    eexists. split.
    + cbn. rewrite Hempty, !insert_insert_eq, insert_empty. reflexivity.
    + rewrite node_assign_status_eq, node_put_node_eq. by repeat split.
Qed.

End OptimalPath.

(** X14.  In the tree a finished search leaves behind, the [isOptimal]
    marks are exactly those of [optimalPath]: a node is marked if and only
    if its id is on the path, and every id on the path is a node of the
    tree.  As long as no incumbent was found the path is empty and so is
    [bestSolution].  Otherwise the path starts at the root 0, each further
    entry has the entry before it as its parent (the trace loop always
    reaches the root), and its last entry is a node with status INTEGER
    whose stored relaxation is the incumbent: its solution is
    [bestSolution] and its objective is [bestObjValue]. *)
Theorem optimal_path_marks (obj : list double) (cons : list (list double))
    (r : list double) (types : list Z) (isMax : bool) (intVars : list Z)
    (fuel : nat) (b' : BranchAndBound.t) :
  BranchAndBound.solve fuel (BranchAndBound.new obj cons r types isMax intVars)
  = Some b' ->
  (forall id nd,
     BranchAndBound.treeNodes b' !! id = Some nd ->
     isOptimal nd = true <-> id ∈ BranchAndBound.optimalPath b')
  /\ Forall (fun id => is_Some (BranchAndBound.treeNodes b' !! id))
            (BranchAndBound.optimalPath b')
  /\ match last (BranchAndBound.optimalPath b') with
     | None => BranchAndBound.bestSolution b' = []
     | Some l =>
         head (BranchAndBound.optimalPath b') = Some 0
         /\ chain b' (-1) (BranchAndBound.optimalPath b')
         /\ exists nd,
              BranchAndBound.treeNodes b' !! l = Some nd
              /\ status nd = "INTEGER"%string
              /\ solution nd = BranchAndBound.bestSolution b'
              /\ objValue nd = BranchAndBound.bestObjValue b'
              /\ BranchAndBound.bestSolution b' <> []
     end.
Proof.
  intros Hsolve.
  destruct (solve_inv _ _ _ Hsolve) as [Hroot|(st & st' & Hroot & Hloop & ->)].
  - destruct (solveRoot_inl_path
                (BranchAndBound.new obj cons r types isMax intVars) b'
                eq_refl eq_refl eq_refl Hroot)
      as [(Hp & Hb & nd & Ht & Hm)|(Hp & Hb & nd & Ht & Hm & Hpar & Hst & Hso & Hov)];
      rewrite Hp, Ht.
    + split.
      { intros id nd' [<- <-]%lookup_singleton_Some. rewrite Hm.
        split; [done|]. by intros ?%not_elem_of_nil. }
      split; [constructor|exact Hb].
    + split.
      { intros id nd' [<- <-]%lookup_singleton_Some. rewrite Hm.
        split; [intros _; by apply list_elem_of_singleton|done]. }
      split; [constructor; [by rewrite lookup_singleton_eq|constructor]|].
      simpl. split; [done|]. split.
      { split; [|done]. unfold BranchAndBound.node.
        by rewrite Ht, lookup_singleton_eq. }
      exists nd. by rewrite lookup_singleton_eq.
  - destruct (pathInv_end obj cons r types isMax intVars fuel st st' Hroot Hloop)
      as (Hld & Hts & Hpi).
    split.
    { intros id nd Hnd. rewrite (pi_marks st' Hpi id nd Hnd).
      apply bool_decide_eq_true. }
    split; [exact (pi_dom st' Hpi)|].
    pose proof (pi_path st' Hpi) as Hp. pose proof (pi_dom st' Hpi) as Hdom.
    destruct (last (BranchAndBound.optimalPath (BranchAndBound.l_obj st')))
      as [l|] eqn:Hlast; [|done].
    destruct Hp as (Hchain & Hnode). split; [|by split].
    destruct (BranchAndBound.optimalPath (BranchAndBound.l_obj st'))
      as [|x path]; [done|].
    simpl in Hchain |- *. destruct Hchain as [Hpar _].
    apply Forall_cons in Hdom as [[nd Hnd] _].
    assert (shapes (BranchAndBound.l_obj st') !! x = Some (shapeOf nd)) as Hsh
        by (unfold shapes; by rewrite lookup_fmap, Hnd).
    destruct (ts_node st' Hts x _ Hsh) as (_ & _ & _ & Hpos). simpl in Hpos.
    assert (0 <= x <= BranchAndBound.l_counter st') as Hx
        by (apply (ld_dom st' Hld); by eexists).
    unfold BranchAndBound.node in Hpar. rewrite Hnd in Hpar. simpl in Hpar.
    f_equal. destruct (decide (x = 0)) as [|Hne]; [done|].
    destruct Hpos as [Hpos _]; lia.
Qed.

(** The theorem above on the pure-ILP scenario. *)
Lemma optimal_path_marks_witness :
  (forall id nd,
     BranchAndBound.treeNodes ilp_result !! id = Some nd ->
     isOptimal nd = true <-> id ∈ BranchAndBound.optimalPath ilp_result)
  /\ Forall (fun id => is_Some (BranchAndBound.treeNodes ilp_result !! id))
            (BranchAndBound.optimalPath ilp_result)
  /\ match last (BranchAndBound.optimalPath ilp_result) with
     | None => BranchAndBound.bestSolution ilp_result = []
     | Some l =>
         head (BranchAndBound.optimalPath ilp_result) = Some 0
         /\ chain ilp_result (-1) (BranchAndBound.optimalPath ilp_result)
         /\ exists nd,
              BranchAndBound.treeNodes ilp_result !! l = Some nd
              /\ status nd = "INTEGER"%string
              /\ solution nd = BranchAndBound.bestSolution ilp_result
              /\ objValue nd = BranchAndBound.bestObjValue ilp_result
              /\ BranchAndBound.bestSolution ilp_result <> []
     end.
Proof.
  apply (optimal_path_marks [5; 4]%float [[1; 1]; [10; 6]]%float [5; 45]%float
           [1; 1] true [0; 1] 11 ilp_result).
  vm_compute. reflexivity.
Defined.

(** ** The subproblems of the search *)

Section Subproblems.
Import BranchAndBound.

(** The copying loop of [solveSubproblem]. *)
Lemma for_loop_push {A} (d : A) (l init : list A) (n : Z) :
  0 <= n <= sizeZ l ->
  for_loop 0 n (fun i acc => acc ++ [getZ d l i]) init
  = init ++ take (Z.to_nat n) l.
Proof.
  intros Hn.
  apply (for_loop_inv (fun i acc => 0 <= i <= sizeZ l -> acc = init ++ take (Z.to_nat i) l));
    [lia| | |exact Hn].
  - intros _. by rewrite app_nil_r.
  - intros i acc Hi IH Hi'. rewrite IH by lia.
    replace (Z.to_nat (i + 1)) with (Datatypes.S (Z.to_nat i)) by lia.
    assert (Z.to_nat i < length l)%nat as Hlt by (unfold sizeZ in *; lia).
    destruct (lookup_lt_is_Some_2 l _ Hlt) as [x Hx].
    rewrite (take_S_r l _ x Hx), app_assoc. f_equal. f_equal.
    unfold getZ. destruct (Z.ltb_spec i 0); [lia|].
    by apply nth_lookup_Some.
Qed.

Lemma for_loop_push_all {A} (d : A) (l init : list A) (n : Z) :
  n = sizeZ l ->
  for_loop 0 n (fun i acc => acc ++ [getZ d l i]) init = init ++ l.
Proof.
  intros ->. rewrite for_loop_push by (unfold sizeZ; lia).
  unfold sizeZ. by rewrite Nat2Z.id, firstn_all.
Qed.

(** With as many right-hand sides and types as extra rows, the solver of a
    subproblem gets the problem followed by the extra constraints. *)
Lemma subproblemSolver_app (b : t) (ec : list (list double)) (er : list double)
    (et : list Z) :
  sizeZ er = sizeZ ec -> sizeZ et = sizeZ ec ->
  subproblemSolver b ec er et
  = SimplexSolver.new (objective b) (constraints b ++ ec) (rhs b ++ er)
      (constraintTypes b ++ et) (isMaximization b).
Proof.
  intros Hr Ht. unfold subproblemSolver.
  by rewrite !for_loop_push_all.
Qed.

Lemma sameInput_registerNode (b b0 : t) (current : QueueItem) (id : Z)
    (sol : list double) (obj : double) :
  sameInput b b0 -> sameInput (registerNode b current id sol obj) b0.
Proof. unfold registerNode. by destruct (leftChild _ =? -1). Qed.

Lemma branchItem_children (b b0 : t) (current : QueueItem) (id : Z)
    (sol : list double) (obj : double) :
  sameInput b b0 -> branchItem b0 current ->
  sol <> [] -> isIntegerSolution b sol = false ->
  Forall (branchItem b0) (children b current id sol obj).
Proof.
  intros (_ & Hn & Hv) (Hc & Hr & Ht & Hrows & Hrhs & Htys) Hsol Hint.
  rewrite (isIntegerSolution_nonempty b sol Hsol) in Hint.
  destruct (find_fractional_some sol _ Hint) as (idx & Hfind & Hin & _).
  unfold children, findBranchingVariable. rewrite Hfind.
  assert (exists varIdx, varIdx ∈ integerVars b0 /\
            setZ (replicate (Z.to_nat (numVariables b)) 0%float) idx 1%float
            = unitRow b0 varIdx) as Hrow.
  { exists idx. split; [rewrite <-Hv; by apply list_elem_of_In|].
    unfold unitRow. by rewrite Hn. }
  assert (forall (A : Type) (l : list A) (x : A) (d : Z),
            sizeZ l = d -> sizeZ (l ++ [x]) = d + 1) as Hsize.
  { intros A l x d <-. unfold sizeZ. rewrite length_app. simpl. lia. }
  constructor; [|constructor; [|constructor]];
    (split; [by apply Hsize|]); (split; [by apply Hsize|]);
    (split; [by apply Hsize|]);
    (split; [apply Forall_app; split; [exact Hrows|by repeat constructor]|]);
    (split; [apply Forall_app; split;
               [exact Hrhs|constructor; [by eexists|constructor]]|]);
    cbn [extraTypes]; (apply Forall_app; split; [exact Htys|]);
    (constructor; [|constructor]).
  - by left.
  - by right.
Qed.

Lemma queueInv_iterate (b0 : t) (st : loop_state) :
  logDiscipline st -> queueInv b0 st -> l_queue st <> [] ->
  queueInv b0 (iterate st).
Proof.
  intros Hld [Hinput Hqueue] Hne.
  destruct (iterate_process st Hld Hne)
    as (current & rest & sol & obj & Hs & Hin & Hrest & Hsolve & Hcase).
  set (b1 := with_iteration (l_obj st) (iteration (l_obj st) + 1)) in *.
  assert (sameInput b1 b0) as Hb1 by exact Hinput.
  assert (branchItem b0 current) as Hcur.
  { rewrite List.Forall_forall in Hqueue. by apply Hqueue, list_elem_of_In. }
  assert (Forall (branchItem b0) rest) as Hrest'.
  { rewrite List.Forall_forall in Hqueue, Hrest |- *. intros q Hq.
    by apply Hqueue, list_elem_of_In, Hrest. }
  assert (forall b' c id,
            sameInput b' b0 ->
            queueInv b0 (processNode b' rest c current id sol obj)) as Hproc.
  { intros b' c id Hb'.
    destruct (processNode_cases b' rest c current id sol obj)
      as (_ & [(_ & Ho & Hq)|[(_ & _ & Ho & Hq)|[(_ & _ & _ & _ & Ho & Hq)
                |[(_ & _ & _ & _ & Ho & Hq)|(Hsol & _ & Hint & Ho & Hq)]]]]);
      unfold queueInv; rewrite Ho, Hq; (split; [exact Hb'|]); try exact Hrest'.
    apply Forall_app. split; [exact Hrest'|].
    by apply branchItem_children. }
  destruct Hcase as [(_ & _ & _ & ->)|(_ & _ & ->)].
  - by apply Hproc.
  - by apply Hproc, sameInput_registerNode.
Qed.

Lemma queueInv_start (b : t) (st : loop_state) :
  solveRoot b = inr st -> queueInv b st.
Proof.
  intros Hroot. pose proof (solveRoot_cases b) as H.
  destruct (solveSubproblem b [] [] [] [] 0%float) as [rootSol rootObj].
  rewrite Hroot in H.
  destruct H as [(_ & ?)|[(_ & _ & ?)|(_ & _ & [= ->])]]; try discriminate.
  split; [by repeat split|].
  constructor; [|constructor]. by repeat split.
Qed.

End Subproblems.

(** X15.  Every subproblem the main loop solves is the problem as read
    plus bound constraints on integer variables.  The item selected in a
    pass carries one extra row, one right-hand side and one type for each
    level of its depth, so the copying loop of [solveSubproblem] never
    reads past the end of [extraRhs] or [extraTypes]; every extra row is the
    unit row of an integer variable, every extra right-hand side is an
    integer and every extra type is <= or >=; and the solver is constructed
    on the original objective and the original constraints followed by
    these. *)
Theorem subproblem_composition (obj : list double) (cons : list (list double))
    (r : list double) (types : list Z) (isMax : bool) (intVars : list Z)
    (st : BranchAndBound.loop_state) (k : nat)
    (current : QueueItem) (rest : list QueueItem) :
  BranchAndBound.solveRoot (BranchAndBound.new obj cons r types isMax intVars)
  = inr st ->
  sortedQueue (afterPasses k st) = current :: rest ->
  branchItem (BranchAndBound.new obj cons r types isMax intVars) current
  /\ BranchAndBound.subproblemSolver (BranchAndBound.l_obj (afterPasses k st))
       (extraCons current) (extraRhs current) (extraTypes current)
     = SimplexSolver.new obj (cons ++ extraCons current) (r ++ extraRhs current)
         (types ++ extraTypes current) isMax.
Proof.
  intros Hroot Hs.
  assert (BranchAndBound.l_queue (afterPasses k st) <> []) as Hq.
  { intros Hempty. unfold sortedQueue in Hs. rewrite Hempty in Hs.
    by destruct (BranchAndBound.isMaximization _). }
  destruct (passes_inv
              (queueInv (BranchAndBound.new obj cons r types isMax intVars)) st)
    with (k := k) as (_ & _ & [Hinput Hqueue] & _); try done.
  { intros s Hld _ Hqi Hne. by apply queueInv_iterate. }
  { by eapply logDiscipline_start. }
  { by eapply treeShape_start. }
  { by apply queueInv_start. }
  assert (current ∈ BranchAndBound.l_queue (afterPasses k st)) as Hin
      by (apply elem_of_sortedQueue; rewrite Hs; left).
  assert (branchItem (BranchAndBound.new obj cons r types isMax intVars) current)
    as Hcur.
  { rewrite List.Forall_forall in Hqueue. by apply Hqueue, list_elem_of_In. }
  split; [exact Hcur|].
  destruct Hcur as (Hc & Hr & Ht & _).
  rewrite subproblemSolver_app by congruence.
  destruct Hinput as ((-> & -> & -> & -> & ->) & _). reflexivity.
Qed.

(** The theorem above before the fourth pass on the pure-ILP scenario. *)
Lemma subproblem_composition_witness :
  branchItem ilp_scenario
    (hd (initialItem 0%float) (sortedQueue (afterPasses 3 (loopStart ilp_scenario))))
  /\ BranchAndBound.subproblemSolver
       (BranchAndBound.l_obj (afterPasses 3 (loopStart ilp_scenario)))
       (extraCons (hd (initialItem 0%float)
                      (sortedQueue (afterPasses 3 (loopStart ilp_scenario)))))
       (extraRhs (hd (initialItem 0%float)
                     (sortedQueue (afterPasses 3 (loopStart ilp_scenario)))))
       (extraTypes (hd (initialItem 0%float)
                       (sortedQueue (afterPasses 3 (loopStart ilp_scenario)))))
     = SimplexSolver.new [5; 4]%float
         ([[1; 1]; [10; 6]]%float
          ++ extraCons (hd (initialItem 0%float)
                           (sortedQueue (afterPasses 3 (loopStart ilp_scenario)))))
         ([5; 45]%float
          ++ extraRhs (hd (initialItem 0%float)
                          (sortedQueue (afterPasses 3 (loopStart ilp_scenario)))))
         ([1; 1]
          ++ extraTypes (hd (initialItem 0%float)
                            (sortedQueue (afterPasses 3 (loopStart ilp_scenario)))))
         true.
Proof.
  apply (subproblem_composition [5; 4]%float [[1; 1]; [10; 6]]%float
           [5; 45]%float [1; 1] true [0; 1] (loopStart ilp_scenario) 3
           (hd (initialItem 0%float)
               (sortedQueue (afterPasses 3 (loopStart ilp_scenario))))
           (tl (sortedQueue (afterPasses 3 (loopStart ilp_scenario)))));
    vm_compute; reflexivity.
Defined.

(** ** Drawing the tree *)

Section Drawing.
Import BranchAndBound.

(** The ids of the blocks [drawNodeRecursive] prints are those of
    [visit]. *)
Lemma draw_visit (fuel : nat) (b : t) (id : Z) (prefix : string) (isLast : bool) :
  (fun lines : list drawn => d_id <$> lines)
  <$> drawNodeRecursive fuel b id prefix isLast = visit fuel b id.
Proof.
  revert id prefix isLast. induction fuel as [|k IH]; intros id prefix isLast.
  - reflexivity.
  - simpl. destruct (treeNodes b !! id) as [nd|]; [|reflexivity].
    unfold childrenOf.
    destruct (leftChild nd =? -1), (rightChild nd =? -1); simpl.
    + reflexivity.
    + rewrite <-(IH (rightChild nd) (d_newPrefix (drawNode b id nd prefix isLast)) true).
      destruct (drawNodeRecursive k b (rightChild nd) _ true) as [out|]; simpl;
        [|reflexivity].
      by rewrite app_nil_r.
    + rewrite <-(IH (leftChild nd) (d_newPrefix (drawNode b id nd prefix isLast)) true).
      destruct (drawNodeRecursive k b (leftChild nd) _ true) as [out|]; simpl;
        [|reflexivity].
      by rewrite !app_nil_r.
    + rewrite <-(IH (leftChild nd) (d_newPrefix (drawNode b id nd prefix isLast)) false).
      destruct (drawNodeRecursive k b (leftChild nd) _ false) as [out|]; simpl;
        [|reflexivity].
      rewrite <-(IH (rightChild nd) (d_newPrefix (drawNode b id nd prefix isLast)) true).
      destruct (drawNodeRecursive k b (rightChild nd) _ true) as [out'|]; simpl;
        [|reflexivity].
      by rewrite app_nil_r, fmap_app.
Qed.

(** Every block shows the node stored under its id. *)
Lemma draw_lines (fuel : nat) (b : t) (id : Z) (prefix : string) (isLast : bool)
    (lines : list drawn) :
  drawNodeRecursive fuel b id prefix isLast = Some lines ->
  Forall (fun line => exists nd,
              treeNodes b !! d_id line = Some nd
              /\ d_marker line = marker nd /\ d_status line = status nd) lines.
Proof.
  revert id prefix isLast lines.
  induction fuel as [|k IH]; intros id prefix isLast lines; [discriminate|].
  simpl. destruct (treeNodes b !! id) as [nd|] eqn:Hnd;
    [|intros [= <-]; constructor].
  assert (forall cs out,
            (fix each (cs : list Z) : option (list drawn) :=
               match cs with
               | [] => Some []
               | c :: cs' =>
                   match drawNodeRecursive k b c
                           (d_newPrefix (drawNode b id nd prefix isLast))
                           (match cs' with [] => true | _ => false end) with
                   | None => None
                   | Some out =>
                       match each cs' with
                       | None => None
                       | Some out' => Some (out ++ out')
                       end
                   end
               end) cs = Some out ->
            Forall (fun line => exists nd,
                        treeNodes b !! d_id line = Some nd
                        /\ d_marker line = marker nd
                        /\ d_status line = status nd) out) as Heach.
  { induction cs as [|c cs IHcs]; intros out.
    - intros [= <-]. constructor.
    - destruct (drawNodeRecursive k b c _ _) as [o1|] eqn:Hc; [|discriminate].
      match goal with
      | |- context [match ?e with Some _ => _ | None => _ end] =>
          destruct e as [o2|] eqn:Hcs; [|discriminate]
      end.
      intros [= <-]. apply Forall_app. split; [by eapply IH|by apply IHcs]. }
  match goal with
  | |- context [match ?e with Some _ => _ | None => _ end] =>
      destruct e as [out|] eqn:Hout; [|discriminate]
  end.
  intros [= <-]. constructor; [|exact (Heach _ _ Hout)].
  exists nd. by repeat split.
Qed.

Section Tree.
Context (b : t) (n : Z) (Hdr : drawable b n).

Lemma visit_head (fuel : nat) (id : Z) (l : list Z) :
  visit fuel b id = Some l -> is_Some (treeNodes b !! id) ->
  exists tl, l = id :: tl.
Proof.
  destruct fuel as [|k]; [discriminate|]. simpl. intros H [nd Hnd].
  rewrite Hnd in H.
  destruct (if leftChild nd =? -1 then _ else _); [|discriminate].
  destruct (if rightChild nd =? -1 then _ else _); [|discriminate].
  injection H as <-. by eexists.
Qed.

(** The recursion ends: a node [id] needs no more than [n - id + 1]
    levels. *)
Lemma visit_some (fuel : nat) (id : Z) :
  0 <= id <= n -> (Z.to_nat (n - id) < fuel)%nat ->
  is_Some (visit fuel b id).
Proof.
  revert id. induction fuel as [|k IH]; intros id Hid Hfuel; [lia|].
  simpl. destruct (proj2 (dr_dom b n Hdr id) Hid) as [nd Hnd]. rewrite Hnd.
  assert (forall c, leftChild nd = c \/ rightChild nd = c ->
            is_Some (if c =? -1 then Some [] else visit k b c)) as Hchild.
  { intros c Hc. destruct (Z.eqb_spec c (-1)) as [|Hne]; [by eexists|].
    destruct (dr_links b n Hdr id nd c Hnd Hc Hne) as (Hlt & cn & Hcn & _).
    assert (0 <= c <= n) by (apply (dr_dom b n Hdr); by eexists).
    apply IH; lia. }
  destruct (Hchild (leftChild nd) (or_introl eq_refl)) as [l ->].
  destruct (Hchild (rightChild nd) (or_intror eq_refl)) as [r ->].
  by eexists.
Qed.

Lemma visit_ge (fuel : nat) (id : Z) (l : list Z) :
  visit fuel b id = Some l -> Forall (fun x => id <= x) l.
Proof.
  revert id l. induction fuel as [|k IH]; intros id l; [discriminate|].
  simpl. destruct (treeNodes b !! id) as [nd|] eqn:Hnd;
    [|intros [= <-]; constructor].
  assert (forall c r, leftChild nd = c \/ rightChild nd = c ->
            (if c =? -1 then Some [] else visit k b c) = Some r ->
            Forall (fun x => id <= x) r) as Hchild.
  { intros c r Hc. destruct (Z.eqb_spec c (-1)) as [|Hne];
      [intros [= <-]; constructor|].
    intros Hr. destruct (dr_links b n Hdr id nd c Hnd Hc Hne) as (Hlt & _).
    eapply Forall_impl; [by eapply IH|]. simpl. intros x Hx. lia. }
  destruct (if leftChild nd =? -1 then _ else _) as [ll|] eqn:Hl; [|discriminate].
  destruct (if rightChild nd =? -1 then _ else _) as [lr|] eqn:Hr; [|discriminate].
  intros [= <-]. constructor; [lia|]. apply Forall_app. split.
  - by apply (Hchild (leftChild nd)); [left|].
  - by apply (Hchild (rightChild nd)); [right|].
Qed.

(** Only nodes of the tree are visited. *)
Lemma visit_nodes (fuel : nat) (id : Z) (l : list Z) :
  visit fuel b id = Some l -> Forall (fun x => is_Some (treeNodes b !! x)) l.
Proof.
  revert id l. induction fuel as [|k IH]; intros id l; [discriminate|].
  simpl. destruct (treeNodes b !! id) as [nd|] eqn:Hnd;
    [|intros [= <-]; constructor].
  destruct (if leftChild nd =? -1 then _ else _) as [ll|] eqn:Hl; [|discriminate].
  destruct (if rightChild nd =? -1 then _ else _) as [lr|] eqn:Hr; [|discriminate].
  intros [= <-]. constructor; [by eexists|]. apply Forall_app. split.
  - destruct (leftChild nd =? -1); [injection Hl as <-; constructor|by eapply IH].
  - destruct (rightChild nd =? -1); [injection Hr as <-; constructor|by eapply IH].
Qed.

(** With a node, its children are visited. *)
Lemma visit_children (fuel : nat) (a : Z) (l : list Z) (p : Z) (nd : TreeNode)
    (c : Z) :
  visit fuel b a = Some l ->
  p ∈ l -> treeNodes b !! p = Some nd ->
  leftChild nd = c \/ rightChild nd = c -> c <> -1 ->
  c ∈ l.
Proof.
  revert a l. induction fuel as [|k IH]; intros a l; [discriminate|].
  simpl. destruct (treeNodes b !! a) as [na|] eqn:Hna;
    [|intros [= <-] ?%not_elem_of_nil; done].
  destruct (if leftChild na =? -1 then _ else _) as [ll|] eqn:Hl; [|discriminate].
  destruct (if rightChild na =? -1 then _ else _) as [lr|] eqn:Hr; [|discriminate].
  intros [= <-] Hp Hnd Hc Hne.
  assert (forall x r, (if x =? -1 then Some [] else visit k b x) = Some r ->
            p ∈ r -> c ∈ r) as Hsub.
  { intros x r Hx Hpr. destruct (x =? -1).
    - injection Hx as <-. by apply not_elem_of_nil in Hpr.
    - by apply (IH x r). }
  assert (forall x r, (if x =? -1 then Some [] else visit k b x) = Some r ->
            leftChild na = x \/ rightChild na = x -> c = x -> c ∈ r) as Hhead.
  { intros x r Hx Hlink ->. destruct (Z.eqb_spec x (-1)) as [|_]; [done|].
    destruct (dr_links b n Hdr a na x Hna Hlink Hne) as (_ & cn & Hcn & _).
    destruct (visit_head k x r Hx) as [tl ->]; [by eexists|]. left. }
  apply elem_of_cons in Hp as [->|Hp].
  - right. apply elem_of_app.
    assert (na = nd) as -> by congruence.
    destruct Hc as [Hc|Hc].
    + left. by apply (Hhead (leftChild nd)); [|left|].
    + right. by apply (Hhead (rightChild nd)); [|right|].
  - right. apply elem_of_app. apply elem_of_app in Hp as [Hp|Hp].
    + left. by apply (Hsub (leftChild na)).
    + right. by apply (Hsub (rightChild na)).
Qed.

(** From the root, every node is visited. *)
Lemma visit_all (fuel : nat) (l : list Z) :
  visit fuel b 0 = Some l -> forall x, 0 <= x <= n -> x ∈ l.
Proof.
  intros Hv x [Hx0 Hxn]. revert Hxn. pattern x.
  apply Zlt_0_ind; [|exact Hx0]. clear x Hx0. intros x IHx Hx0 Hxn.
  assert (0 <= x <= n) as Hx by lia.
  destruct (proj2 (dr_dom b n Hdr x) Hx) as [nd Hnd].
  destruct (decide (x = 0)) as [->|Hne].
  - destruct (visit_head fuel 0 l Hv) as [tl ->]; [by eexists|]. left.
  - destruct (dr_parent b n Hdr x nd Hnd) as (Hp & pn & Hpn & Hlink); [lia|].
    apply (visit_children fuel 0 l (n_parentId nd) pn x Hv); [|done|done|lia].
    apply IHx; lia.
Qed.

Lemma up_le (m : nat) (y : Z) : -1 <= y <= n -> -1 <= up b m y <= y.
Proof.
  intros Hy. induction m as [|m IH]; [simpl; lia|].
  change (up b (Datatypes.S m) y) with (n_parentId (node b (up b m y))).
  set (z := up b m y) in *. unfold node.
  destruct (decide (z = -1)) as [Hz|Hz].
  - destruct (treeNodes b !! z) as [nd|] eqn:Hnd.
    + assert (0 <= z <= n) by (apply (dr_dom b n Hdr); by eexists). lia.
    + simpl. lia.
  - destruct (proj2 (dr_dom b n Hdr z)) as [nd Hnd]; [lia|]. rewrite Hnd. simpl.
    destruct (decide (z = 0)) as [Hz0|Hz0].
    + rewrite Hz0 in Hnd. rewrite (dr_root b n Hdr nd Hnd). lia.
    + destruct (dr_parent b n Hdr z nd Hnd) as (Hp & _); lia.
Qed.

(** Whatever is visited from [a] has [a] among its ancestors. *)
Lemma visit_up (fuel : nat) (a : Z) (l : list Z) :
  visit fuel b a = Some l -> forall x, x ∈ l -> exists m, up b m x = a.
Proof.
  revert a l. induction fuel as [|k IH]; intros a l; [discriminate|].
  simpl. destruct (treeNodes b !! a) as [na|] eqn:Hna;
    [|intros [= <-] x ?%not_elem_of_nil; done].
  destruct (if leftChild na =? -1 then _ else _) as [ll|] eqn:Hl; [|discriminate].
  destruct (if rightChild na =? -1 then _ else _) as [lr|] eqn:Hr; [|discriminate].
  intros [= <-] x Hx.
  assert (forall c r, leftChild na = c \/ rightChild na = c ->
            (if c =? -1 then Some [] else visit k b c) = Some r ->
            x ∈ r -> exists m, up b m x = a) as Hsub.
  { intros c r Hc Hv Hxr. destruct (Z.eqb_spec c (-1)) as [|Hne].
    - injection Hv as <-. by apply not_elem_of_nil in Hxr.
    - destruct (IH c r Hv x Hxr) as [m Hm].
      destruct (dr_links b n Hdr a na c Hna Hc Hne) as (_ & cn & Hcn & Hpar).
      exists (Datatypes.S m).
      change (up b (Datatypes.S m) x) with (n_parentId (node b (up b m x))).
      rewrite Hm. unfold node. by rewrite Hcn. }
  apply elem_of_cons in Hx as [->|Hx]; [by exists 0%nat|].
  apply elem_of_app in Hx as [Hx|Hx].
  - by apply (Hsub (leftChild na) ll); [left| |].
  - by apply (Hsub (rightChild na) lr); [right| |].
Qed.

Lemma up_add (m1 m2 : nat) (x : Z) : up b (m1 + m2) x = up b m1 (up b m2 x).
Proof. unfold up. apply Nat.iter_add. Qed.

(** Two different children of a node have no descendant in common. *)
Lemma siblings_apart (a : Z) (na : TreeNode) (c1 c2 x : Z) (i j : nat) :
  treeNodes b !! a = Some na ->
  leftChild na = c1 \/ rightChild na = c1 ->
  leftChild na = c2 \/ rightChild na = c2 ->
  c1 <> -1 -> c2 <> -1 -> c1 <> c2 ->
  up b i x = c1 -> up b j x = c2 -> (i < j)%nat -> False.
Proof.
  intros Hna H1 H2 Hn1 Hn2 Hne Hi Hj Hlt.
  destruct (dr_links b n Hdr a na c1 Hna H1 Hn1) as (Hlt1 & cn1 & Hcn1 & Hp1).
  destruct (dr_links b n Hdr a na c2 Hna H2 Hn2) as (Hlt2 & cn2 & Hcn2 & Hp2).
  assert (0 <= a <= n) as Ha by (apply (dr_dom b n Hdr); by eexists).
  replace j with ((j - i - 1) + 1 + i)%nat in Hj by lia.
  rewrite !up_add, Hi in Hj.
  assert (up b 1 c1 = a) as Hup1.
  { change (up b 1 c1) with (n_parentId (node b c1)). unfold node. by rewrite Hcn1. }
  rewrite Hup1 in Hj.
  pose proof (up_le (j - i - 1) a) as Hle. lia.
Qed.

(** No node is visited twice. *)
Lemma visit_NoDup (fuel : nat) (a : Z) (l : list Z) :
  visit fuel b a = Some l -> NoDup l.
Proof.
  revert a l. induction fuel as [|k IH]; intros a l; [discriminate|].
  intros Hv. pose proof Hv as Hv'. simpl in Hv.
  destruct (treeNodes b !! a) as [na|] eqn:Hna;
    [|injection Hv as <-; constructor].
  destruct (if leftChild na =? -1 then _ else _) as [ll|] eqn:Hl; [|discriminate].
  destruct (if rightChild na =? -1 then _ else _) as [lr|] eqn:Hr; [|discriminate].
  injection Hv as <-.
  assert (forall c r, leftChild na = c \/ rightChild na = c ->
            (if c =? -1 then Some [] else visit k b c) = Some r ->
            NoDup r /\ Forall (fun x => a < x) r
            /\ forall x, x ∈ r -> c <> -1 /\ exists m, up b m x = c) as Hsub.
  { intros c r Hc Hvc. destruct (Z.eqb_spec c (-1)) as [|Hne].
    - injection Hvc as <-. split; [constructor|]. split; [constructor|].
      by intros x ?%not_elem_of_nil.
    - split; [by eapply IH|]. split.
      + destruct (dr_links b n Hdr a na c Hna Hc Hne) as (Hlt & _).
        eapply Forall_impl; [by eapply visit_ge|]. simpl. intros x Hx. lia.
      + intros x Hx. split; [done|]. by eapply visit_up. }
  destruct (Hsub (leftChild na) ll (or_introl eq_refl) Hl) as (Hndl & Hgtl & Hupl).
  destruct (Hsub (rightChild na) lr (or_intror eq_refl) Hr) as (Hndr & Hgtr & Hupr).
  apply NoDup_cons. split.
  - intros Hin. apply elem_of_app in Hin as [Hin|Hin].
    + rewrite List.Forall_forall in Hgtl.
      specialize (Hgtl a (proj1 (list_elem_of_In _ _) Hin)). lia.
    + rewrite List.Forall_forall in Hgtr.
      specialize (Hgtr a (proj1 (list_elem_of_In _ _) Hin)). lia.
  - apply NoDup_app. split; [done|]. split; [|done].
    intros x Hxl Hxr.
    destruct (Hupl x Hxl) as (Hnl & i & Hi).
    destruct (Hupr x Hxr) as (Hnr & j & Hj).
    pose proof (dr_distinct b n Hdr a na Hna Hnl) as Hne.
    destruct (Nat.lt_trichotomy i j) as [Hlt|[->|Hlt]].
    + by apply (siblings_apart a na (leftChild na) (rightChild na) x i j);
        [|left|right| | | | | |].
    + congruence.
    + by apply (siblings_apart a na (rightChild na) (leftChild na) x j i);
        [|right|left| | | | | |].
Qed.

End Tree.

End Drawing.

Section DrawnTree.
Import BranchAndBound.

Lemma shapes_lookup_inv (b : t) (j : Z) (sh : shape) :
  shapes b !! j = Some sh ->
  exists nd, treeNodes b !! j = Some nd /\ sh = shapeOf nd.
Proof.
  unfold shapes. rewrite lookup_fmap.
  destruct (treeNodes b !! j) as [nd|]; [|done].
  intros [= <-]. by exists nd.
Qed.

Lemma solve_dom (obj : list double) (cons : list (list double))
    (r : list double) (types : list Z) (isMax : bool) (intVars : list Z)
    (fuel : nat) (b' : t) :
  solve fuel (new obj cons r types isMax intVars) = Some b' ->
  exists n, 0 <= n /\ forall id, is_Some (treeNodes b' !! id) <-> 0 <= id <= n.
Proof.
  intros Hsolve.
  destruct (solve_inv _ _ _ Hsolve) as [Hroot|(st & st' & Hroot & Hloop & ->)].
  - exists 0. split; [lia|].
    destruct (solveRoot_inl _ _ Hroot) as (s & x & _ & _ & Htree & _).
    rewrite Htree.
    change (treeNodes (new obj cons r types isMax intVars))
      with (∅ : gmap Z TreeNode).
    intros id. rewrite lookup_insert. destruct (decide (0 = id)) as [<-|Hne].
    + split; [lia|by eexists].
    + rewrite lookup_empty. split; [by intros [? ?]|lia].
  - destruct (logDiscipline_end obj cons r types isMax intVars fuel st st' Hroot Hloop)
      as (Hld & _ & _).
    exists (l_counter st'). split; [apply (ld_counter _ Hld)|apply (ld_dom _ Hld)].
Qed.

(** The tree of a finished search can be drawn. *)
Lemma solve_drawable (obj : list double) (cons : list (list double))
    (r : list double) (types : list Z) (isMax : bool) (intVars : list Z)
    (fuel : nat) (b' : t) :
  solve fuel (new obj cons r types isMax intVars) = Some b' ->
  exists n, 0 <= n /\ Z.of_nat (size (treeNodes b')) = n + 1 /\ drawable b' n.
Proof.
  intros Hsolve.
  destruct (solve_dom obj cons r types isMax intVars fuel b' Hsolve)
    as (n & Hn & Hdom).
  exists n. split; [exact Hn|]. split; [by apply size_of_range|].
  assert (forall id nd, treeNodes b' !! id = Some nd ->
            shapes b' !! id = Some (shapeOf nd)) as Hsh.
  { intros id nd Hnd. unfold shapes. by rewrite lookup_fmap, Hnd. }
  pose proof (solve_shapes obj cons r types isMax intVars fuel b' Hsolve) as Hs.
  split.
  - exact Hdom.
  - intros nd Hnd. destruct (Hs 0 _ (Hsh 0 nd Hnd)) as (_ & H0 & _).
    by destruct H0.
  - intros id nd Hnd Hid.
    destruct (Hs id _ (Hsh id nd Hnd)) as (_ & _ & H1 & _).
    destruct (H1 Hid) as (Hp & shp & Hlook & _ & _ & Hlink).
    split; [exact Hp|].
    destruct (shapes_lookup_inv _ _ _ Hlook) as (pn & Hpn & ->).
    by exists pn.
  - intros id nd c Hnd Hc Hne.
    destruct (Hs id _ (Hsh id nd Hnd)) as (_ & _ & _ & _ & _ & H6).
    destruct (H6 c Hc Hne) as (Hlt & shc & Hlook & Hpar).
    split; [exact Hlt|].
    destruct (shapes_lookup_inv _ _ _ Hlook) as (cn & Hcn & ->).
    by exists cn.
  - intros id nd Hnd Hl.
    destruct (Hs id _ (Hsh id nd Hnd)) as (_ & _ & _ & H4 & H5 & _).
    simpl in H4, H5.
    destruct (decide (status nd = "BRANCHED"%string)) as [Hb|Hb].
    + by destruct (H4 Hb) as (_ & _ & ?).
    + by destruct (H5 Hb) as (? & _).
Qed.

(** The marks of a finished search are those of its path. *)
Lemma solve_marks (obj : list double) (cons : list (list double))
    (r : list double) (types : list Z) (isMax : bool) (intVars : list Z)
    (fuel : nat) (b' : t) (id : Z) (nd : TreeNode) :
  solve fuel (new obj cons r types isMax intVars) = Some b' ->
  treeNodes b' !! id = Some nd ->
  isOptimal nd = bool_decide (id ∈ optimalPath b').
Proof.
  intros Hsolve.
  destruct (solve_inv _ _ _ Hsolve) as [Hroot|(st & st' & Hroot & Hloop & ->)].
  - destruct (solveRoot_inl_path (new obj cons r types isMax intVars) b'
                eq_refl eq_refl eq_refl Hroot)
      as [(Hp & _ & x & Ht & Hm)|(Hp & _ & x & Ht & Hm & _)];
      rewrite Hp, Ht; intros [<- <-]%lookup_singleton_Some; rewrite Hm; symmetry.
    + apply bool_decide_eq_false, not_elem_of_nil.
    + by apply bool_decide_eq_true, list_elem_of_singleton.
  - destruct (pathInv_end obj cons r types isMax intVars fuel st st' Hroot Hloop)
      as (_ & _ & Hpi).
    apply (pi_marks st' Hpi).
Qed.

Lemma marker_star (nd : TreeNode) : marker nd = "[*]"%string <-> isOptimal nd = true.
Proof.
  unfold marker. destruct (isOptimal nd); [done|].
  split; [|done].
  by repeat (destruct (String.eqb _ _); [discriminate|]).
Qed.

End DrawnTree.

(** X16.  [drawTree] prints the tree of a finished search completely and
    without repetition.  The recursion of [drawNodeRecursive] ends, with no
    more nested calls than the tree has nodes; the blocks printed are one
    for each node 0 .. size-1 of the tree, the root first; each block shows
    the status of the node stored under its id, and its marker is [*]
    exactly when the id is on [optimalPath]. *)
Theorem draw_tree_complete (obj : list double) (cons : list (list double))
    (r : list double) (types : list Z) (isMax : bool) (intVars : list Z)
    (fuel : nat) (b' : BranchAndBound.t) (depth : nat) :
  BranchAndBound.solve fuel (BranchAndBound.new obj cons r types isMax intVars)
  = Some b' ->
  (size (BranchAndBound.treeNodes b') <= depth)%nat ->
  exists lines,
    BranchAndBound.drawTree depth b' = Some lines
    /\ BranchAndBound.d_id <$> lines
       ≡ₚ seqZ 0 (Z.of_nat (size (BranchAndBound.treeNodes b')))
    /\ head (BranchAndBound.d_id <$> lines) = Some 0
    /\ Forall (fun line =>
                 (BranchAndBound.d_marker line = "[*]"%string
                  <-> BranchAndBound.d_id line ∈ BranchAndBound.optimalPath b')
                 /\ exists nd,
                      BranchAndBound.treeNodes b' !! BranchAndBound.d_id line
                      = Some nd
                      /\ BranchAndBound.d_status line = status nd)
              lines.
Proof.
  intros Hsolve Hdepth.
  destruct (solve_drawable obj cons r types isMax intVars fuel b' Hsolve)
    as (n & Hn & Hsize & Hdr).
  assert (is_Some (BranchAndBound.treeNodes b' !! 0)) as Hroot
      by (apply (dr_dom b' n Hdr); lia).
  assert (BranchAndBound.drawTree depth b'
          = BranchAndBound.drawNodeRecursive depth b' 0 EmptyString true) as Hdraw.
  { unfold BranchAndBound.drawTree.
    destruct (bool_decide_reflect (BranchAndBound.treeNodes b' = ∅)) as [He|];
      [|done].
    rewrite He, lookup_empty in Hroot. by destruct Hroot. }
  destruct (visit_some b' n Hdr depth 0) as [ids Hids]; [lia|lia|].
  pose proof (draw_visit depth b' 0 EmptyString true) as Hdv.
  rewrite Hids in Hdv.
  destruct (BranchAndBound.drawNodeRecursive depth b' 0 EmptyString true)
    as [lines|] eqn:Hlines; [|discriminate].
  simpl in Hdv. injection Hdv as Hdv.
  exists lines. split; [by rewrite Hdraw|]. rewrite Hdv.
  split; [|split].
  - apply NoDup_Permutation.
    + by apply (visit_NoDup b' n Hdr depth 0).
    + apply NoDup_seqZ.
    + intros x. rewrite elem_of_seqZ, Hsize. split.
      * intros Hx. pose proof (visit_nodes b' depth 0 ids Hids) as Hall.
        rewrite List.Forall_forall in Hall.
        specialize (Hall x (proj1 (list_elem_of_In _ _) Hx)).
        apply (dr_dom b' n Hdr) in Hall. lia.
      * intros Hx. apply (visit_all b' n Hdr depth ids Hids). lia.
  - by destruct (visit_head b' depth 0 ids Hids Hroot) as [tl ->].
  - eapply Forall_impl; [exact (draw_lines _ _ _ _ _ _ Hlines)|].
    simpl. intros line (nd & Hnd & Hm & Hs). split; [|by exists nd].
    rewrite Hm, marker_star.
    rewrite (solve_marks obj cons r types isMax intVars fuel b' _ nd Hsolve Hnd).
    apply bool_decide_eq_true.
Qed.

(** The theorem above on the pure-ILP scenario: eleven blocks. *)
Lemma draw_tree_complete_witness :
  exists lines,
    BranchAndBound.drawTree 11 ilp_result = Some lines
    /\ BranchAndBound.d_id <$> lines
       ≡ₚ seqZ 0 (Z.of_nat (size (BranchAndBound.treeNodes ilp_result)))
    /\ head (BranchAndBound.d_id <$> lines) = Some 0
    /\ Forall (fun line =>
                 (BranchAndBound.d_marker line = "[*]"%string
                  <-> BranchAndBound.d_id line
                      ∈ BranchAndBound.optimalPath ilp_result)
                 /\ exists nd,
                      BranchAndBound.treeNodes ilp_result
                      !! BranchAndBound.d_id line = Some nd
                      /\ BranchAndBound.d_status line = status nd)
              lines.
Proof.
  apply (draw_tree_complete [5; 4]%float [[1; 1]; [10; 6]]%float [5; 45]%float
           [1; 1] true [0; 1] 11 ilp_result 11).
  - vm_compute. reflexivity.
  - vm_compute. lia.
Defined.

(** ** The basis *)

Section Basis.
Import SimplexSolver.

(** One step of the counting loop of [createInitialTableau]. *)
Lemma countVars_snoc (types : list Z) (ty : Z) :
  countVars (types ++ [ty])
  = let '(sl, su, ar) := countVars types in
    if ty =? 1 then (sl + 1, su, ar)
    else if ty =? 2 then (sl, su + 1, ar + 1)
    else (sl, su, ar + 1).
Proof.
  unfold countVars. rewrite foldl_app. simpl.
  by destruct (foldl _ _ types) as [[sl su] ar].
Qed.

(** The counters only grow along the list of types. *)
Lemma countVars_prefix (l1 l2 : list Z) :
  let '(a1, b1, c1) := countVars l1 in
  let '(a, b, c) := countVars (l1 ++ l2) in
  a1 <= a /\ b1 <= b /\ c1 <= c.
Proof.
  induction l2 as [|ty l2 IH] using rev_ind.
  - rewrite app_nil_r. destruct (countVars l1) as [[a b] c]. lia.
  - rewrite app_assoc, countVars_snoc.
    destruct (countVars l1) as [[a1 b1] c1].
    destruct (countVars (l1 ++ l2)) as [[a b] c].
    destruct (ty =? 1); [|destruct (ty =? 2)]; lia.
Qed.

Lemma take_snoc_getZ (types : list Z) (i : Z) :
  0 <= i < sizeZ types ->
  take (Z.to_nat (i + 1)) types = take (Z.to_nat i) types ++ [getZ 0 types i].
Proof.
  intros Hi. unfold sizeZ in Hi.
  replace (Z.to_nat (i + 1)) with (Datatypes.S (Z.to_nat i)) by lia.
  destruct (lookup_lt_is_Some_2 types (Z.to_nat i)) as [x Hx]; [lia|].
  rewrite (take_S_r _ _ x Hx). f_equal. f_equal.
  unfold getZ. destruct (Z.ltb_spec i 0); [lia|].
  symmetry. by apply nth_lookup_Some.
Qed.

Lemma names_size (n : Z) (f : Z -> string) :
  0 <= n ->
  sizeZ (for_loop 0 n (fun i vn => vn ++ [f i]) []) = n.
Proof.
  intros Hn.
  apply (for_loop_inv (fun i (vn : list string) => sizeZ vn = i)); [lia|done|].
  intros i vn _ Hvn. unfold sizeZ in *. rewrite length_app. simpl. lia.
Qed.

(** The row-filling loop hands out the slack and artificial columns in
    order: after [i] rows the three column counters have advanced by the
    counts of the first [i] types, one name was pushed per column handed
    out, and every basis entry is a slack or an artificial column. *)
Lemma fill_columns (s : t) (numCols : Z) :
  0 <= numVariables s ->
  numConstraints s <= sizeZ (constraintTypes s) ->
  0 <= numConstraints s ->
  let '(numSlack, numSurplus, numArtificial) := countVars (constraintTypes s) in
  forall f0,
    f_names f0 = for_loop 0 (numVariables s)
                   (fun i vn => vn ++ ["x" +:+ to_string (i + 1)]) [] ->
    f_basic f0 = [] ->
    f_slack f0 = numVariables s ->
    f_surplus f0 = numVariables s + numSlack ->
    f_art f0 = numVariables s + numSlack + numSurplus ->
    let f := for_loop 0 (numConstraints s) (fillRow s numCols) f0 in
    let '(a, b, c) :=
      countVars (take (Z.to_nat (numConstraints s)) (constraintTypes s)) in
    sizeZ (f_names f) = numVariables s + a + b + c
    /\ Forall (fun bv => numVariables s <= bv
                         < numVariables s + numSlack + numSurplus + numArtificial)
              (f_basic f).
Proof.
  intros Hv Hlen Hc.
  pose proof (countVars_nonneg (constraintTypes s)) as Hnn.
  destruct (countVars (constraintTypes s)) as [[A B] C] eqn:Htot.
  destruct Hnn as (HA & HB & HC).
  intros f0 Hn0 Hb0 Hs0 Hu0 Ha0 f. subst f.
  assert (let f := for_loop 0 (numConstraints s) (fillRow s numCols) f0 in
          let '(a, b, c) :=
            countVars (take (Z.to_nat (numConstraints s)) (constraintTypes s)) in
          f_slack f = numVariables s + a
          /\ f_surplus f = numVariables s + A + b
          /\ f_art f = numVariables s + A + B + c
          /\ sizeZ (f_names f) = numVariables s + a + b + c
          /\ Forall (fun bv => numVariables s <= bv < numVariables s + A + B + C)
                    (f_basic f)) as H.
  { apply (for_loop_inv
             (fun i f =>
                let '(a, b, c) :=
                  countVars (take (Z.to_nat i) (constraintTypes s)) in
                f_slack f = numVariables s + a
                /\ f_surplus f = numVariables s + A + b
                /\ f_art f = numVariables s + A + B + c
                /\ sizeZ (f_names f) = numVariables s + a + b + c
                /\ Forall (fun bv => numVariables s <= bv
                                     < numVariables s + A + B + C) (f_basic f)));
      [lia| |].
    - simpl. rewrite Hs0, Hu0, Ha0, Hn0, Hb0, names_size by lia.
      repeat split; try lia. constructor.
    - intros i f Hi IH.
      rewrite (take_snoc_getZ (constraintTypes s) i) by lia.
      rewrite countVars_snoc.
      pose proof (countVars_prefix
                    (take (Z.to_nat i) (constraintTypes s) ++ [getZ 0 (constraintTypes s) i])
                    (drop (Z.to_nat (i + 1)) (constraintTypes s))) as Hpre.
      rewrite <-(take_snoc_getZ (constraintTypes s) i), take_drop, Htot in Hpre by lia.
      rewrite (take_snoc_getZ (constraintTypes s) i), countVars_snoc in Hpre by lia.
      pose proof (countVars_nonneg (take (Z.to_nat i) (constraintTypes s))) as Hnn.
      destruct (countVars (take (Z.to_nat i) (constraintTypes s))) as [[a b] c].
      destruct Hnn as (Ha & Hb & Hc').
      destruct IH as (Hsl & Hsu & Har & Hnm & Hbv).
      unfold fillRow.
      destruct (getZ 0 (constraintTypes s) i =? 1);
        [|destruct (getZ 0 (constraintTypes s) i =? 2)];
        cbn [f_tab f_names f_basic f_slack f_surplus f_art];
        (split; [lia|]); (split; [lia|]); (split; [lia|]);
        (split; [unfold sizeZ in *; rewrite ?length_app; simpl; lia|]);
        (apply Forall_app; split; [exact Hbv|]);
        (constructor; [lia|constructor]). }
  simpl in H.
  destruct (countVars (take (Z.to_nat (numConstraints s)) (constraintTypes s)))
    as [[a b] c].
  destruct H as (_ & _ & _ & Hnm & Hbv). by split.
Qed.

Lemma createInitialTableau_basis (s : t) :
  0 <= numVariables s ->
  numConstraints s = sizeZ (constraintTypes s) ->
  sizeZ (varNames (createInitialTableau s)) = totalVars s
  /\ Forall (fun bv => numVariables s <= bv < totalVars s)
            (basicVars (createInitialTableau s)).
Proof.
  intros Hv Hlen.
  pose proof (fill_columns s (totalVars s + 1) Hv) as H.
  unfold createInitialTableau, totalVars in *.
  destruct (countVars (constraintTypes s)) as [[A B] C] eqn:Htot.
  cbn [varNames basicVars with_tableau].
  specialize (H ltac:(lia) ltac:(pose proof (sizeZ_nonneg (constraintTypes s)); lia)).
  specialize (H (mkFill
                   (replicate (Z.to_nat (numConstraints s + 1))
                      (replicate (Z.to_nat (numVariables s + A + B + C + 1)) 0%float))
                   (for_loop 0 (numVariables s)
                      (fun i vn => vn ++ ["x" +:+ to_string (i + 1)]) [])
                   [] (numVariables s) (numVariables s + A)
                   (numVariables s + A + B))
                eq_refl eq_refl eq_refl eq_refl eq_refl).
  cbn zeta in H.
  assert (take (Z.to_nat (numConstraints s)) (constraintTypes s) = constraintTypes s)
    as Htake by (rewrite Hlen; unfold sizeZ; by rewrite Nat2Z.id, firstn_all).
  rewrite Htake, Htot in H. exact H.
Qed.

Lemma findPivotColumn_range (s : t) :
  findPivotColumn s <> -1 -> 0 <= findPivotColumn s < pivotColumns s.
Proof.
  rewrite findPivotColumn_scan.
  destruct (scan_best (fun j m => improves s (objectiveEntry s j) m)
              (objectiveEntry s) (pivotColumns s) 0%float)
    as [(Hidx & _)|(Hidx & _)]; [congruence|done].
Qed.

Lemma pivotColumns_shape (s : t) (rows cols : Z) :
  hasShape (tableau s) rows cols -> 1 <= rows -> pivotColumns s = cols - 1.
Proof.
  intros [Hrows Hcols] Hr. unfold pivotColumns. f_equal.
  rewrite List.Forall_forall in Hcols. apply Hcols, getZ_elem_or_default. lia.
Qed.

Lemma pivotLoop_basis (n : nat) (s : t) (rows total : Z) :
  hasShape (tableau s) rows (total + 1) -> 1 <= rows ->
  Forall (fun bv => 0 <= bv < total) (basicVars s) ->
  Forall (fun bv => 0 <= bv < total) (basicVars (exitState (pivotLoop n s))).
Proof.
  revert s. induction n as [|n IH]; intros s Hshape Hrows Hbv; simpl; [done|].
  destruct (Z.eqb_spec (findPivotColumn s) (-1)) as [|Hcol]; [done|].
  destruct (findPivotRow s (findPivotColumn s) =? -1); [done|].
  destruct (performPivot_shape s rows (total + 1)
              (findPivotRow s (findPivotColumn s)) (findPivotColumn s) Hshape)
    as (Hsh & _).
  apply IH; [exact Hsh|exact Hrows|].
  pose proof (findPivotColumn_range s Hcol) as Hrange.
  rewrite (pivotColumns_shape s rows (total + 1) Hshape Hrows) in Hrange.
  unfold performPivot. cbn [basicVars with_tableau]. unfold setZ.
  destruct (_ <? 0); [exact Hbv|].
  destruct (decide (Z.to_nat (findPivotRow s (findPivotColumn s))
                    < length (basicVars s))%nat) as [Hlt|Hge].
  - apply Forall_insert; [exact Hbv|lia].
  - rewrite list_insert_ge by lia. exact Hbv.
Qed.

End Basis.

(** X17.  For a solver constructed with as many constraint types as
    constraints, the bookkeeping of columns is consistent from
    [createInitialTableau] on and through any number of pivots: [varNames]
    has one name per column of a variable ([totalVars] of them); the
    initial basis consists of slack and artificial columns only; and every
    later entry of [basicVars] is a column of a variable, never negative
    and never the right-hand side.  So the test [bv < varNames.size()] of
    the artificial check holds for every row, and [varNames[bv]] and
    [outSolution[bv]] stay inside their vectors. *)
Theorem basis_columns_valid (obj : list double) (cons : list (list double))
    (r : list double) (types : list Z) (isMax : bool) (pivots : nat) :
  sizeZ types = sizeZ cons ->
  let s0 := SimplexSolver.new obj cons r types isMax in
  let s := exitState (SimplexSolver.pivotLoop pivots
                        (SimplexSolver.createInitialTableau s0)) in
  sizeZ (SimplexSolver.varNames s) = totalVars s0
  /\ Forall (fun bv => sizeZ obj <= bv < totalVars s0)
            (SimplexSolver.basicVars (SimplexSolver.createInitialTableau s0))
  /\ Forall (fun bv => 0 <= bv < totalVars s0) (SimplexSolver.basicVars s)
  /\ forall i, 0 <= i < sizeZ cons ->
       (getZ 0 (SimplexSolver.basicVars s) i <? sizeZ (SimplexSolver.varNames s))
       = true.
Proof.
  intros Hlen s0 s.
  destruct (createInitialTableau_basis s0) as [Hnames Hbasis];
    [apply sizeZ_nonneg|by symmetry|].
  destruct (createInitialTableau_shape s0) as [Hsh Hsize];
    [apply sizeZ_nonneg|apply sizeZ_nonneg|].
  destruct (pivotLoop_shape pivots _ _ _ Hsh) as (_ & Hsize' & Hvn).
  fold s in Hsize', Hvn.
  assert (Forall (fun bv => 0 <= bv < totalVars s0) (SimplexSolver.basicVars s))
    as Hvalid.
  { apply (pivotLoop_basis pivots _ (SimplexSolver.numConstraints s0 + 1));
      [exact Hsh|pose proof (sizeZ_nonneg cons); simpl; lia|].
    eapply Forall_impl; [exact Hbasis|]. simpl. intros bv Hbv.
    pose proof (sizeZ_nonneg obj). lia. }
  split; [by rewrite Hvn|]. split; [exact Hbasis|]. split; [exact Hvalid|].
  intros i Hi. apply Z.ltb_lt. rewrite Hvn, Hnames.
  rewrite List.Forall_forall in Hvalid.
  apply Hvalid, getZ_elem_or_default. rewrite Hsize', Hsize. exact Hi.
Qed.

(** The theorem above on the root relaxation of the pure-ILP scenario,
    after two pivots. *)
Lemma basis_columns_valid_witness :
  let s0 := SimplexSolver.new [5; 4]%float [[1; 1]; [10; 6]]%float [5; 45]%float
              [1; 1] true in
  let s := exitState (SimplexSolver.pivotLoop 2
                        (SimplexSolver.createInitialTableau s0)) in
  sizeZ (SimplexSolver.varNames s) = totalVars s0
  /\ Forall (fun bv => sizeZ [5; 4]%float <= bv < totalVars s0)
            (SimplexSolver.basicVars (SimplexSolver.createInitialTableau s0))
  /\ Forall (fun bv => 0 <= bv < totalVars s0) (SimplexSolver.basicVars s)
  /\ forall i, 0 <= i < sizeZ [[1; 1]; [10; 6]]%float ->
       (getZ 0 (SimplexSolver.basicVars s) i <? sizeZ (SimplexSolver.varNames s))
       = true.
Proof.
  apply (basis_columns_valid [5; 4]%float [[1; 1]; [10; 6]]%float [5; 45]%float
           [1; 1] true 2).
  reflexivity.
Defined.

(** ** The line of integer variables *)

Section Input.
Import BranchAndBound.

Lemma string_app_cons (c : ascii) (s1 s2 : string) :
  String c s1 +:+ s2 = String c (s1 +:+ s2).
Proof. reflexivity. Qed.

Lemma string_length_app (s1 s2 : string) :
  String.length (s1 +:+ s2) = (String.length s1 + String.length s2)%nat.
Proof.
  induction s1 as [|c s1 IH]; [done|].
  rewrite string_app_cons. simpl. by rewrite IH.
Qed.

Lemma string_app_nil_r (s : string) : s +:+ EmptyString = s.
Proof.
  induction s as [|c s IH]; [done|]. by rewrite string_app_cons, IH.
Qed.

Lemma string_app_assoc (s1 s2 s3 : string) :
  (s1 +:+ s2) +:+ s3 = s1 +:+ (s2 +:+ s3).
Proof.
  induction s1 as [|c s1 IH]; [done|]. by rewrite !string_app_cons, IH.
Qed.



Lemma skipNonDigits_idem (s : string) :
  skipNonDigits (skipNonDigits s) = skipNonDigits s.
Proof.
  induction s as [|c s IH]; simpl; [done|].
  destruct (isdigit c) eqn:Hc; [|exact IH]. simpl. by rewrite Hc.
Qed.


(** One pass of the loop on a line that still holds a digit. *)
Lemma parseLoop_step (k : nat) (n : Z) (rest : string) (acc : list Z)
    (c : ascii) (r : string) :
  skipNonDigits rest = String c r ->
  parseLoop (Datatypes.S k) n rest acc
  = parseLoop k n (readNumber 0 (String c r)).2
      (if (1 <=? (readNumber 0 (String c r)).1)
          && ((readNumber 0 (String c r)).1 <=? n)
       then acc ++ [(readNumber 0 (String c r)).1 - 1] else acc).
Proof.
  intros Hskip. cbn [parseLoop].
  destruct rest as [|c0 r0]; [discriminate|]. rewrite Hskip.
  by destruct (readNumber 0 (String c r)) as [var rest2].
Qed.

Lemma parseLoop_done (k : nat) (n : Z) (rest : string) (acc : list Z) :
  skipNonDigits rest = EmptyString -> parseLoop k n rest acc = acc.
Proof.
  intros Hskip. destruct k as [|k]; [done|]. cbn [parseLoop].
  destruct rest as [|c0 r0]; [done|]. by rewrite Hskip.
Qed.



(** Characters in front of the first digit do not count. *)
Lemma parseLoop_skip (fuel : nat) (n : Z) (rest : string) (acc : list Z) :
  parseLoop fuel n rest acc = parseLoop fuel n (skipNonDigits rest) acc.
Proof.
  destruct fuel as [|k]; [done|].
  destruct (skipNonDigits rest) as [|c r] eqn:Hskip.
  - by rewrite parseLoop_done.
  - rewrite (parseLoop_step k n rest acc c r Hskip).
    rewrite (parseLoop_step k n (String c r) acc c r); [done|].
    by rewrite <-Hskip, skipNonDigits_idem.
Qed.

End Input.


Section RoundTrip.
Import BranchAndBound.

Lemma wrap_int_small (x : Z) : - 2 ^ 31 <= x < 2 ^ 31 -> wrap_int x = x.
Proof. intros Hx. unfold wrap_int. rewrite Z.mod_small; lia. Qed.

Lemma pretty_N_char_digit (x : N) :
  (x < 10)%N ->
  isdigit (pretty_N_char x) = true /\ digitValue (pretty_N_char x) = Z.of_N x.
Proof.
  intros Hx.
  assert (x = 0 \/ x = 1 \/ x = 2 \/ x = 3 \/ x = 4 \/ x = 5 \/ x = 6
          \/ x = 7 \/ x = 8 \/ x = 9)%N as H by lia.
  destruct H as [->|[->|[->|[->|[->|[->|[->|[->|[->| ->]]]]]]]]];
    by vm_compute.
Qed.

(** A line starts with a digit, or does not. *)
Lemma readNumber_stop (v : Z) (rest : string) :
  match rest with
  | EmptyString => True
  | String c _ => isdigit c = false
  end ->
  readNumber v rest = (v, rest).
Proof. destruct rest as [|c r]; simpl; [done|]. by intros ->. Qed.

(** Reading the decimal digits of [x] gives [x]. *)
Lemma read_pretty_go (x : N) (s rest : string) :
  Z.of_N x < 2 ^ 31 ->
  readNumber 0 (pretty_N_go x s +:+ rest) = readNumber (Z.of_N x) (s +:+ rest).
Proof.
  revert s. induction (N.lt_wf_0 x) as [x _ IH]; intros s Hx.
  destruct (decide (x = 0%N)) as [->|Hne]; [by rewrite pretty_N_go_0|].
  rewrite pretty_N_go_step by lia.
  assert (x `div` 10 < x)%N as Hlt by (apply N.div_lt; lia).
  rewrite IH by (try exact Hlt; lia).
  destruct (pretty_N_char_digit (x `mod` 10)) as [Hd Hv];
    [by apply N.mod_lt|].
  rewrite string_app_cons. cbn [readNumber]. rewrite Hd, Hv.
  rewrite wrap_int_small; [f_equal|]; pose proof (N.div_mod x 10); lia.
Qed.

Lemma pretty_go_digit (x : N) (s : string) :
  (0 < x)%N \/ (exists c r, s = String c r /\ isdigit c = true) ->
  exists c r, pretty_N_go x s = String c r /\ isdigit c = true.
Proof.
  revert s. induction (N.lt_wf_0 x) as [x _ IH]; intros s Hx.
  destruct (decide (x = 0%N)) as [->|Hne].
  - rewrite pretty_N_go_0. destruct Hx as [?|?]; [lia|done].
  - rewrite pretty_N_go_step by lia. apply IH; [apply N.div_lt; lia|].
    right. eexists _, _. split; [done|].
    by apply pretty_N_char_digit, N.mod_lt.
Qed.

Lemma to_string_pos (k : Z) :
  1 <= k -> to_string k = pretty_N_go (Z.to_N k) EmptyString.
Proof.
  intros Hk. destruct k as [|p|p]; [lia| |lia]. reflexivity.
Qed.

(** One number of the line, followed by something that is no digit. *)
Lemma parseLoop_number (fuel : nat) (n k : Z) (rest : string) (acc : list Z) :
  1 <= k <= n -> k < 2 ^ 31 ->
  match rest with
  | EmptyString => True
  | String c _ => isdigit c = false
  end ->
  parseLoop (Datatypes.S fuel) n (to_string k +:+ rest) acc
  = parseLoop fuel n rest (acc ++ [k - 1]).
Proof.
  intros Hk Hsmall Hrest. rewrite to_string_pos by lia.
  destruct (pretty_go_digit (Z.to_N k) EmptyString) as (c & r & Hcr & Hc); [lia|].
  assert (skipNonDigits (pretty_N_go (Z.to_N k) EmptyString +:+ rest)
          = String c (r +:+ rest)) as Hskip.
  { rewrite Hcr, string_app_cons. simpl. by rewrite Hc. }
  rewrite (parseLoop_step fuel n _ acc c (r +:+ rest) Hskip).
  rewrite <-string_app_cons, <-Hcr, read_pretty_go by lia.
  change (EmptyString +:+ rest) with rest.
  rewrite (readNumber_stop _ rest Hrest). cbn [fst snd].
  rewrite Z2N.id by lia.
  destruct (Z.leb_spec 1 k); [|lia]. destruct (Z.leb_spec k n); [|lia]. done.
Qed.

Lemma joinVars_cons (i : Z) (rest : list Z) :
  joinVars (i :: rest)
  = to_string (i + 1)
    +:+ match rest with [] => EmptyString | _ => String " " (joinVars rest) end.
Proof.
  destruct rest as [|j rest]; simpl; [by rewrite string_app_nil_r|done].
Qed.

Lemma joinVars_digit (n i : Z) (rest : list Z) :
  0 <= i ->
  exists c r, joinVars (i :: rest) = String c r /\ isdigit c = true.
Proof.
  intros Hi. rewrite joinVars_cons, to_string_pos by lia.
  destruct (pretty_go_digit (Z.to_N (i + 1)) EmptyString) as (c & r & -> & Hc);
    [lia|].
  rewrite string_app_cons. by eexists _, _.
Qed.

Lemma to_string_length (k : Z) : 1 <= k -> (1 <= String.length (to_string k))%nat.
Proof.
  intros Hk. rewrite to_string_pos by lia.
  destruct (pretty_go_digit (Z.to_N k) EmptyString) as (c & r & -> & _); [lia|].
  simpl. lia.
Qed.

Lemma parseLoop_join (n : Z) (idxs : list Z) :
  n < 2 ^ 31 ->
  Forall (fun i => 0 <= i < n) idxs ->
  forall fuel acc,
    (String.length (joinVars idxs) <= fuel)%nat ->
    parseLoop fuel n (joinVars idxs) acc = acc ++ idxs.
Proof.
  intros Hn. induction 1 as [|i rest Hi Hrest IH]; intros fuel acc Hfuel.
  - simpl. rewrite app_nil_r. by destruct fuel.
  - rewrite joinVars_cons in Hfuel |- *. rewrite string_length_app in Hfuel.
    pose proof (to_string_length (i + 1)) as Hlen.
    destruct fuel as [|fuel]; [lia|].
    rewrite parseLoop_number; [|lia|lia|by destruct rest].
    replace (i + 1 - 1) with i by lia.
    destruct rest as [|j rest].
    + by destruct fuel.
    + rewrite parseLoop_skip.
      apply Forall_cons in Hrest as [Hj Hrest'].
      destruct (joinVars_digit n j rest) as (c & r & Hcr & Hc); [lia|].
      assert (skipNonDigits (String " " (joinVars (j :: rest)))
              = joinVars (j :: rest)) as ->.
      { change (skipNonDigits (String " " ?s)) with (skipNonDigits s).
        rewrite Hcr. simpl. by rewrite Hc. }
      rewrite IH; [by rewrite <-app_assoc|].
      assert (String.length (String " " (joinVars (j :: rest)))
              = Datatypes.S (String.length (joinVars (j :: rest)))) as Hl
          by reflexivity.
      rewrite Hl in Hfuel. lia.
Qed.

End RoundTrip.

(** X19.  The line of choice 2 is read back faithfully: when the variables
    of a list are typed as asked for, by their numbers separated by single
    spaces, in any order and with repetitions, [integerVars] receives
    exactly the indices of the list, in the order typed.  The numbers are
    those that the program prints for the variables (index plus one, in
    decimal); the count of variables is below 2^31, as an [int]. *)
Theorem typed_variables_read_back (numVariables : Z) (idxs : list Z) :
  numVariables < 2 ^ 31 ->
  Forall (fun i => 0 <= i < numVariables) idxs ->
  BranchAndBound.parseIntegerVars numVariables (joinVars idxs) = idxs.
Proof.
  intros Hn Hvalid. unfold BranchAndBound.parseIntegerVars.
  by rewrite (parseLoop_join numVariables idxs Hn Hvalid).
Qed.

(** The theorem above for the line "3 1 12 1" and 12 variables. *)
Lemma typed_variables_read_back_witness :
  BranchAndBound.parseIntegerVars 12 "3 1 12 1" = [2; 0; 11; 0].
Proof.
  apply (typed_variables_read_back 12 [2; 0; 11; 0]).
  - reflexivity.
  - repeat constructor; lia.
Defined.

(** ** Statuses and stored relaxations *)

Section Statuses.
Import BranchAndBound.

Lemma flt_true_notNaN (x y : double) : flt x y = true -> notNaN x /\ notNaN y.
Proof.
  unfold flt, notNaN, PrimFloat.is_nan.
  rewrite FloatAxioms.ltb_spec, !FloatAxioms.eqb_spec.
  unfold SFltb, SFeqb.
  destruct (Prim2SF x) as [s1|s1| |s1 m1 e1], (Prim2SF y) as [s2|s2| |s2 m2 e2];
    simpl; try discriminate; intros _; split; try reflexivity;
    rewrite ?Z.compare_refl;
    try change (PosDef.Pos.compare_cont Eq ?m ?m) with (Pos.compare m m);
    rewrite ?Pos.compare_refl; by repeat match goal with s : bool |- _ => destruct s end.
Qed.

(** By a strict improvement of the incumbent, what was not better than
    the old one is not better than the new one. *)
Lemma improved_trans (b b' : t) (x obj : double) :
  isMaximization b' = isMaximization b -> bestObjValue b' = obj ->
  improved b obj = true -> improved b x = false -> improved b' x = false.
Proof.
  unfold improved, fgt. intros -> -> Hobj Hx.
  destruct (isMaximization b).
  - destruct (flt_true_notNaN _ _ Hobj) as [Hbest _].
    apply (flt_neg_trans obj (bestObjValue b) x Hbest); [|exact Hx].
    by apply flt_asym.
  - destruct (flt_true_notNaN _ _ Hobj) as [_ Hbest].
    apply (flt_neg_trans x (bestObjValue b) obj Hbest); [exact Hx|].
    by apply flt_asym.
Qed.

Lemma improved_self (b : t) (obj : double) :
  bestObjValue b = obj -> improved b obj = false.
Proof.
  unfold improved, fgt. intros ->. destruct (isMaximization b); apply flt_irrefl.
Qed.

Lemma classified_frame (b b' : t) (nd nd' : TreeNode) :
  integerVars b' = integerVars b ->
  status nd' = status nd -> solution nd' = solution nd ->
  classified b nd -> classified b' nd'.
Proof.
  unfold classified, isIntegerSolution. intros -> -> ->. done.
Qed.

Lemma notBetter_frame (b b' : t) (nd nd' : TreeNode) :
  isMaximization b' = isMaximization b -> bestObjValue b' = bestObjValue b ->
  status nd' = status nd -> objValue nd' = objValue nd ->
  notBetter b nd -> notBetter b' nd'.
Proof.
  unfold notBetter, improved. intros -> -> -> ->. done.
Qed.

Lemma later_pass_frame (st : loop_state) (current : QueueItem)
    (sol : list double) (obj : double) :
  let b2 := registerNode (with_iteration (l_obj st) (iteration (l_obj st) + 1))
              current (l_counter st + 1) sol obj in
  integerVars b2 = integerVars (l_obj st)
  /\ isMaximization b2 = isMaximization (l_obj st)
  /\ bestObjValue b2 = bestObjValue (l_obj st).
Proof.
  intros b2.
  destruct (registerNode_frame
              (with_iteration (l_obj st) (iteration (l_obj st) + 1))
              current (l_counter st + 1) sol obj) as (Hmax & _ & Hbo & _).
  destruct (registerNode_frame'
              (with_iteration (l_obj st) (iteration (l_obj st) + 1))
              current (l_counter st + 1) sol obj) as (Hiv & _).
  by repeat split.
Qed.

Lemma nodeInv_iterate (st : loop_state) :
  logDiscipline st -> treeShape st -> nodeInv st -> l_queue st <> [] ->
  nodeInv (iterate st).
Proof.
  intros Hld Hts Hni Hne.
  assert (iteration (l_obj (iterate st)) <> 0) as Hnz.
  { destruct (iterate_shapes st Hld Hts Hne) as (_ & _ & _ & _ & _ & _ & Hit & _).
    pose proof (ld_iteration st Hld). lia. }
  destruct (iterate_process st Hld Hne)
    as (current & rest & sol & obj & Hs & Hin & Hrest & Hsolve & Hcase).
  set (b1 := with_iteration (l_obj st) (iteration (l_obj st) + 1)) in *.
  destruct Hcase as [(H0 & Hd0 & -> & Hit)|(H1 & Hd1 & Hit)].
  - (* first pass *)
    destruct (ni_first st Hni H0)
      as ((item & Hq & Hec & Her & Het) & nd0 & Hnd0 & Hst0 & Hsub).
    rewrite Hq in Hin. apply list_elem_of_singleton in Hin as ->.
    rewrite Hec, Her, Het in Hsolve.
    unfold b1 in Hsolve. rewrite solveSubproblem_with_iteration, Hsub in Hsolve.
    injection Hsolve as <- <-.
    destruct (ni_nodes st Hni 0 nd0 Hnd0) as [(Hterm & Hinf & Hninf & Hint & Hbr) _].
    assert (solution nd0 <> []) as Hsol by (apply Hninf; by rewrite Hst0).
    specialize (Hbr Hst0).
    assert (exists s, (s = "PRUNED" \/ s = "BRANCHED")%string
                      /\ l_obj (iterate st) = assign_status b1 0 s) as (s & Hs' & Hobj).
    { rewrite Hit.
      destruct (processNode_cases b1 [] (l_counter st) item 0 (solution nd0)
                  (objValue nd0))
        as (_ & [(? & _)|[(_ & _ & -> & _)|[(_ & _ & Hi & _)|[(_ & _ & Hi & _)
                  |(_ & _ & _ & -> & _)]]]]); try done.
      - eexists. split; [left; reflexivity|done].
      - change (isIntegerSolution b1 (solution nd0))
          with (isIntegerSolution (l_obj st) (solution nd0)) in Hi. congruence.
      - change (isIntegerSolution b1 (solution nd0))
          with (isIntegerSolution (l_obj st) (solution nd0)) in Hi. congruence.
      - eexists. split; [right; reflexivity|done]. }
    destruct (assign_status_lookup b1 0 s) as [Hroot Hother].
    rewrite <-Hobj in Hroot, Hother.
    split; [done|].
    intros id nd Hnd. destruct (decide (id = 0)) as [->|Hid].
    + rewrite Hroot in Hnd. injection Hnd as <-.
      assert (node b1 0 = nd0) as ->
          by (unfold node; change (treeNodes b1) with (treeNodes (l_obj st));
              by rewrite Hnd0).
      split.
      * split; [destruct Hs' as [-> | ->]; unfold terminal; repeat constructor|].
        cbn [status solution set_status].
        split; [by destruct Hs' as [-> | ->]|]. split; [done|].
        split; [by destruct Hs' as [-> | ->]|].
        intros _. rewrite Hobj. exact Hbr.
      * unfold notBetter. cbn [status set_status]. by destruct Hs' as [-> | ->].
    + rewrite (Hother id Hid) in Hnd.
      destruct (ni_nodes st Hni id nd Hnd) as [Hcl Hnb]. split.
      * apply (classified_frame (l_obj st) _ nd nd); try done. by rewrite Hobj.
      * apply (notBetter_frame (l_obj st) _ nd nd); try done; by rewrite Hobj.
  - (* later passes *)
    set (id := l_counter st + 1) in *.
    set (b2 := registerNode b1 current id sol obj) in *.
    destruct (later_pass_frame st current sol obj) as (Hiv & Hmax & Hbo).
    fold b1 id b2 in Hiv, Hmax, Hbo.
    assert (isIntegerSolution b2 sol = isIntegerSolution (l_obj st) sol) as Hint2
        by (unfold isIntegerSolution; by rewrite Hiv).
    assert (improved b2 obj = improved (l_obj st) obj) as Himp2
        by (unfold improved; by rewrite Hmax, Hbo).
    destruct (processNode_cases b2 rest id current id sol obj) as (_ & Hcases).
    rewrite <-Hit in Hcases. split; [done|].
    assert (forall s,
              l_obj (iterate st) = assign_status b2 id s ->
              classified (l_obj st)
                (mkTreeNode id (q_parentId current) (branchInfo current)
                   (q_depth current) sol obj s (-1) (-1) false)
              /\ notBetter (l_obj st)
                   (mkTreeNode id (q_parentId current) (branchInfo current)
                      (q_depth current) sol obj s (-1) (-1) false) ->
              forall j nd, treeNodes (l_obj (iterate st)) !! j = Some nd ->
                classified (l_obj (iterate st)) nd
                /\ notBetter (l_obj (iterate st)) nd) as Hplain.
    { intros s Hobj [Hcl Hnb] j nd Hj.
      destruct (later_pass_nodes st current sol obj s Hld Hin)
        as ((ndn & Hndn & _ & Hstn & Hson & Hovn & _) & _ & Hback & _).
      fold b1 id b2 in Hndn, Hback. rewrite <-Hobj in Hndn, Hback.
      assert (integerVars (l_obj (iterate st)) = integerVars (l_obj st)) as Hiv'
          by (by rewrite Hobj).
      assert (isMaximization (l_obj (iterate st)) = isMaximization (l_obj st))
        as Hmax' by (by rewrite Hobj).
      assert (bestObjValue (l_obj (iterate st)) = bestObjValue (l_obj st))
        as Hbo' by (by rewrite Hobj).
      destruct (decide (j = id)) as [->|Hjid].
      - assert (nd = ndn) as -> by congruence. split.
        + by apply (classified_frame (l_obj st) _ (mkTreeNode id (q_parentId current)
                      (branchInfo current) (q_depth current) sol obj s (-1) (-1) false)).
        + by apply (notBetter_frame (l_obj st) _ (mkTreeNode id (q_parentId current)
                      (branchInfo current) (q_depth current) sol obj s (-1) (-1) false)).
      - destruct (Hback j nd Hj Hjid) as (nd0 & Hnd0 & (_ & Hst & Hso & Hov & _)).
        destruct (ni_nodes st Hni j nd0 Hnd0) as [Hcl0 Hnb0]. split.
        + by apply (classified_frame (l_obj st) _ nd0).
        + by apply (notBetter_frame (l_obj st) _ nd0). }
    destruct Hcases as [(Hsol & Hobj & _)|[(Hsol & _ & Hobj & _)
                       |[(Hsol & _ & Hi & Him & Hobj & _)
                        |[(Hsol & _ & Hi & Him & Hobj & _)
                         |(Hsol & _ & Hi & Hobj & _)]]]].
    + apply (Hplain _ Hobj). split; [|by intros [=]].
      split; [unfold terminal; repeat constructor|]. cbn [status solution].
      by repeat split.
    + apply (Hplain _ Hobj). split; [|by intros [=]].
      split; [unfold terminal; repeat constructor|]. cbn [status solution].
      by repeat split.
    + apply (Hplain _ Hobj). split.
      * split; [unfold terminal; repeat constructor|]. cbn [status solution].
        split; [done|]. split; [done|]. split; [by rewrite <-Hint2|done].
      * intros _. cbn [objValue]. by rewrite <-Himp2.
    + (* a new incumbent *)
      set (b3 := assign_status b2 id "INTEGER") in *.
      destruct (later_pass_nodes st current sol obj "INTEGER" Hld Hin)
        as ((ndn & Hndn & _ & Hstn & Hson & Hovn & _) & _ & Hback & _).
      fold b1 id b2 b3 in Hndn, Hback.
      assert (integerVars (l_obj (iterate st)) = integerVars (l_obj st)) as Hiv'
          by (by rewrite Hobj).
      assert (isMaximization (l_obj (iterate st)) = isMaximization (l_obj st))
        as Hmax' by (by rewrite Hobj).
      assert (bestObjValue (l_obj (iterate st)) = obj) as Hbo'
          by (by rewrite Hobj).
      intros j nd Hj. rewrite Hobj, updateBest_lookup in Hj.
      destruct (treeNodes b3 !! j) as [nd'|] eqn:Hnd'; [|done].
      injection Hj as <-.
      destruct (decide (j = id)) as [->|Hjid].
      * assert (nd' = ndn) as -> by congruence. split.
        -- split; [cbn [status set_isOptimal]; rewrite Hstn; unfold terminal;
                   repeat constructor|].
           cbn [status solution set_isOptimal]. rewrite Hstn, Hson.
           split; [done|]. split; [done|]. split; [|done].
           intros _. unfold isIntegerSolution. rewrite Hiv', <-Hiv. exact Hi.
        -- intros _. cbn [objValue set_isOptimal]. rewrite Hovn.
           by apply improved_self.
      * destruct (Hback j nd' Hnd' Hjid) as (nd0 & Hnd0 & (_ & Hst & Hso & Hov & _)).
        destruct (ni_nodes st Hni j nd0 Hnd0) as [Hcl0 Hnb0]. split.
        -- by apply (classified_frame (l_obj st) _ nd0).
        -- intros Hint. cbn [status objValue set_isOptimal] in Hint |- *.
           rewrite Hov.
           apply (improved_trans (l_obj st) _ _ obj Hmax' Hbo');
             [by rewrite <-Himp2|].
           apply Hnb0. by rewrite <-Hst.
    + apply (Hplain _ Hobj). split; [|by intros [=]].
      split; [unfold terminal; repeat constructor|]. cbn [status solution].
      split; [done|]. split; [done|]. split; [done|].
      intros _. by rewrite <-Hint2.
Qed.

Lemma nodeInv_start (b : t) (st : loop_state) :
  treeNodes b = ∅ -> solveRoot b = inr st -> nodeInv st.
Proof.
  intros Hempty Hroot. pose proof (solveRoot_cases b) as H.
  destruct (solveSubproblem b [] [] [] [] 0%float) as [rootSol rootObj] eqn:Hsub.
  rewrite Hroot in H.
  destruct H as [(_ & ?)|[(_ & _ & ?)|(Hne & Hint & [= ->])]]; try discriminate.
  set (b3 := with_best _ _ _).
  assert (treeNodes b3
          = {[0 := set_status (rootNode rootSol rootObj) "BRANCHED"]}) as Htree.
  { unfold b3. cbn. by rewrite Hempty, insert_insert_eq, insert_empty,
                               node_put_node_eq. }
  split; cbn [l_obj l_queue].
  - intros _. split; [by eexists|].
    eexists. split; [by rewrite Htree, lookup_singleton_eq|].
    split; [done|].
    rewrite (solveSubproblem_same_problem b3 b) by (by repeat split).
    exact Hsub.
  - intros id nd. rewrite Htree. intros [<- <-]%lookup_singleton_Some.
    split; [|by intros [=]].
    split; [unfold terminal; repeat constructor|]. cbn [status solution set_status].
    split; [done|]. split; [done|]. split; [done|]. intros _. exact Hint.
Qed.

Lemma solveRoot_inl_nodes (b b0 : t) (id : Z) (nd : TreeNode) :
  treeNodes b = ∅ -> solveRoot b = inl b0 ->
  treeNodes b0 !! id = Some nd ->
  classified b0 nd /\ notBetter b0 nd.
Proof.
  intros Hempty Hroot. pose proof (solveRoot_cases b) as H.
  destruct (solveSubproblem b [] [] [] [] 0%float) as [rootSol rootObj].
  rewrite Hroot in H.
  destruct H as [(Hsol & [= ->])|[(Hne & Hint & [= ->])|(_ & _ & ?)]];
    [| |discriminate].
  - cbn. rewrite Hempty, insert_insert_eq, insert_empty, node_put_node_eq.
    intros [<- <-]%lookup_singleton_Some.
    split; [|by intros [=]].
    split; [unfold terminal; repeat constructor|]. cbn [status solution set_status].
    rewrite Hsol. by repeat split.
  - cbn. rewrite Hempty, !insert_insert_eq, insert_empty.
    rewrite node_assign_status_eq, node_put_node_eq.
    intros [<- <-]%lookup_singleton_Some.
    split.
    + split; [unfold terminal; repeat constructor|].
      cbn [status solution set_status set_isOptimal].
      split; [done|]. split; [done|]. split; [|done]. intros _. exact Hint.
    + intros _. by apply improved_self.
Qed.

Lemma nodeInv_end (obj : list double) (cons : list (list double))
    (r : list double) (types : list Z) (isMax : bool) (intVars : list Z)
    (fuel : nat) (st st' : loop_state) :
  solveRoot (new obj cons r types isMax intVars) = inr st ->
  mainLoop fuel st = Some st' ->
  nodeInv st'.
Proof.
  intros Hroot Hloop.
  destruct (mainLoop_inv (fun s => logDiscipline s /\ treeShape s /\ nodeInv s)
              fuel st st') as [(_ & _ & Hinv) _]; [| |exact Hloop|exact Hinv].
  - intros s (Hs & Ht & Hn) Hne.
    split; [by apply logDiscipline_iterate|].
    split; [by apply treeShape_iterate|by apply nodeInv_iterate].
  - split; [by eapply logDiscipline_start|].
    split; [by eapply treeShape_start|].
    by apply (nodeInv_start (new obj cons r types isMax intVars)).
Qed.

End Statuses.

(** X20.  In the tree of a finished search the status of every node agrees
    with the relaxation stored in the node.  The status is one of
    INFEASIBLE, PRUNED, INTEGER, BRANCHED; it is INFEASIBLE exactly when the
    stored solution is empty; the stored solution of an INTEGER node passes
    [isIntegerSolution] and that of a BRANCHED node fails it; and no INTEGER
    node has an objective strictly better than the incumbent's: the
    incumbent is the best integer solution the search has met. *)
Theorem node_status_consistent (obj : list double) (cons : list (list double))
    (r : list double) (types : list Z) (isMax : bool) (intVars : list Z)
    (fuel : nat) (b' : BranchAndBound.t) (id : Z) (nd : TreeNode) :
  BranchAndBound.solve fuel (BranchAndBound.new obj cons r types isMax intVars)
  = Some b' ->
  BranchAndBound.treeNodes b' !! id = Some nd ->
  terminal (status nd)
  /\ (status nd = "INFEASIBLE"%string <-> solution nd = [])
  /\ (status nd = "INTEGER"%string ->
      BranchAndBound.isIntegerSolution b' (solution nd) = true
      /\ improved b' (objValue nd) = false)
  /\ (status nd = "BRANCHED"%string ->
      BranchAndBound.isIntegerSolution b' (solution nd) = false).
Proof.
  intros Hsolve Hnd.
  assert (classified b' nd /\ notBetter b' nd)
    as [(Hterm & Hinf & Hninf & Hint & Hbr) Hnb].
  { destruct (solve_inv _ _ _ Hsolve) as [Hroot|(st & st' & Hroot & Hloop & ->)].
    - by apply (solveRoot_inl_nodes
                  (BranchAndBound.new obj cons r types isMax intVars) b' id nd).
    - apply (ni_nodes st') with (id := id); [|exact Hnd].
      by apply (nodeInv_end obj cons r types isMax intVars fuel st st'). }
  split; [exact Hterm|]. split; [|split; [|exact Hbr]].
  - split; [exact Hinf|]. intros Hsol.
    destruct (decide (status nd = "INFEASIBLE"%string)) as [|Hne]; [done|].
    by destruct (Hninf Hne).
  - intros Hi. split; [by apply Hint|by apply Hnb].
Qed.

(** The theorem above at node 1 of the tree of the pure-ILP scenario. *)
Lemma node_status_consistent_witness :
  terminal (status (BranchAndBound.node ilp_result 1))
  /\ (status (BranchAndBound.node ilp_result 1) = "INFEASIBLE"%string
      <-> solution (BranchAndBound.node ilp_result 1) = [])
  /\ (status (BranchAndBound.node ilp_result 1) = "INTEGER"%string ->
      BranchAndBound.isIntegerSolution ilp_result
        (solution (BranchAndBound.node ilp_result 1)) = true
      /\ improved ilp_result (objValue (BranchAndBound.node ilp_result 1)) = false)
  /\ (status (BranchAndBound.node ilp_result 1) = "BRANCHED"%string ->
      BranchAndBound.isIntegerSolution ilp_result
        (solution (BranchAndBound.node ilp_result 1)) = false).
Proof.
  apply (node_status_consistent [5; 4]%float [[1; 1]; [10; 6]]%float
           [5; 45]%float [1; 1] true [0; 1] 11 ilp_result 1
           (BranchAndBound.node ilp_result 1)).
  - vm_compute. reflexivity.
  - vm_compute. reflexivity.
Defined.

(** ** Pruned nodes *)

Section Pruned.
Import BranchAndBound.








End Pruned.



(** ** Bounds of the queued items *)

Section Bounds.
Import BranchAndBound.

Lemma boundInv_iterate (st : loop_state) :
  logDiscipline st -> treeShape st -> nodeInv st -> boundInv st ->
  l_queue st <> [] -> boundInv (iterate st).
Proof.
  intros Hld Hts Hni Hbd Hne. unfold boundInv in *.
  destruct (iterate_process st Hld Hne)
    as (current & rest & sol & obj & Hs & Hin & Hrest & Hsolve & Hcase).
  set (b1 := with_iteration (l_obj st) (iteration (l_obj st) + 1)) in *.
  assert (Forall (fun item => exists pn,
                      treeNodes (l_obj st) !! q_parentId item = Some pn
                      /\ bound item = objValue pn) rest) as Hrest'.
  { rewrite List.Forall_forall in Hbd, Hrest |- *. intros q Hq.
    by apply Hbd, list_elem_of_In, Hrest. }
  destruct Hcase as [(H0 & Hd0 & -> & Hit)|(H1 & Hd1 & Hit)].
  - (* first pass *)
    destruct (ni_first st Hni H0)
      as ((item & Hq & Hec & Her & Het) & nd0 & Hnd0 & Hst0 & Hsub).
    rewrite Hq in Hin. apply list_elem_of_singleton in Hin as ->.
    rewrite Hec, Her, Het in Hsolve.
    unfold b1 in Hsolve. rewrite solveSubproblem_with_iteration, Hsub in Hsolve.
    injection Hsolve as <- <-.
    destruct (processNode_cases b1 [] (l_counter st) item 0 (solution nd0)
                (objValue nd0)) as (_ & Hcases).
    rewrite <-Hit in Hcases.
    assert (forall s, l_obj (iterate st) = assign_status b1 0 s ->
              exists pn, treeNodes (l_obj (iterate st)) !! 0 = Some pn
                         /\ objValue pn = objValue nd0) as Hroot.
    { intros s ->. destruct (assign_status_lookup b1 0 s) as [-> _].
      eexists. split; [done|]. unfold node.
      change (treeNodes b1) with (treeNodes (l_obj st)). by rewrite Hnd0. }
    destruct Hcases as [(_ & _ & ->)|[(_ & _ & _ & ->)|[(_ & _ & _ & _ & _ & ->)
                       |[(_ & _ & _ & _ & _ & ->)|(_ & _ & _ & Ho & ->)]]]];
      try constructor.
    simpl. destruct (Hroot _ Ho) as (pn & Hpn & Hov).
    eapply Forall_impl; [apply children_fields|]. simpl.
    intros q (-> & _ & -> & _). by exists pn.
  - (* later passes *)
    set (id := l_counter st + 1) in *.
    set (b2 := registerNode b1 current id sol obj) in *.
    destruct (processNode_cases b2 rest id current id sol obj) as (_ & Hcases).
    rewrite <-Hit in Hcases.
    assert (forall s, l_obj (iterate st) = assign_status b2 id s ->
              Forall (fun item => exists pn,
                          treeNodes (l_obj (iterate st)) !! q_parentId item = Some pn
                          /\ bound item = objValue pn) rest
              /\ exists pn, treeNodes (l_obj (iterate st)) !! id = Some pn
                            /\ objValue pn = obj) as Hplain.
    { intros s Hobj.
      destruct (later_pass_nodes st current sol obj s Hld Hin)
        as ((ndn & Hndn & _ & _ & _ & Hovn & _) & Hkeep & _).
      fold b1 id b2 in Hndn, Hkeep. rewrite <-Hobj in Hndn, Hkeep.
      split; [|by exists ndn].
      eapply Forall_impl; [exact Hrest'|]. simpl.
      intros q (pn & Hpn & Hb).
      destruct (Hkeep _ pn Hpn) as (pn' & Hpn' & (_ & _ & _ & Hov & _)).
      exists pn'. split; [done|congruence]. }
    destruct Hcases as [(_ & Ho & ->)|[(_ & _ & Ho & ->)|[(_ & _ & _ & _ & Ho & ->)
                       |[(_ & _ & _ & _ & Ho & ->)|(_ & _ & _ & Ho & ->)]]]].
    + by destruct (Hplain _ Ho).
    + by destruct (Hplain _ Ho).
    + by destruct (Hplain _ Ho).
    + (* a new incumbent: the nodes keep their objectives *)
      destruct (later_pass_nodes st current sol obj "INTEGER" Hld Hin)
        as (_ & Hkeep & _).
      fold b1 id b2 in Hkeep.
      eapply Forall_impl; [exact Hrest'|]. simpl.
      intros q (pn & Hpn & Hb).
      destruct (Hkeep _ pn Hpn) as (pn' & Hpn' & (_ & _ & _ & Hov & _)).
      exists (set_isOptimal pn'
                (bool_decide (q_parentId q ∈ optimalPath (l_obj (iterate st))))).
      split; [|cbn [objValue set_isOptimal]; congruence].
      rewrite Ho at 1. rewrite updateBest_lookup, Hpn'. simpl. by rewrite Ho.
    + destruct (Hplain _ Ho) as (Hold & pn & Hpn & Hov).
      apply Forall_app. split; [exact Hold|].
      eapply Forall_impl; [apply children_fields|]. simpl.
      intros q (-> & _ & -> & _). by exists pn.
Qed.

Lemma boundInv_start (b : t) (st : loop_state) :
  solveRoot b = inr st -> boundInv st.
Proof.
  intros Hroot. pose proof (solveRoot_cases b) as H.
  destruct (solveSubproblem b [] [] [] [] 0%float) as [rootSol rootObj].
  rewrite Hroot in H.
  destruct H as [(_ & ?)|[(_ & _ & ?)|(_ & _ & [= ->])]]; try discriminate.
  constructor; [|constructor]. cbn.
  eexists. rewrite lookup_insert_eq. split; [done|].
  by rewrite node_put_node_eq.
Qed.

End Bounds.

(** X22.  The bound by which the queue is ordered is the relaxation
    objective of the parent: in every pass, the item selected names as its
    parent a node of the tree with status BRANCHED, and its bound is the
    objective stored in that node (for the root item, the root itself and
    the root objective).  So best-first selection always continues below
    the branched node with the best stored relaxation. *)
Theorem bound_is_parent_objective (obj : list double) (cons : list (list double))
    (r : list double) (types : list Z) (isMax : bool) (intVars : list Z)
    (st : BranchAndBound.loop_state) (k : nat)
    (current : QueueItem) (rest : list QueueItem) :
  BranchAndBound.solveRoot (BranchAndBound.new obj cons r types isMax intVars)
  = inr st ->
  sortedQueue (afterPasses k st) = current :: rest ->
  exists pn,
    BranchAndBound.treeNodes (BranchAndBound.l_obj (afterPasses k st))
    !! q_parentId current = Some pn
    /\ bound current = objValue pn
    /\ status pn = "BRANCHED"%string.
Proof.
  intros Hroot Hs.
  assert (BranchAndBound.l_queue (afterPasses k st) <> []) as Hq.
  { intros Hempty. unfold sortedQueue in Hs. rewrite Hempty in Hs.
    by destruct (BranchAndBound.isMaximization _). }
  destruct (passes_inv (fun s => nodeInv s /\ boundInv s) st) with (k := k)
    as (Hld & Hts & [Hni Hbd] & Hit); try done.
  { intros s Hld Hts [Hni Hbd] Hne.
    split; [by apply nodeInv_iterate|by apply boundInv_iterate]. }
  { by eapply logDiscipline_start. }
  { by eapply treeShape_start. }
  { split; [by apply (nodeInv_start
                        (BranchAndBound.new obj cons r types isMax intVars))
           |by eapply boundInv_start]. }
  assert (current ∈ BranchAndBound.l_queue (afterPasses k st)) as Hin
      by (apply elem_of_sortedQueue; rewrite Hs; left).
  unfold boundInv in Hbd. rewrite List.Forall_forall in Hbd.
  destruct (Hbd current (proj1 (list_elem_of_In _ _) Hin)) as (pn & Hpn & Hb).
  exists pn. split; [exact Hpn|]. split; [exact Hb|].
  rewrite (start_iteration _ _ _ _ _ _ _ Hroot), Z.add_0_l in Hit.
  destruct (decide (k = 0%nat)) as [->|Hk].
  - change (afterPasses 0 st) with st in *.
    destruct (ni_first _ Hni Hit) as ((item & Hitem & _) & nd0 & Hnd0 & Hst0 & _).
    pose proof (ld_depths _ Hld) as Hdep. rewrite Hit in Hdep. simpl in Hdep.
    pose proof (logDiscipline_start _ _ _ _ _ _ _ Hroot) as Hld0.
    pose proof (ld_parents _ Hld) as Hpar. rewrite List.Forall_forall in Hpar.
    specialize (Hpar current (proj1 (list_elem_of_In _ _) Hin)).
    destruct Hdep as (Hc0 & _).
    assert (q_parentId current = 0) as Hp0 by lia.
    rewrite Hp0 in Hpn. congruence.
  - pose proof (ld_depths _ Hld) as Hdep. rewrite Hit in Hdep.
    destruct (Z.eqb_spec (Z.of_nat k) 0) as [|_]; [lia|].
    rewrite List.Forall_forall in Hdep.
    specialize (Hdep current (proj1 (list_elem_of_In _ _) Hin)).
    pose proof (ts_queue _ Hts) as Htq. rewrite List.Forall_forall in Htq.
    destruct (Htq current (proj1 (list_elem_of_In _ _) Hin) Hdep)
      as (shp & Hshp & _ & Hst).
    destruct (shapes_lookup_inv _ _ _ Hshp) as (pn' & Hpn' & ->).
    simpl in Hst. congruence.
Qed.

(** The theorem above before the fourth pass on the pure-ILP scenario. *)
Lemma bound_is_parent_objective_witness :
  exists pn,
    BranchAndBound.treeNodes
      (BranchAndBound.l_obj (afterPasses 3 (loopStart ilp_scenario)))
    !! q_parentId (hd (initialItem 0%float)
                      (sortedQueue (afterPasses 3 (loopStart ilp_scenario))))
    = Some pn
    /\ bound (hd (initialItem 0%float)
                 (sortedQueue (afterPasses 3 (loopStart ilp_scenario))))
       = objValue pn
    /\ status pn = "BRANCHED"%string.
Proof.
  apply (bound_is_parent_objective [5; 4]%float [[1; 1]; [10; 6]]%float
           [5; 45]%float [1; 1] true [0; 1] (loopStart ilp_scenario) 3
           (hd (initialItem 0%float)
               (sortedQueue (afterPasses 3 (loopStart ilp_scenario))))
           (tl (sortedQueue (afterPasses 3 (loopStart ilp_scenario)))));
    vm_compute; reflexivity.
Defined.

(** ** Problems without artificial variables *)

Section SlackOnly.
Import SimplexSolver.

Lemma getZ_Forall {A} (P : A -> Prop) (d : A) (l : list A) (i : Z) :
  P d -> Forall P l -> P (getZ d l i).
Proof.
  intros Hd Hl. unfold getZ. destruct (i <? 0); [exact Hd|].
  destruct (Nat.lt_ge_cases (Z.to_nat i) (length l)) as [Hlt|Hge].
  - rewrite List.Forall_forall in Hl. by apply Hl, nth_In.
  - by rewrite nth_overflow.
Qed.

(** With constraints of type <= only, no column is named as an artificial
    variable. *)
Lemma slack_only_names (s : t) :
  numConstraints s <= sizeZ (constraintTypes s) ->
  Forall (fun ty => ty = 1) (constraintTypes s) ->
  Forall (fun name => startsWith_a name = false)
         (varNames (createInitialTableau s)).
Proof.
  intros Hlen Hty. unfold createInitialTableau.
  destruct (countVars (constraintTypes s)) as [[A B] C].
  cbn [varNames with_tableau].
  apply (for_loop_preserves
           (fun f => Forall (fun name => startsWith_a name = false) (f_names f))).
  - cbn [f_names].
    apply (for_loop_preserves
             (fun vn => Forall (fun name => startsWith_a name = false) vn));
      [constructor|].
    intros i vn _ Hvn. apply Forall_app. split; [exact Hvn|].
    constructor; [reflexivity|constructor].
  - intros i f Hi Hf. unfold fillRow.
    assert (getZ 0 (constraintTypes s) i = 1) as ->.
    { rewrite List.Forall_forall in Hty.
      apply Hty, getZ_elem_or_default. lia. }
    cbn [Z.eqb Pos.eqb f_names]. apply Forall_app. split; [exact Hf|].
    constructor; [reflexivity|constructor].
Qed.

Lemma no_artificial_names (s : t) :
  Forall (fun name => startsWith_a name = false) (varNames s) ->
  artificialRemains s = false.
Proof.
  intros Hnames. unfold artificialRemains.
  apply not_true_is_false. intros Hex. apply existsb_exists in Hex as (i & _ & Hi).
  unfold artificialPositive in Hi.
  assert (startsWith_a (getZ EmptyString (varNames s) (getZ 0 (basicVars s) i))
          = false) as Hno by (by apply getZ_Forall).
  rewrite Hno, andb_false_r in Hi. discriminate.
Qed.

End SlackOnly.

(** X23.  A problem whose constraints are all of type <= is never reported
    infeasible by the simplex: [createInitialTableau] names no column as an
    artificial variable, so the artificial check cannot fire and [solve]
    leaves [isFeasible] set; its outcome is either the unbounded return or
    a solution with one entry per variable. *)
Theorem slack_only_feasible (obj : list double) (cons : list (list double))
    (r : list double) (types : list Z) (isMax : bool)
    (outSolution : list double) (outObjValue : double) :
  Forall (fun ty => ty = 1) types ->
  sizeZ cons <= sizeZ types ->
  let s0 := SimplexSolver.new obj cons r types isMax in
  let '(s, sol, z) := SimplexSolver.solve s0 outSolution outObjValue in
  SimplexSolver.isFeasible s = true
  /\ Forall (fun name => SimplexSolver.startsWith_a name = false)
            (SimplexSolver.varNames s)
  /\ ((SimplexSolver.isUnbounded s = true /\ sol = [])
      \/ (SimplexSolver.isUnbounded s = false /\ sizeZ sol = sizeZ obj)).
Proof.
  intros Hty Hlen s0. unfold SimplexSolver.solve.
  generalize SimplexSolver.maxIterations. intros n.
  pose proof (slack_only_names s0 Hlen Hty) as Hnames.
  destruct (createInitialTableau_shape s0) as [Hsh _];
    [apply sizeZ_nonneg|apply sizeZ_nonneg|].
  destruct (pivotLoop_shape n _ _ _ Hsh) as (_ & _ & Hvn).
  rewrite <-Hvn in Hnames.
  pose proof (pivotLoop_sameFrame n (SimplexSolver.createInitialTableau s0)) as Hfr.
  pose proof (sameFrame_trans _ _ _ (createInitialTableau_sameFrame s0) Hfr) as Hs.
  destruct (sameFrame_flags _ _ Hs) as [Hfe Hun].
  destruct (numVariables_frame _ _ Hs) as (Hnv & _).
  assert (forall s',
            sameFrame s0 s' ->
            Forall (fun name => SimplexSolver.startsWith_a name = false)
                   (SimplexSolver.varNames s') ->
            let '(s, sol, z) := SimplexSolver.afterLoop s' in
            SimplexSolver.isFeasible s = true
            /\ Forall (fun name => SimplexSolver.startsWith_a name = false)
                      (SimplexSolver.varNames s)
            /\ ((SimplexSolver.isUnbounded s = true /\ sol = [])
                \/ (SimplexSolver.isUnbounded s = false /\ sizeZ sol = sizeZ obj)))
    as Hafter.
  { intros s' Hs' Hn'. unfold SimplexSolver.afterLoop.
    rewrite (no_artificial_names s' Hn').
    destruct (sameFrame_flags _ _ Hs') as [Hfe' Hun'].
    destruct (numVariables_frame _ _ Hs') as (Hnv' & _).
    split; [exact Hfe'|]. split; [exact Hn'|]. right. split; [exact Hun'|].
    rewrite extractSolution_size; rewrite Hnv'; [reflexivity|apply sizeZ_nonneg]. }
  destruct (SimplexSolver.pivotLoop n (SimplexSolver.createInitialTableau s0))
    as [s'|s'|s']; simpl in Hs, Hfe, Hun, Hnames.
  - by apply Hafter.
  - cbn [SimplexSolver.isFeasible SimplexSolver.with_flags SimplexSolver.varNames
         SimplexSolver.isUnbounded].
    split; [exact Hfe|]. split; [exact Hnames|]. by left.
  - by apply Hafter.
Qed.

(** The theorem above on the root relaxation of the pure-ILP scenario. *)
Lemma slack_only_feasible_witness :
  let s0 := SimplexSolver.new [5; 4]%float [[1; 1]; [10; 6]]%float [5; 45]%float
              [1; 1] true in
  let '(s, sol, z) := SimplexSolver.solve s0 [] 0%float in
  SimplexSolver.isFeasible s = true
  /\ Forall (fun name => SimplexSolver.startsWith_a name = false)
            (SimplexSolver.varNames s)
  /\ ((SimplexSolver.isUnbounded s = true /\ sol = [])
      \/ (SimplexSolver.isUnbounded s = false /\ sizeZ sol = sizeZ [5; 4]%float)).
Proof.
  apply (slack_only_feasible [5; 4]%float [[1; 1]; [10; 6]]%float [5; 45]%float
           [1; 1] true [] 0%float).
  - repeat constructor.
  - vm_compute. discriminate.
Defined.
